(** * UCS configuration parser: a shallow embedding of [src/ucs/config/parser.c]

    The development follows the layout of the C file:
    - the fragment of the C library the parser calls (string comparison,
      [strtok_r], [sscanf] and [snprintf] conversions),
    - the per-type parsers ([ucs_config_sscanf_*] / [ucs_config_sprintf_*]),
    - the field descriptors and the option structure they describe,
    - the field resolver ([ucs_config_parser_set_value_internal]),
    - the apply pipeline ([ucs_config_apply_config_vars],
      [ucs_config_parser_fill_opts]),
    - [ucs_config_parser_get_value] and the default marker of the printer.

    Integers are mathematical integers ([Z]) with the wrap-around of the C
    type written out; C strings are [string]; the option structure is a
    finite map from byte offsets to typed values. *)

From Stdlib Require Import ZArith String Ascii List Lia Bool.
From Stdlib Require Import Floats Uint63.
From stdpp Require Import gmap strings list fin_maps.

Set Warnings "-register-all".
Open Scope string_scope.
Open Scope list_scope.
Open Scope Z_scope.

(* ===================================================================== *)
(** * 1. The C library fragment                                           *)
(* ===================================================================== *)

(** ** Characters *)

Definition char_code (c : ascii) : Z := Z.of_nat (nat_of_ascii c).

Definition is_digit (c : ascii) : bool :=
  (48 <=? char_code c) && (char_code c <=? 57).

Definition digit_val (c : ascii) : Z := char_code c - 48.

Definition digit_char (d : Z) : ascii := ascii_of_nat (Z.to_nat (48 + d)).

(** [isspace] in the C locale: space, and the controls 9..13. *)
Definition is_space (c : ascii) : bool :=
  (char_code c =? 32) || ((9 <=? char_code c) && (char_code c <=? 13)).

(** [tolower] in the C locale. *)
Definition to_lower (c : ascii) : ascii :=
  if (65 <=? char_code c) && (char_code c <=? 90)
  then ascii_of_nat (nat_of_ascii c + 32)
  else c.

(** ** Comparison: the result is [0] exactly when the strings agree, and
    otherwise the difference of the first two differing characters (the end
    of a string counts as the character 0). *)

Fixpoint strcmp (s1 s2 : string) : Z :=
  match s1, s2 with
  | EmptyString, EmptyString => 0
  | EmptyString, String c2 _ => - char_code c2
  | String c1 _, EmptyString => char_code c1
  | String c1 r1, String c2 r2 =>
      if Ascii.eqb c1 c2 then strcmp r1 r2 else char_code c1 - char_code c2
  end.

Fixpoint strncmp (s1 s2 : string) (n : nat) : Z :=
  match n with
  | O => 0
  | S n' =>
      match s1, s2 with
      | EmptyString, EmptyString => 0
      | EmptyString, String c2 _ => - char_code c2
      | String c1 _, EmptyString => char_code c1
      | String c1 r1, String c2 r2 =>
          if Ascii.eqb c1 c2 then strncmp r1 r2 n'
          else char_code c1 - char_code c2
      end
  end.

Fixpoint strcasecmp (s1 s2 : string) : Z :=
  match s1, s2 with
  | EmptyString, EmptyString => 0
  | EmptyString, String c2 _ => - char_code (to_lower c2)
  | String c1 _, EmptyString => char_code (to_lower c1)
  | String c1 r1, String c2 r2 =>
      if Ascii.eqb (to_lower c1) (to_lower c2) then strcasecmp r1 r2
      else char_code (to_lower c1) - char_code (to_lower c2)
  end.

(** ** Bounded copies *)

(** The first [n] characters of [s]. *)
Fixpoint str_take (n : nat) (s : string) : string :=
  match n, s with
  | S n', String c r => String c (str_take n' r)
  | _, _ => EmptyString
  end.

(** [s] without its first [n] characters: the C expression [s + n]. *)
Fixpoint str_drop (n : nat) (s : string) : string :=
  match n, s with
  | S n', String _ r => str_drop n' r
  | _, _ => s
  end.

(** [strncpy(buf, src, max)] into a zero-filled buffer with room for a
    terminator after [max] bytes: the C string left in [buf]. *)
Definition strncpy (max : nat) (src : string) : string := str_take max src.

(** [snprintf(buf, max, "%s", text)]: the value returned (the length of the
    whole text) and the C string left in [buf] ([max - 1] characters at
    most; nothing is stored when [max] is 0). *)
Definition snprintf (max : nat) (text : string) : Z * string :=
  (Z.of_nat (String.length text), str_take (Nat.pred max) text).

(** ** [strtok_r]: the successive tokens of [s], the maximal runs of
    characters other than the delimiter. [cur] is the part of the current
    token read so far. *)

Fixpoint tokens_from (delim : ascii) (s : string) (cur : string) : list string :=
  match s with
  | EmptyString => if String.eqb cur "" then [] else [cur]
  | String c r =>
      if Ascii.eqb c delim
      then (if String.eqb cur "" then tokens_from delim r ""
            else cur :: tokens_from delim r "")
      else tokens_from delim r (cur +:+ String c "")
  end.

Definition strtok_all (delim : ascii) (s : string) : list string :=
  tokens_from delim s "".

(** [strchr(s, c)]: the index of the first [c] in [s]. *)
Fixpoint strchr (s : string) (c : ascii) : option nat :=
  match s with
  | EmptyString => None
  | String d r => if Ascii.eqb d c then Some O else S <$> strchr r c
  end.

(** ** Decimal conversions *)

(** The digits of [n], most significant first; [fuel] bounds their number. *)
Fixpoint utoa_aux (fuel : nat) (n : Z) (acc : string) : string :=
  match fuel with
  | O => acc
  | S fuel' =>
      let acc' := String (digit_char (n mod 10)) acc in
      if n / 10 =? 0 then acc' else utoa_aux fuel' (n / 10) acc'
  end.

(** ["%u"] / ["%lu"] of a non-negative [n]. *)
Definition utoa (n : Z) : string :=
  utoa_aux (S (Z.to_nat (Z.log2 n))) n "".

(** ["%d"] / ["%i"]. *)
Definition itoa (n : Z) : string :=
  if n <? 0 then String "-" (utoa (- n)) else utoa n.

(** The value of the longest prefix of decimal digits of [s], continuing
    from [acc], and the rest of the input. *)
Fixpoint scan_digits (s : string) (acc : Z) : Z * string :=
  match s with
  | String c r =>
      if is_digit c then scan_digits r (10 * acc + digit_val c) else (acc, s)
  | EmptyString => (acc, s)
  end.

Fixpoint skip_space (s : string) : string :=
  match s with
  | String c r => if is_space c then skip_space r else s
  | EmptyString => s
  end.

Definition starts_with_digit (s : string) : bool :=
  match s with
  | String c _ => is_digit c
  | EmptyString => false
  end.

(** An optional sign: whether it is a minus, and the rest. *)
Definition scan_sign (s : string) : bool * string :=
  match s with
  | String c r =>
      if Ascii.eqb c "-" then (true, r)
      else if Ascii.eqb c "+" then (false, r)
      else (false, s)
  | EmptyString => (false, s)
  end.

(** [sscanf(buf, "%u", dest)] ([bits = 32]) and [sscanf(buf, "%lu", dest)]
    ([bits = 64]) as glibc converts on LP64: white space is skipped, the
    digits are converted as [strtoul] does (saturating at [ULONG_MAX],
    negated modulo 2^64 after a minus sign) and the low [bits] bits are
    stored. The result is the value returned ([-1] is [EOF]: the input ended
    before a conversion) and the value stored, if one is. *)
Definition sscanf_unsigned (bits : Z) (buf : string) : Z * option Z :=
  let s := skip_space buf in
  match s with
  | EmptyString => (-1, None)
  | _ =>
      let '(neg, s1) := scan_sign s in
      if starts_with_digit s1 then
        let n := Z.min (fst (scan_digits s1 0)) (2 ^ 64 - 1) in
        let n := if neg then (2 ^ 64 - n) mod 2 ^ 64 else n in
        (1, Some (n mod 2 ^ bits))
      else (0, None)
  end.

Definition UINT_MAX : Z := 2 ^ 32 - 1.
Definition ULONG_MAX : Z := 2 ^ 64 - 1.

(** ["%i"]: the digits of a numeral in base 8, 10 or 16. *)
Definition hex_digit_val (c : ascii) : option Z :=
  let n := char_code c in
  if (48 <=? n) && (n <=? 57) then Some (n - 48)
  else if (97 <=? n) && (n <=? 102) then Some (n - 87)
  else if (65 <=? n) && (n <=? 70) then Some (n - 55)
  else None.

Definition base_digit (base : Z) (c : ascii) : option Z :=
  match hex_digit_val c with
  | Some d => if d <? base then Some d else None
  | None => None
  end.

Fixpoint scan_base (base : Z) (s : string) (acc : Z) : Z * string :=
  match s with
  | String c r =>
      match base_digit base c with
      | Some d => scan_base base r (base * acc + d)
      | None => (acc, s)
      end
  | EmptyString => (acc, s)
  end.

Definition starts_with_base_digit (base : Z) (s : string) : bool :=
  match s with
  | String c _ => match base_digit base c with Some _ => true | None => false end
  | EmptyString => false
  end.

(** The 32-bit two's complement reading of an integer. *)
Definition to_int32 (n : Z) : Z := (n + 2 ^ 31) mod 2 ^ 32 - 2 ^ 31.

(** Whether [s] opens with [0x] or [0X] and a hexadecimal digit, and
    whether it opens with the digit [0]. *)
Definition has_hex_prefix (s : string) : bool :=
  match s with
  | String c (String x r) =>
      Ascii.eqb c "0" && (Ascii.eqb x "x" || Ascii.eqb x "X") &&
      starts_with_base_digit 16 r
  | _ => false
  end.

Definition starts_with_zero (s : string) : bool :=
  match s with
  | String c _ => Ascii.eqb c "0"
  | EmptyString => false
  end.

(** [sscanf(buf, "%i", dest)] as glibc converts on LP64: the numeral is read
    as [strtol] with base 0 does (a [0x] prefix selects base 16, a leading
    [0] base 8), saturating at [LONG_MIN] and [LONG_MAX], and the low 32 bits
    are stored. *)
Definition sscanf_i (buf : string) : Z * option Z :=
  let s := skip_space buf in
  match s with
  | EmptyString => (-1, None)
  | _ =>
      let '(neg, s1) := scan_sign s in
      let magnitude :=
        if has_hex_prefix s1 then Some (fst (scan_base 16 (str_drop 2 s1) 0))
        else if starts_with_zero s1 then Some (fst (scan_base 8 s1 0))
        else if starts_with_digit s1 then Some (fst (scan_base 10 s1 0))
        else None in
      match magnitude with
      | None => (0, None)
      | Some n =>
          let v := if neg then Z.max (- n) (- 2 ^ 63) else Z.min n (2 ^ 63 - 1) in
          (1, Some (to_int32 v))
      end
  end.

(** ** Binary64 conversions *)

(** The double nearest to [num / den] (ties to even), negated when [neg],
    for [0 <= num] and [0 < den]: what [strtod] returns for a numeral of
    that value. The quotient is taken with 1074 extra binary digits, below
    the smallest subnormal, and the remainder gives the rounding
    direction. *)
Definition ratio_to_double (neg : bool) (num den : Z) : float :=
  if num =? 0 then (if neg then neg_zero else zero)
  else
    let n := num * 2 ^ 1074 in
    let q := n / den in
    let r := n mod den in
    let loc := if r =? 0 then loc_Exact else loc_Inexact (2 * r ?= den) in
    SF2Prim (binary_round_aux prec emax neg q (-1074) loc).

(** The double nearest to [m / 10^k]: the decimal numeral with digits [m]
    and [k] digits after the point. *)
Definition decimal_to_double (neg : bool) (m : Z) (k : nat) : float :=
  ratio_to_double neg m (10 ^ Z.of_nat k).

(** The double nearest to [m * base^e]. *)
Definition scaled_to_double (neg : bool) (m base e : Z) : float :=
  if 0 <=? e then ratio_to_double neg (m * base ^ e) 1
  else ratio_to_double neg m (base ^ (- e)).

(** Whether [s] opens with the lower-case text [p], whatever the case of
    its letters. *)
Fixpoint starts_with_nocase (p s : string) : bool :=
  match p, s with
  | EmptyString, _ => true
  | String a p', String b s' => Ascii.eqb a (to_lower b) && starts_with_nocase p' s'
  | String _ _, EmptyString => false
  end.

(** The exponent that follows the digits of a numeral: the marker ([e] or
    [p], in either case), an optional sign and decimal digits. Without the
    marker, and with a marker that no digit follows, the exponent is 0:
    glibc takes the marker and the sign from the input, and [strtod]
    converts the numeral before them. *)
Definition scan_exponent (marker : ascii) (s : string) : Z :=
  match s with
  | String c r =>
      if Ascii.eqb (to_lower c) marker then
        let '(neg, r1) := scan_sign r in
        let e := fst (scan_digits r1 0) in
        if neg then - e else e
      else 0
  | EmptyString => 0
  end.

(** The decimal numeral at the head of [s1]: digits with at most one point
    and at least one digit, and an exponent. *)
Definition scan_decimal_float (neg : bool) (s1 : string) : Z * option float :=
  let '(ip, s2) := scan_digits s1 0 in
  match s2 with
  | String "." r =>
      let '(m, s3) := scan_digits r ip in
      let k := Z.of_nat (String.length r - String.length s3) in
      if starts_with_digit s1 || starts_with_digit r
      then (1, Some (scaled_to_double neg m 10 (scan_exponent "e" s3 - k)))
      else (0, None)
  | _ =>
      if starts_with_digit s1
      then (1, Some (scaled_to_double neg ip 10 (scan_exponent "e" s2)))
      else (0, None)
  end.

(** The hexadecimal numeral that follows [0x]: hexadecimal digits with at
    most one point, and a binary exponent after [p]. With no digit, glibc
    fails when nothing follows [0x], and converts the [0] before the [x]
    when a point follows. *)
Definition scan_hex_float (neg : bool) (h : string) : Z * option float :=
  let '(ip, h2) := scan_base 16 h 0 in
  match h2 with
  | String "." r =>
      let '(m, h3) := scan_base 16 r ip in
      let k := Z.of_nat (String.length r - String.length h3) in
      if starts_with_base_digit 16 h || starts_with_base_digit 16 r
      then (1, Some (scaled_to_double neg m 2 (scan_exponent "p" h3 - 4 * k)))
      else (1, Some (if neg then neg_zero else zero))
  | _ =>
      if starts_with_base_digit 16 h
      then (1, Some (scaled_to_double neg ip 2 (scan_exponent "p" h2)))
      else (0, None)
  end.

(** [sscanf(buf, "%lf", dest)] as glibc converts: white space is skipped
    and a sign is taken; [nan] and [inf] or [infinity] are read in either
    case ([inf] followed by an [i] has to be [infinity]); [0x] opens a
    hexadecimal numeral; anything else is read as a decimal numeral. The
    characters taken are converted as [strtod] does, to the nearest
    double. A NaN has no sign in the model. *)
Definition sscanf_lf (buf : string) : Z * option float :=
  let s := skip_space buf in
  match s with
  | EmptyString => (-1, None)
  | _ =>
      let '(neg, s1) := scan_sign s in
      if starts_with_nocase "n" s1 then
        if starts_with_nocase "nan" s1 then (1, Some nan) else (0, None)
      else if starts_with_nocase "i" s1 then
        if starts_with_nocase "inf" s1 &&
           (negb (starts_with_nocase "i" (str_drop 3 s1)) ||
            starts_with_nocase "inity" (str_drop 3 s1))
        then (1, Some (if neg then neg_infinity else infinity))
        else (0, None)
      else if starts_with_nocase "0x" s1 then scan_hex_float neg (str_drop 2 s1)
      else scan_decimal_float neg s1
  end.

(** [n] written with at least [width] digits. *)
Definition utoa_pad (width : nat) (n : Z) : string :=
  let d := utoa n in
  string_of_list_ascii
    (repeat "0"%char (width - String.length d)) +:+ d.

(** The integer nearest to [m * 2^e * 1000], ties to even. *)
Definition round_milli (m : positive) (e : Z) : Z :=
  if 0 <=? e then Z.pos m * 2 ^ e * 1000
  else
    let num := Z.pos m * 1000 in
    let den := 2 ^ (- e) in
    let q := num / den in
    let r := num mod den in
    match 2 * r ?= den with
    | Lt => q
    | Gt => q + 1
    | Eq => if Z.even q then q else q + 1
    end.

(** ["%.3f"]: the exact value of the double rounded to three decimals. *)
Definition ftoa3 (d : float) : string :=
  match Prim2SF d with
  | S754_nan => "nan"
  | S754_infinity s => if s then "-inf" else "inf"
  | S754_zero s => if s then "-0.000" else "0.000"
  | S754_finite s m e =>
      let n := round_milli m e in
      (if s then "-" else "") +:+ utoa (n / 1000) +:+ "." +:+ utoa_pad 3 (n mod 1000)
  end.

(* ===================================================================== *)
(** * 2. Values, status codes and the parser table                        *)
(* ===================================================================== *)

Inductive ucs_status_t :=
| UCS_OK
| UCS_ERR_NO_ELEM
| UCS_ERR_INVALID_PARAM
| UCS_ERR_NO_MEMORY
| UCS_ERR_IO_ERROR.

Definition status_eqb (a b : ucs_status_t) : bool :=
  match a, b with
  | UCS_OK, UCS_OK
  | UCS_ERR_NO_ELEM, UCS_ERR_NO_ELEM
  | UCS_ERR_INVALID_PARAM, UCS_ERR_INVALID_PARAM
  | UCS_ERR_NO_MEMORY, UCS_ERR_NO_MEMORY
  | UCS_ERR_IO_ERROR, UCS_ERR_IO_ERROR => true
  | _, _ => false
  end.

(** What a slot of the option structure holds. *)
Inductive value :=
| VInt (z : Z)                     (* int, unsigned, unsigned long, enum index *)
| VStr (s : string)                (* char*: a heap string owned by the slot *)
| VDouble (d : float)              (* double *)
| VRange (first last : Z)          (* ucs_range_spec_t *)
| VArray (elems : list value)      (* { data, count }: count = length elems *)
| VZero.                           (* bytes zeroed by calloc, never written *)

(** A slot read as an integer, as a string, as a double. A slot that holds
    nothing of the kind reads as zero bytes. *)
Definition slot_int (o : option value) : Z :=
  match o with Some (VInt z) => z | _ => 0 end.

Definition slot_str (o : option value) : string :=
  match o with Some (VStr s) => s | _ => "" end.

Definition slot_double (o : option value) : float :=
  match o with Some (VDouble d) => d | _ => zero end.

(** [ucs_config_parser_t]: the operations of a parser, closed over its
    argument.
    - [read buf dest]: the value returned by the C function (1 on success)
      and the content of [*dest] afterwards, given its content before;
    - [write max src]: the value returned and the C string left in the
      buffer of [max] bytes;
    - [release slot]: the content of the slot once its resources are freed
      ([None]: the slot holds nothing any more). *)
Record ucs_config_parser_t := {
  read : string -> option value -> Z * option value;
  write : nat -> option value -> Z * string;
  release : option value -> option value
}.

Definition ucs_config_release_nop (slot : option value) : option value := slot.

(* ===================================================================== *)
(** * 3. Type parsers                                                     *)
(* ===================================================================== *)

(** Modelled from the spec: the literals [UCS_NUMERIC_INF_STR] and
    [UCS_VALUE_AUTO_STR] are defined in a header outside the sources; the
    spec gives them as [inf] and [auto]. *)
Definition UCS_NUMERIC_INF_STR : string := "inf".
Definition UCS_VALUE_AUTO_STR : string := "auto".

(** Modelled from the spec: the enumeration of ternary values is declared
    in a header outside the sources. The source asserts [UCS_NO = 0] and
    [UCS_YES = 1]; [UCS_TRY] and [UCS_AUTO] are the two values that follow. *)
Definition UCS_NO : Z := 0.
Definition UCS_YES : Z := 1.
Definition UCS_TRY : Z := 2.
Definition UCS_AUTO : Z := 3.

(** Modelled from the spec: the on/off/auto enumeration is declared in a
    header outside the sources, in the order off, on, auto. *)
Definition UCS_CONFIG_OFF : Z := 0.
Definition UCS_CONFIG_ON : Z := 1.
Definition UCS_CONFIG_AUTO : Z := 2.

(** Modelled from the spec: the sentinels of the unsigned long units are
    defined in a header outside the sources, as the two largest values. *)
Definition UCS_ULUNITS_INF : Z := ULONG_MAX.
Definition UCS_ULUNITS_AUTO : Z := ULONG_MAX - 1.

(** Modelled from the spec: the sentinel [UCS_CONFIG_DBL_AUTO] is defined in
    a header outside the sources; it is taken as [-2], outside the positive
    values, and [UCS_CONFIG_DBL_IS_AUTO] as the comparison with it. *)
Definition UCS_CONFIG_DBL_AUTO : float := (-2)%float.
Definition UCS_CONFIG_DBL_IS_AUTO (d : float) : bool :=
  PrimFloat.eqb d UCS_CONFIG_DBL_AUTO.

(** Modelled from the spec: [UCS_CONFIG_UINT_ENUM_INDEX] is a macro of a
    header outside the sources; the spec describes it as an index offset
    from a large sentinel, here counted down from [UINT_MAX]. *)
Definition UCS_CONFIG_UINT_ENUM_INDEX (i : Z) : Z := (UINT_MAX - i) mod 2 ^ 32.

(** Modelled from the spec: [UCS_BIT(i)] is a macro of a header outside the
    sources, the unsigned long with only bit [i] set; the shift count is
    taken modulo 64 as the processor does. *)
Definition UCS_BIT (i : Z) : Z := 2 ^ (i mod 64).

(** ** String *)

Definition ucs_config_sscanf_string (buf : string) (dest : option value)
  : Z * option value :=
  (1, Some (VStr buf)).

Definition ucs_config_sprintf_string (max : nat) (src : option value)
  : Z * string :=
  (1, strncpy max (slot_str src)).

Definition ucs_config_release_string (slot : option value) : option value :=
  None.

(** ** Signed and unsigned integers *)

Definition store_int (r : Z * option Z) (dest : option value)
  : Z * option value :=
  match snd r with
  | Some z => (fst r, Some (VInt z))
  | None => (fst r, dest)
  end.

Definition ucs_config_sscanf_int (buf : string) (dest : option value)
  : Z * option value :=
  store_int (sscanf_i buf) dest.

Definition ucs_config_sprintf_int (max : nat) (src : option value)
  : Z * string :=
  snprintf max (itoa (to_int32 (slot_int src))).

Definition ucs_config_sscanf_uint (buf : string) (dest : option value)
  : Z * option value :=
  if strcasecmp buf UCS_NUMERIC_INF_STR =? 0 then (1, Some (VInt UINT_MAX))
  else store_int (sscanf_unsigned 32 buf) dest.

Definition ucs_config_sprintf_uint (max : nat) (src : option value)
  : Z * string :=
  let value := slot_int src in
  if value =? UINT_MAX
  then (1, snd (snprintf max UCS_NUMERIC_INF_STR))
  else snprintf max (utoa value).

Definition ucs_config_sscanf_ulong (buf : string) (dest : option value)
  : Z * option value :=
  store_int (sscanf_unsigned 64 buf) dest.

Definition ucs_config_sprintf_ulong (max : nat) (src : option value)
  : Z * string :=
  snprintf max (utoa (slot_int src)).

(** ** Unsigned long units *)

Definition ucs_config_sscanf_ulunits (buf : string) (dest : option value)
  : Z * option value :=
  if strcasecmp buf UCS_VALUE_AUTO_STR =? 0 then (1, Some (VInt UCS_ULUNITS_AUTO))
  else if strcasecmp buf UCS_NUMERIC_INF_STR =? 0 then (1, Some (VInt UCS_ULUNITS_INF))
  else ucs_config_sscanf_ulong buf dest.

Definition ucs_config_sprintf_ulunits (max : nat) (src : option value)
  : Z * string :=
  let val := slot_int src in
  if val =? UCS_ULUNITS_AUTO then snprintf max UCS_VALUE_AUTO_STR
  else if val =? UCS_ULUNITS_INF then snprintf max UCS_NUMERIC_INF_STR
  else ucs_config_sprintf_ulong max src.

(** ** Booleans and ternaries *)

Definition ucs_config_sscanf_bool (buf : string) (dest : option value)
  : Z * option value :=
  if (strcasecmp buf "y" =? 0) || (strcasecmp buf "yes" =? 0) ||
     (strcmp buf "on" =? 0) || (strcmp buf "1" =? 0)
  then (1, Some (VInt 1))
  else if (strcasecmp buf "n" =? 0) || (strcasecmp buf "no" =? 0) ||
          (strcmp buf "off" =? 0) || (strcmp buf "0" =? 0)
  then (1, Some (VInt 0))
  else (0, dest).

Definition ucs_config_sprintf_bool (max : nat) (src : option value)
  : Z * string :=
  snprintf max (if slot_int src =? 0 then "n" else "y").

Definition ucs_config_sscanf_ternary (buf : string) (dest : option value)
  : Z * option value :=
  if (strcasecmp buf "try" =? 0) || (strcasecmp buf "maybe" =? 0)
  then (1, Some (VInt UCS_TRY))
  else ucs_config_sscanf_bool buf dest.

Definition ucs_config_sscanf_ternary_auto (buf : string) (dest : option value)
  : Z * option value :=
  if strcasecmp buf UCS_VALUE_AUTO_STR =? 0 then (1, Some (VInt UCS_AUTO))
  else ucs_config_sscanf_ternary buf dest.

Definition ucs_config_sprintf_ternary_auto (max : nat) (src : option value)
  : Z * string :=
  if slot_int src =? UCS_AUTO then snprintf max UCS_VALUE_AUTO_STR
  else if slot_int src =? UCS_TRY then snprintf max "try"
  else ucs_config_sprintf_bool max src.

Definition ucs_config_sscanf_on_off (buf : string) (dest : option value)
  : Z * option value :=
  if (strcasecmp buf "on" =? 0) || (strcmp buf "1" =? 0) ||
     (strcasecmp buf "yes" =? 0) || (strcasecmp buf "y" =? 0)
  then (1, Some (VInt UCS_CONFIG_ON))
  else if (strcasecmp buf "off" =? 0) || (strcmp buf "0" =? 0) ||
          (strcasecmp buf "no" =? 0) || (strcasecmp buf "n" =? 0)
  then (1, Some (VInt UCS_CONFIG_OFF))
  else (0, dest).

Definition ucs_config_sscanf_on_off_auto (buf : string) (dest : option value)
  : Z * option value :=
  if (strcasecmp buf "try" =? 0) || (strcasecmp buf "maybe" =? 0) ||
     (strcasecmp buf "auto" =? 0)
  then (1, Some (VInt UCS_CONFIG_AUTO))
  else ucs_config_sscanf_on_off buf dest.

Definition ucs_config_sprintf_on_off_auto (max : nat) (src : option value)
  : Z * string :=
  let v := slot_int src in
  if v =? UCS_CONFIG_AUTO then snprintf max "auto"
  else if v =? UCS_CONFIG_ON then snprintf max "on"
  else if v =? UCS_CONFIG_OFF then snprintf max "off"
  else snprintf max (itoa (to_int32 v)).

(** ** Enumerations *)

(** Modelled from the spec: [ucs_string_find_in_list] is a helper defined
    outside the sources. The spec describes the enum lookup as a linear
    search in the name table whose result is the index; the parsers call it
    with [case_sensitive = 0], so the names are compared with [strcasecmp].
    The result is [-1] when no name matches. *)
Fixpoint ucs_string_find_in_list (str : string) (string_list : list string)
  (i : Z) : Z :=
  match string_list with
  | [] => -1
  | name :: rest =>
      if strcasecmp name str =? 0 then i
      else ucs_string_find_in_list str rest (i + 1)
  end.

(** [table[i]]; an index outside the table reads as the empty string. *)
Definition table_name (table : list string) (i : Z) : string :=
  if i <? 0 then "" else nth (Z.to_nat i) table "".

Definition ucs_config_sscanf_enum (arg : list string) (buf : string)
  (dest : option value) : Z * option value :=
  let i := ucs_string_find_in_list buf arg 0 in
  if i <? 0 then (0, dest) else (1, Some (VInt i)).

Definition ucs_config_sprintf_enum (arg : list string) (max : nat)
  (src : option value) : Z * string :=
  (1, strncpy max (table_name arg (slot_int src))).

Definition ucs_config_sscanf_uint_enum (arg : list string) (buf : string)
  (dest : option value) : Z * option value :=
  let i := ucs_string_find_in_list buf arg 0 in
  if 0 <=? i then (1, Some (VInt (UCS_CONFIG_UINT_ENUM_INDEX i)))
  else store_int (sscanf_unsigned 32 buf) dest.

Definition ucs_config_sprintf_uint_enum (arg : list string) (max : nat)
  (src : option value) : Z * string :=
  let table_size := Z.of_nat (length arg) in
  let value := slot_int src in
  if UCS_CONFIG_UINT_ENUM_INDEX table_size <? value
  then (1, strncpy max (table_name arg (UCS_CONFIG_UINT_ENUM_INDEX value)))
  else snprintf max (utoa value).

(** ** Bitmask *)

(** [__builtin_popcount] of a 32-bit value; [fuel] counts the bits left. *)
Fixpoint popcount_aux (fuel : nat) (n : Z) : Z :=
  match fuel with
  | O => 0
  | S fuel' => n mod 2 + popcount_aux fuel' (n / 2)
  end.

Definition popcount (n : Z) : Z := popcount_aux 32 (n mod 2 ^ 32).

(** The conversion stores into [*dest] when it matches; the mask is then
    computed from whatever [*dest] holds, also after a failed match. *)
Definition ucs_config_sscanf_bitmask (buf : string) (dest : option value)
  : Z * option value :=
  let '(ret, dest1) := store_int (sscanf_unsigned 32 buf) dest in
  let n := slot_int dest1 in
  if n =? 0 then (ret, dest1)
  else (ret, Some (VInt ((UCS_BIT n - 1) mod 2 ^ 32))).

Definition ucs_config_sprintf_bitmask (max : nat) (src : option value)
  : Z * string :=
  snprintf max (utoa (popcount (slot_int src))).

(** ** Doubles *)

Definition ucs_config_sscanf_double (buf : string) (dest : option value)
  : Z * option value :=
  match sscanf_lf buf with
  | (ret, Some d) => (ret, Some (VDouble d))
  | (ret, None) => (ret, dest)
  end.

Definition ucs_config_sprintf_double (max : nat) (src : option value)
  : Z * string :=
  snprintf max (ftoa3 (slot_double src)).

(** [sscanf_double(...) && (value > 0)]: the conjunction is 1 or 0, and the
    value converted stays in [*dest] when the test fails. *)
Definition ucs_config_sscanf_pos_double (buf : string) (dest : option value)
  : Z * option value :=
  if strcasecmp buf UCS_VALUE_AUTO_STR =? 0
  then (1, Some (VDouble UCS_CONFIG_DBL_AUTO))
  else
    let '(ret, dest1) := ucs_config_sscanf_double buf dest in
    if negb (ret =? 0) && PrimFloat.ltb zero (slot_double dest1)
    then (1, dest1) else (0, dest1).

Definition ucs_config_sprintf_pos_double (max : nat) (src : option value)
  : Z * string :=
  if UCS_CONFIG_DBL_IS_AUTO (slot_double src)
  then (1, snd (snprintf max UCS_VALUE_AUTO_STR))
  else ucs_config_sprintf_double max src.

(** ** Range specification: [<first>[-<last>]] *)

Definition ucs_config_sscanf_range_spec (buf : string) (dest : option value)
  : Z * option value :=
  match strchr buf "-" with
  | None =>
      match sscanf_unsigned 32 buf with
      | (1, Some first) => (1, Some (VRange first first))
      | _ => (0, dest)
      end
  | Some p =>
      match sscanf_unsigned 32 (str_take p buf),
            sscanf_unsigned 32 (str_drop (S p) buf) with
      | (1, Some first), (1, Some last) => (1, Some (VRange first last))
      | _, _ => (0, dest)
      end
  end.

(** The bounds are unsigned and printed with ["%d"]. *)
Definition ucs_config_sprintf_range_spec (max : nat) (src : option value)
  : Z * string :=
  match src with
  | Some (VRange first last) =>
      if first =? last then (1, snd (snprintf max (itoa (to_int32 first))))
      else (1, snd (snprintf max (itoa (to_int32 first) +:+ "-" +:+
                                  itoa (to_int32 last))))
  | _ => (1, snd (snprintf max "0"))
  end.

(* ===================================================================== *)
(** * 4. Composite parsers: arrays                                        *)
(* ===================================================================== *)

(** [ucs_config_array_t]: the element parser of an array field. The byte
    size of an element plays no part once the elements are a list. *)
Record ucs_config_array_t := { elem_parser : ucs_config_parser_t }.

(** The loop of [ucs_config_sscanf_array] over the tokens that [strtok_r]
    yields: [i] elements are stored in [temp_field] so far. [None] is the
    early [return 0], which frees the block. An element slot is zeroed by
    [calloc] before its token is read. *)
Fixpoint sscanf_array_loop (array_max : nat) (array : ucs_config_array_t)
  (toks : list string) (i : nat) (temp_field : list value)
  : option (list value) :=
  match toks with
  | [] => Some temp_field
  | token :: rest =>
      let '(ret, slot) := read (elem_parser array) token (Some VZero) in
      if ret =? 0 then None
      else
        let temp_field' := temp_field ++ [default VZero slot] in
        if (array_max <=? S i)%nat then Some temp_field'
        else sscanf_array_loop array_max array rest (S i) temp_field'
  end.

Definition ucs_config_sscanf_array (array_max : nat) (array : ucs_config_array_t)
  (buf : string) (dest : option value) : Z * option value :=
  match sscanf_array_loop array_max array (strtok_all "," buf) 0 [] with
  | None => (0, dest)
  | Some temp_field => (1, Some (VArray temp_field))
  end.

Definition array_elems (src : option value) : list value :=
  match src with Some (VArray l) => l | _ => [] end.

(** [field->count] of an array slot. *)
Definition array_count (src : option value) : nat := length (array_elems src).

(** The loop of [ucs_config_sprintf_array]: [buf] is the text written so
    far, whose length is [offset]. *)
Fixpoint sprintf_array_loop (array : ucs_config_array_t) (max : nat)
  (elems : list value) (i : nat) (buf : string) : Z * string :=
  match elems with
  | [] => (1, buf)
  | e :: rest =>
      let buf1 :=
        if (0 <? i)%nat && (String.length buf <? max)%nat
        then buf +:+ "," else buf in
      let '(ret, text) :=
        write (elem_parser array) (max - String.length buf1) (Some e) in
      if ret =? 0 then (0, buf1 +:+ text)
      else sprintf_array_loop array max rest (S i) (buf1 +:+ text)
  end.

(** [ucs_config_sprintf_array]. [old] is the C string that the buffer of
    the caller holds on entry: for an array without elements the loop does
    not run and nothing is stored, not even a terminator, so the buffer
    holds [old] on return. The first element is written at the start of
    the buffer. *)
Definition ucs_config_sprintf_array (array : ucs_config_array_t)
  (old : string) (max : nat) (src : option value) : Z * string :=
  match array_elems src with
  | [] => (1, old)
  | elems => sprintf_array_loop array max elems 0 ""
  end.

(** Every element is released, then the block is freed. *)
Definition ucs_config_release_array (array : ucs_config_array_t)
  (slot : option value) : option value :=
  None.

(** ** The parser tables *)

(** Modelled from the spec: the [UCS_CONFIG_TYPE_*] initialisers, which pair
    the read, write and release functions of a type, are macros of a header
    outside the sources; each pairs the functions of the same name, and the
    ternary types share the ternary-auto writer. *)
Definition config_type (rd : string -> option value -> Z * option value)
  (wr : nat -> option value -> Z * string) : ucs_config_parser_t :=
  {| read := rd; write := wr; release := ucs_config_release_nop |}.

Definition UCS_CONFIG_TYPE_STRING : ucs_config_parser_t :=
  {| read := ucs_config_sscanf_string;
     write := ucs_config_sprintf_string;
     release := ucs_config_release_string |}.

Definition UCS_CONFIG_TYPE_INT :=
  config_type ucs_config_sscanf_int ucs_config_sprintf_int.
Definition UCS_CONFIG_TYPE_UINT :=
  config_type ucs_config_sscanf_uint ucs_config_sprintf_uint.
Definition UCS_CONFIG_TYPE_ULONG :=
  config_type ucs_config_sscanf_ulong ucs_config_sprintf_ulong.
Definition UCS_CONFIG_TYPE_ULUNITS :=
  config_type ucs_config_sscanf_ulunits ucs_config_sprintf_ulunits.
Definition UCS_CONFIG_TYPE_BOOL :=
  config_type ucs_config_sscanf_bool ucs_config_sprintf_bool.
Definition UCS_CONFIG_TYPE_TERNARY :=
  config_type ucs_config_sscanf_ternary ucs_config_sprintf_ternary_auto.
Definition UCS_CONFIG_TYPE_TERNARY_AUTO :=
  config_type ucs_config_sscanf_ternary_auto ucs_config_sprintf_ternary_auto.
Definition UCS_CONFIG_TYPE_ON_OFF :=
  config_type ucs_config_sscanf_on_off ucs_config_sprintf_on_off_auto.
Definition UCS_CONFIG_TYPE_ON_OFF_AUTO :=
  config_type ucs_config_sscanf_on_off_auto ucs_config_sprintf_on_off_auto.
Definition UCS_CONFIG_TYPE_ENUM (t : list string) :=
  config_type (ucs_config_sscanf_enum t) (ucs_config_sprintf_enum t).
Definition UCS_CONFIG_TYPE_UINT_ENUM (t : list string) :=
  config_type (ucs_config_sscanf_uint_enum t) (ucs_config_sprintf_uint_enum t).
Definition UCS_CONFIG_TYPE_BITMASK :=
  config_type ucs_config_sscanf_bitmask ucs_config_sprintf_bitmask.
Definition UCS_CONFIG_TYPE_DOUBLE :=
  config_type ucs_config_sscanf_double ucs_config_sprintf_double.
Definition UCS_CONFIG_TYPE_POS_DOUBLE :=
  config_type ucs_config_sscanf_pos_double ucs_config_sprintf_pos_double.
Definition UCS_CONFIG_TYPE_RANGE_SPEC :=
  config_type ucs_config_sscanf_range_spec ucs_config_sprintf_range_spec.

(** The writer of an array is the only one that can leave the buffer as
    it is; the [write] of the table is the writer on a buffer that holds
    the empty string. *)
Definition UCS_CONFIG_TYPE_ARRAY (array_max : nat) (a : ucs_config_array_t)
  : ucs_config_parser_t :=
  {| read := ucs_config_sscanf_array array_max a;
     write := ucs_config_sprintf_array a "";
     release := ucs_config_release_array a |}.

(** Modelled from the spec: the indices of [ucs_async_mode_names] are the
    constants [UCS_ASYNC_MODE_*] of a header outside the sources; the names
    stand in the order of the initialiser, which is the order the spec
    gives. *)
Definition ucs_async_mode_names : list string :=
  ["signal"; "thread_spinlock"; "thread_mutex"; "poll"].

(* ===================================================================== *)
(** * 5. Field descriptors and the option structure                       *)
(* ===================================================================== *)

(** [ucs_config_field_t]. A field whose parser is the table parser
    ([parser.read == ucs_config_sscanf_table]) carries the field list of
    the sub-table as the parser argument; any other field carries its own
    parser. A field list is the sequence before the terminating entry. *)
Inductive ucs_config_field_t :=
| Field (name : string) (dfl_value : option string) (offset : Z)
        (parser : ucs_config_parser_t)
| Table (name : string) (dfl_value : option string) (offset : Z)
        (sub_fields : list ucs_config_field_t).

Definition field_name (f : ucs_config_field_t) : string :=
  match f with Field n _ _ _ | Table n _ _ _ => n end.

Definition field_dfl_value (f : ucs_config_field_t) : option string :=
  match f with Field _ d _ _ | Table _ d _ _ => d end.

Definition field_offset (f : ucs_config_field_t) : Z :=
  match f with Field _ _ o _ | Table _ _ o _ => o end.

(** Modelled from the spec: [UCS_CONFIG_DEPRECATED_FIELD_OFFSET] is defined
    in a header outside the sources; a deprecated field is the one whose
    offset is this marker, the largest [size_t]. *)
Definition UCS_CONFIG_DEPRECATED_FIELD_OFFSET : Z := 2 ^ 64 - 1.

Definition ucs_config_is_deprecated_field (f : ucs_config_field_t) : bool :=
  field_offset f =? UCS_CONFIG_DEPRECATED_FIELD_OFFSET.

Definition ucs_config_is_alias_field (f : ucs_config_field_t) : bool :=
  match field_dfl_value f with None => true | Some _ => false end.

Definition ucs_config_is_table_field (f : ucs_config_field_t) : bool :=
  match f with Table _ _ _ _ => true | Field _ _ _ _ => false end.

(** The option structure: the value held at each byte offset. A sub-table
    at offset [o] of a structure at [opts] is the structure at [opts + o]. *)
Abbreviation opts_t := (gmap Z value).

(** [*var = slot]. *)
Definition store_slot (var : Z) (slot : option value) (m : opts_t) : opts_t :=
  match slot with
  | Some v => <[var := v]> m
  | None => delete var m
  end.

(** [field->parser.read(value, var, arg)] and the status derived from it,
    for a field that is not a table. *)
Definition parse_with (p : ucs_config_parser_t) (value : string) (var : Z)
  (m : opts_t) : ucs_status_t * opts_t :=
  let '(ret, slot) := read p value (m !! var) in
  (if ret =? 1 then UCS_OK else UCS_ERR_INVALID_PARAM, store_slot var slot m).

(** [field->parser.release(var, arg)] for a field that is not a table. *)
Definition release_with (p : ucs_config_parser_t) (var : Z) (m : opts_t)
  : opts_t :=
  store_slot var (release p (m !! var)) m.

(* ===================================================================== *)
(** * 6. The field resolver                                               *)
(* ===================================================================== *)

(** [fnmatch] is the C library's: the development takes it as a function
    [fnmatch pattern string] whose result is 0 on a match. *)
Definition fnmatch_t := string -> string -> Z.

Definition ucs_config_prefix_name_match (fnmatch : fnmatch_t)
  (prefix : option string) (prefix_len : nat) (name pattern : string) : bool :=
  let match_name :=
    if (prefix_len =? 0)%nat then name
    else default "" prefix +:+ name in
  fnmatch pattern match_name =? 0.

(** One iteration of a loop over a field list: either the loop goes on
    with a new match count, or the function returns. *)
Inductive iteration :=
| Next (count : nat) (m : opts_t)
| Return (status : ucs_status_t) (m : opts_t).

Definition prefix_length (table_prefix : option string) : nat :=
  match table_prefix with None => O | Some p => String.length p end.

(** The handling of a field that is not a table, in
    [ucs_config_parser_set_value_internal]. The buffer of the backup has
    256 bytes, of which the writer may use 255. The assertions on the
    result of the writer and of the restore are not part of the model. *)
Definition set_value_field (fnmatch : fnmatch_t) (opts : Z)
  (fname : string) (off : Z) (p : ucs_config_parser_t)
  (name value : string) (table_prefix : option string)
  (count : nat) (m : opts_t) : iteration :=
  let var := opts + off in
  if ucs_config_prefix_name_match fnmatch table_prefix
       (prefix_length table_prefix) fname name
  then
    if off =? UCS_CONFIG_DEPRECATED_FIELD_OFFSET
    then Return UCS_ERR_NO_ELEM m
    else
      let '(ret, value_buf) := write p 255 (m !! var) in
      let m1 := release_with p var m in
      let '(status, m2) := parse_with p value var m1 in
      if status_eqb status UCS_OK then Next (S count) m2
      else
        let '(status_restore, m3) := parse_with p value_buf var m2 in
        Return status m3
  else Next count m.

(** The result of a recursive call on a sub-table, inside the loop. *)
Definition after_sub (r : ucs_status_t * opts_t) (count : nat) : iteration :=
  match r with
  | (UCS_OK, m) => Next (S count) m
  | (UCS_ERR_NO_ELEM, m) => Next count m
  | (status, m) => Return status m
  end.

Definition loop_end (count : nat) (m : opts_t) : ucs_status_t * opts_t :=
  (if (count =? 0)%nat then UCS_ERR_NO_ELEM else UCS_OK, m).

(** The loop of [ucs_config_parser_set_value_internal] over [fields], with
    [step] for its body. *)
Fixpoint set_value_loop
  (step : ucs_config_field_t -> nat -> opts_t -> iteration)
  (fields : list ucs_config_field_t) (count : nat) (m : opts_t)
  : ucs_status_t * opts_t :=
  match fields with
  | [] => loop_end count m
  | f :: rest =>
      match step f count m with
      | Next c m' => set_value_loop step rest c m'
      | Return status m' => (status, m')
      end
  end.

(** The body of the loop for the field [f]; [sub] is the recursive call of
    [ucs_config_parser_set_value_internal] on the sub-table. *)
Fixpoint set_value_step (fnmatch : fnmatch_t) (opts : Z) (name value : string)
  (table_prefix : option string) (recurse : bool)
  (f : ucs_config_field_t) (count : nat) (m : opts_t) {struct f} : iteration :=
  match f with
  | Table fname _ off sub_fields =>
      let var := opts + off in
      let sub := fun (table_prefix' : option string) (recurse' : bool)
                     (m' : opts_t) =>
        set_value_loop
          (set_value_step fnmatch var name value table_prefix' recurse')
          sub_fields O m' in
      let with_sub_prefix :=
        if recurse then after_sub (sub (Some fname) true m) count
        else Next count m in
      match with_sub_prefix with
      | Return status m1 => Return status m1
      | Next count1 m1 =>
          match table_prefix with
          | Some _ => after_sub (sub table_prefix false m1) count1
          | None => Next count1 m1
          end
      end
  | Field fname _ off p =>
      set_value_field fnmatch opts fname off p name value table_prefix count m
  end.

Definition ucs_config_parser_set_value_internal (fnmatch : fnmatch_t)
  (opts : Z) (fields : list ucs_config_field_t) (name value : string)
  (table_prefix : option string) (recurse : bool) (m : opts_t)
  : ucs_status_t * opts_t :=
  set_value_loop (set_value_step fnmatch opts name value table_prefix recurse)
    fields O m.

Definition ucs_config_parser_set_value (fnmatch : fnmatch_t) (opts : Z)
  (fields : list ucs_config_field_t) (prefix : option string)
  (name value : string) (m : opts_t) : ucs_status_t * opts_t :=
  ucs_config_parser_set_value_internal fnmatch opts fields name value prefix
    true m.

(** ** Tables as values: [ucs_config_sscanf_table] *)

(** The loop over the [;]-separated tokens; each is split on [=] into a
    name and a value, the first two tokens that [strtok_r] yields. *)
Fixpoint sscanf_table_loop (fnmatch : fnmatch_t)
  (arg : list ucs_config_field_t) (dest : Z) (toks : list string)
  (m : opts_t) : Z * opts_t :=
  match toks with
  | [] => (1, m)
  | token :: rest =>
      match strtok_all "=" token with
      | name :: value :: _ =>
          match ucs_config_parser_set_value_internal fnmatch dest arg
                  name value None true m with
          | (UCS_OK, m') => sscanf_table_loop fnmatch arg dest rest m'
          | (_, m') => (0, m')
          end
      | _ => (0, m)
      end
  end.

Definition ucs_config_sscanf_table (fnmatch : fnmatch_t)
  (arg : list ucs_config_field_t) (buf : string) (dest : Z) (m : opts_t)
  : Z * opts_t :=
  sscanf_table_loop fnmatch arg dest (strtok_all ";" buf) m.

Definition ucs_config_parser_parse_field (fnmatch : fnmatch_t)
  (field : ucs_config_field_t) (value : string) (var : Z) (m : opts_t)
  : ucs_status_t * opts_t :=
  match field with
  | Field _ _ _ p => parse_with p value var m
  | Table _ _ _ sub_fields =>
      let '(ret, m') := ucs_config_sscanf_table fnmatch sub_fields value var m in
      (if ret =? 1 then UCS_OK else UCS_ERR_INVALID_PARAM, m')
  end.

(** ** Release *)

(** The loop of [ucs_config_parser_release_opts], with [release_field] for
    [ucs_config_parser_release_field]: aliases and deprecated fields are
    passed over. *)
Fixpoint release_loop
  (release_field : ucs_config_field_t -> Z -> opts_t -> opts_t)
  (opts : Z) (fields : list ucs_config_field_t) (m : opts_t) : opts_t :=
  match fields with
  | [] => m
  | f :: rest =>
      if ucs_config_is_alias_field f || ucs_config_is_deprecated_field f
      then release_loop release_field opts rest m
      else release_loop release_field opts rest
             (release_field f (opts + field_offset f) m)
  end.

(** [ucs_config_parser_release_field]; for a table the release function is
    [ucs_config_release_table], which runs the loop on the sub-fields. *)
Fixpoint ucs_config_parser_release_field (field : ucs_config_field_t)
  (var : Z) (m : opts_t) {struct field} : opts_t :=
  match field with
  | Field _ _ _ p => release_with p var m
  | Table _ _ _ sub_fields =>
      release_loop ucs_config_parser_release_field var sub_fields m
  end.

Definition ucs_config_parser_release_opts (opts : Z)
  (fields : list ucs_config_field_t) (m : opts_t) : opts_t :=
  release_loop ucs_config_parser_release_field opts fields m.

(** ** Defaults *)

(** The loop of [ucs_config_parser_set_default_values], with [step] for the
    handling of a field that is neither an alias nor deprecated. *)
Fixpoint set_default_loop
  (step : ucs_config_field_t -> Z -> opts_t -> ucs_status_t * opts_t)
  (opts : Z) (fields : list ucs_config_field_t) (m : opts_t)
  : ucs_status_t * opts_t :=
  match fields with
  | [] => (UCS_OK, m)
  | f :: rest =>
      if ucs_config_is_alias_field f || ucs_config_is_deprecated_field f
      then set_default_loop step opts rest m
      else
        match step f opts m with
        | (UCS_OK, m') => set_default_loop step opts rest m'
        | r => r
        end
  end.

(** A sub-table first receives the defaults of its own fields, then its
    own default text is read. *)
Fixpoint set_default_step (fnmatch : fnmatch_t) (field : ucs_config_field_t)
  (opts : Z) (m : opts_t) {struct field} : ucs_status_t * opts_t :=
  let var := opts + field_offset field in
  match field with
  | Field _ dfl _ p => parse_with p (default "" dfl) var m
  | Table _ dfl _ sub_fields =>
      match set_default_loop (set_default_step fnmatch) var sub_fields m with
      | (UCS_OK, m1) =>
          ucs_config_parser_parse_field fnmatch field (default "" dfl) var m1
      | r => r
      end
  end.

Definition ucs_config_parser_set_default_values (fnmatch : fnmatch_t)
  (opts : Z) (fields : list ucs_config_field_t) (m : opts_t)
  : ucs_status_t * opts_t :=
  set_default_loop (set_default_step fnmatch) opts fields m.

(* ===================================================================== *)
(** * 7. The apply pipeline                                               *)
(* ===================================================================== *)

(** The process state the pipeline reads and writes: the option structure
    being filled and the set of variable names marked as used
    ([ucs_config_parser_env_vars]). *)
Record apply_state := {
  st_opts : opts_t;
  st_used : gset string
}.

Definition with_opts (st : apply_state) (m : opts_t) : apply_state :=
  {| st_opts := m; st_used := st_used st |}.

(** [ucs_config_parser_mark_env_var_used]: the new set, and [*added]. *)
Definition ucs_config_parser_mark_env_var_used (name : string)
  (used : gset string) : gset string * bool :=
  if decide (name ∈ used) then (used, false) else ({[name]} ∪ used, true).

(** [ucs_config_get_value_from_config_file]. *)
Definition ucs_config_get_value_from_config_file
  (file_vars : gmap string string) (name : string) : option string :=
  file_vars !! name.

(** The variable name built in the 256-byte buffer: the prefix part is
    written by [snprintf] with a limit of 255 bytes and the field name is
    copied after it by [strncpy] up to byte 254. *)
Definition config_var_name (prefix : string) (table_prefix : option string)
  (fname : string) : string :=
  let buf := snd (snprintf 255 (prefix +:+ default "" table_prefix)) in
  buf +:+ strncpy (256 - String.length buf - 1) fname.

(** The text of a default that is re-read; a field without a default text
    (an alias) has no text to read, and the read is reported as failed. *)
Definition parse_default (p : ucs_config_parser_t) (dfl : option string)
  (var : Z) (m : opts_t) : ucs_status_t * opts_t :=
  match dfl with
  | Some d => parse_with p d var m
  | None => (UCS_ERR_INVALID_PARAM, m)
  end.

(** The environment first, then the file map. *)
Definition config_var_value (getenv : string -> option string)
  (file_vars : gmap string string) (buf : string) : option string :=
  match getenv buf with
  | Some v => Some v
  | None => ucs_config_get_value_from_config_file file_vars buf
  end.

(** The handling of a field that is not a table, in
    [ucs_config_apply_config_vars]: the status is [Some] when the function
    returns and [None] when the loop goes on. *)
Definition apply_field (getenv : string -> option string)
  (file_vars : gmap string string) (opts : Z)
  (fname : string) (dfl : option string) (off : Z) (p : ucs_config_parser_t)
  (prefix : string) (table_prefix : option string) (ignore_errors : bool)
  (st : apply_state) : option ucs_status_t * apply_state :=
  let var := opts + off in
  let buf := config_var_name prefix table_prefix fname in
  match config_var_value getenv file_vars buf with
  | None => (None, st)
  | Some env_value =>
      let '(used, added) := ucs_config_parser_mark_env_var_used buf (st_used st) in
      let st1 := {| st_opts := st_opts st; st_used := used |} in
      if off =? UCS_CONFIG_DEPRECATED_FIELD_OFFSET then (None, st1)
      else
        let m1 := release_with p var (st_opts st1) in
        let '(status, m2) := parse_with p env_value var m1 in
        if status_eqb status UCS_OK then (None, with_opts st1 m2)
        else
          let '(tmp_status, m3) := parse_default p dfl var m2 in
          let status := if ignore_errors then tmp_status else status in
          if status_eqb status UCS_OK then (None, with_opts st1 m3)
          else (Some status, with_opts st1 m3)
  end.

(** The loop of [ucs_config_apply_config_vars], with [step] for its body. *)
Fixpoint apply_loop
  (step : ucs_config_field_t -> apply_state -> option ucs_status_t * apply_state)
  (fields : list ucs_config_field_t) (st : apply_state)
  : ucs_status_t * apply_state :=
  match fields with
  | [] => (UCS_OK, st)
  | f :: rest =>
      match step f st with
      | (None, st') => apply_loop step rest st'
      | (Some status, st') => (status, st')
      end
  end.

(** A recursive call on a sub-table, inside the loop: any status but OK
    leaves the function. *)
Definition after_apply (r : ucs_status_t * apply_state)
  : option ucs_status_t * apply_state :=
  match r with
  | (UCS_OK, st) => (None, st)
  | (status, st) => (Some status, st)
  end.

Fixpoint apply_step (getenv : string -> option string)
  (file_vars : gmap string string) (opts : Z) (prefix : string)
  (table_prefix : option string) (recurse ignore_errors : bool)
  (f : ucs_config_field_t) (st : apply_state) {struct f}
  : option ucs_status_t * apply_state :=
  match f with
  | Table fname _ off sub_fields =>
      let var := opts + off in
      let sub := fun (table_prefix' : option string) (recurse' : bool)
                     (st' : apply_state) =>
        apply_loop
          (apply_step getenv file_vars var prefix table_prefix' recurse'
             ignore_errors)
          sub_fields st' in
      let with_sub_prefix :=
        if recurse then after_apply (sub (Some fname) true st)
        else (None, st) in
      match with_sub_prefix with
      | (Some status, st1) => (Some status, st1)
      | (None, st1) =>
          match table_prefix with
          | Some _ => after_apply (sub table_prefix false st1)
          | None => (None, st1)
          end
      end
  | Field fname dfl off p =>
      apply_field getenv file_vars opts fname dfl off p prefix table_prefix
        ignore_errors st
  end.

Definition ucs_config_apply_config_vars (getenv : string -> option string)
  (file_vars : gmap string string) (opts : Z)
  (fields : list ucs_config_field_t) (prefix : string)
  (table_prefix : option string) (recurse ignore_errors : bool)
  (st : apply_state) : ucs_status_t * apply_state :=
  apply_loop
    (apply_step getenv file_vars opts prefix table_prefix recurse ignore_errors)
    fields st.

(** ** The sub-prefix *)

(** The loop [while ((len > 0) && (env_prefix[len - 1] != '_')) len -= 1]. *)
Fixpoint sub_prefix_scan (env_prefix : string) (len : nat) : nat :=
  match len with
  | O => O
  | S len' =>
      match String.get len' env_prefix with
      | Some c => if Ascii.eqb c "_" then len else sub_prefix_scan env_prefix len'
      | None => sub_prefix_scan env_prefix len'
      end
  end.

(** [ucs_config_parser_get_sub_prefix]: the status and [*sub_prefix_p],
    which keeps its initial [NULL] when the function fails. *)
Definition ucs_config_parser_get_sub_prefix (env_prefix : string)
  : ucs_status_t * option string :=
  let len := String.length env_prefix in
  if (len <? 2)%nat then (UCS_ERR_INVALID_PARAM, None)
  else
    let len := sub_prefix_scan env_prefix (len - 2) in
    (UCS_OK, if (0 <? len)%nat then Some (str_drop len env_prefix) else None).

(** ** [ucs_config_parser_fill_opts] *)

(** Modelled from the spec: [UCS_CONFIG_TABLE_FLAG_LOADED] is a flag of a
    header outside the sources, the sticky bit set after the first
    successful apply; it is taken as bit 0. *)
Definition UCS_CONFIG_TABLE_FLAG_LOADED : Z := 1.

(** [ucs_config_global_list_entry_t]. *)
Record ucs_config_global_list_entry_t := {
  entry_name : string;
  entry_prefix : option string;
  entry_table : list ucs_config_field_t;
  entry_flags : Z
}.

Definition set_loaded (entry : ucs_config_global_list_entry_t)
  : ucs_config_global_list_entry_t :=
  {| entry_name := entry_name entry;
     entry_prefix := entry_prefix entry;
     entry_table := entry_table entry;
     entry_flags := Z.lor (entry_flags entry) UCS_CONFIG_TABLE_FLAG_LOADED |}.

(** [file_vars] is the map of the configuration files, as the one-shot
    [ucs_config_parse_config_files] left it. *)
Definition ucs_config_parser_fill_opts (fnmatch : fnmatch_t)
  (getenv : string -> option string) (file_vars : gmap string string)
  (opts : Z) (entry : ucs_config_global_list_entry_t)
  (env_prefix : string) (ignore_errors : bool) (st : apply_state)
  : ucs_status_t * apply_state * ucs_config_global_list_entry_t :=
  match ucs_config_parser_set_default_values fnmatch opts (entry_table entry)
          (st_opts st) with
  | (UCS_OK, m0) =>
      let st0 := with_opts st m0 in
      match ucs_config_parser_get_sub_prefix env_prefix with
      | (UCS_OK, sub_prefix) =>
          let '(status1, st1) :=
            match sub_prefix with
            | Some sp =>
                ucs_config_apply_config_vars getenv file_vars opts
                  (entry_table entry) sp (entry_prefix entry) true
                  ignore_errors st0
            | None => (UCS_OK, st0)
            end in
          if negb (status_eqb status1 UCS_OK)
          then (status1,
                with_opts st1 (ucs_config_parser_release_opts opts
                                 (entry_table entry) (st_opts st1)),
                entry)
          else
            let '(status2, st2) :=
              ucs_config_apply_config_vars getenv file_vars opts
                (entry_table entry) env_prefix (entry_prefix entry) true
                ignore_errors st1 in
            if negb (status_eqb status2 UCS_OK)
            then (status2,
                  with_opts st2 (ucs_config_parser_release_opts opts
                                   (entry_table entry) (st_opts st2)),
                  entry)
            else (UCS_OK, st2, set_loaded entry)
      | (status, _) => (status, st0, entry)
      end
  | (status, m0) => (status, with_opts st m0, entry)
  end.

(* ===================================================================== *)
(** * 8. Reading a value back and printing                                *)
(* ===================================================================== *)

(** The loop of [ucs_config_parser_get_value], which goes on while the
    status is [UCS_ERR_NO_ELEM]; [step] is its body. The result is the
    status and the text written to the caller's buffer, if any. *)
Fixpoint get_value_loop
  (step : ucs_config_field_t -> ucs_status_t * option string)
  (fields : list ucs_config_field_t) : ucs_status_t * option string :=
  match fields with
  | [] => (UCS_ERR_NO_ELEM, None)
  | f :: rest =>
      match step f with
      | (UCS_ERR_NO_ELEM, _) => get_value_loop step rest
      | r => r
      end
  end.

(** The second test of the loop body: the field name starts with [name]. *)
Definition get_value_by_prefix (f : ucs_config_field_t) (opts : Z)
  (name : string) (has_value : bool) (max : nat) (m : opts_t)
  : ucs_status_t * option string :=
  if strncmp (field_name f) name (String.length name) =? 0
  then
    match f with
    | Field _ _ off p =>
        (UCS_OK,
         if has_value then Some (snd (write p max (m !! (opts + off))))
         else None)
    | Table _ _ _ _ =>
        (* the writer of the table parser is not part of the sources:
           nothing is recorded as written *)
        (UCS_OK, None)
    end
  else (UCS_ERR_NO_ELEM, None).

(** The body of the loop for the field [f]. [has_value] says that [value]
    is not [NULL]; an address is [NULL] when it is 0. The recursive call on
    a sub-table repeats the argument check of the function. *)
Fixpoint get_value_step (opts : Z) (name : string) (has_value : bool)
  (max : nat) (m : opts_t) (f : ucs_config_field_t) {struct f}
  : ucs_status_t * option string :=
  match f with
  | Table fname _ off sub_fields =>
      let name_len := String.length fname in
      if strncmp fname name name_len =? 0 then
        let sub_opts := opts + off in
        if (sub_opts =? 0) || (negb has_value && (0 <? max)%nat)
        then (UCS_ERR_INVALID_PARAM, None)
        else
          get_value_loop
            (get_value_step sub_opts (str_drop name_len name) has_value max m)
            sub_fields
      else get_value_by_prefix f opts name has_value max m
  | Field _ _ _ _ => get_value_by_prefix f opts name has_value max m
  end.

(** [ucs_config_parser_get_value]: [fields] and [name] are [None] when the
    pointer is [NULL]. *)
Definition ucs_config_parser_get_value (opts : Z)
  (fields : option (list ucs_config_field_t)) (name : option string)
  (has_value : bool) (max : nat) (m : opts_t)
  : ucs_status_t * option string :=
  match fields, name with
  | Some fields, Some name =>
      if (opts =? 0) || (negb has_value && (0 <? max)%nat)
      then (UCS_ERR_INVALID_PARAM, None)
      else get_value_loop (get_value_step opts name has_value max m) fields
  | _, _ => (UCS_ERR_INVALID_PARAM, None)
  end.

(** ** The default marker of the printer *)

(** Modelled from the spec: the print flags are an enumeration of a header
    outside the sources, one bit each in the order the spec lists them. *)
Definition UCS_CONFIG_PRINT_CONFIG : Z := 1.
Definition UCS_CONFIG_PRINT_HEADER : Z := 2.
Definition UCS_CONFIG_PRINT_DOC : Z := 4.
Definition UCS_CONFIG_PRINT_HIDDEN : Z := 8.
Definition UCS_CONFIG_PRINT_COMMENT_DEFAULT : Z := 16.

(** [ucs_snprintf_safe(buf, size, ...)]: [snprintf], then a terminator in
    the last byte. *)
Definition ucs_snprintf_safe (size : nat) (text : string) : string :=
  snd (snprintf size text).

(** [ucs_config_parser_is_default]. The variable name is built in a buffer
    of 128 bytes with a limit of 127; the file map is searched for [name]. *)
Definition ucs_config_parser_is_default (getenv : string -> option string)
  (file_vars : gmap string string) (env_prefix prefix name : string) : bool :=
  let var_name := ucs_snprintf_safe 127 (env_prefix +:+ prefix +:+ name) in
  bool_decide (file_vars !! name = None) &&
  bool_decide (getenv var_name = None).

(** [strstr(s, sub) != NULL]. *)
Fixpoint str_prefix (p s : string) : bool :=
  match p, s with
  | EmptyString, _ => true
  | String a p', String b s' => Ascii.eqb a b && str_prefix p' s'
  | String _ _, EmptyString => false
  end.

Fixpoint strstr (s sub : string) : bool :=
  str_prefix sub s ||
  match s with
  | EmptyString => false
  | String _ r => strstr r sub
  end.

(** The assignment line that [ucs_config_parser_print_field] prints last
    ([default_config_prefix], [name_buf], [value_buf]), or [None] when the
    filter drops the field. [head_prefix] is the prefix at the head of the
    prefix list. The header and the documentation block, which the
    function prints before this line, are left out. *)
Definition print_field_line (getenv : string -> option string)
  (file_vars : gmap string string) (opts : Z) (env_prefix head_prefix : string)
  (name : string) (field : ucs_config_field_t) (flags : Z)
  (filter : option string) (m : opts_t) : option string :=
  let name_buf := snd (snprintf 128 (env_prefix +:+ head_prefix +:+ name)) in
  let filtered :=
    match filter with
    | Some flt => negb (strstr name_buf flt)
    | None => false
    end in
  if filtered then None
  else
    let value_buf :=
      if ucs_config_is_deprecated_field field
      then snd (snprintf 128 " (deprecated)")
      else
        match field with
        | Field _ _ off p => "=" +:+ snd (write p 126 (m !! (opts + off)))
        | Table _ _ _ _ => "="
        end in
    let default_config_prefix :=
      if negb (Z.land flags UCS_CONFIG_PRINT_COMMENT_DEFAULT =? 0) &&
         ucs_config_parser_is_default getenv file_vars env_prefix head_prefix name
      then "# " else "" in
    Some (default_config_prefix +:+ name_buf +:+ value_buf).

(* ===================================================================== *)
(** * 9. Statements used by the theorems                                  *)
(* ===================================================================== *)

(** ** A model of [fnmatch] for the examples *)

(** [fnmatch(pattern, string, 0)] for patterns made of ordinary characters,
    [?] (any one character) and [*] (any run of characters); bracket
    expressions and escapes are not interpreted. *)
Fixpoint glob_match (pattern s : string) : bool :=
  match pattern with
  | EmptyString => match s with EmptyString => true | String _ _ => false end
  | String "*" pattern' =>
      (fix star (s : string) : bool :=
         glob_match pattern' s ||
         match s with
         | String _ s' => star s'
         | EmptyString => false
         end) s
  | String "?" pattern' =>
      match s with String _ s' => glob_match pattern' s' | EmptyString => false end
  | String c pattern' =>
      match s with
      | String d s' => Ascii.eqb c d && glob_match pattern' s'
      | EmptyString => false
      end
  end.

Definition fnmatch_glob : fnmatch_t :=
  fun pattern s => if glob_match pattern s then 0 else 1.

(** The environment of a process given as a finite map. *)
Definition getenv_of (env : gmap string string) : string -> option string :=
  fun name => env !! name.


(** ** Round trips *)

(** [round_trips p max]: every text that [p] writes into a buffer of [max]
    bytes from a value it has read is read back by [p], and written again
    as the same text. *)
Definition round_trips (p : ucs_config_parser_t) (max : nat) : Prop :=
  forall (x : string) (old : option value) (v : value),
    read p x old = (1, Some v) ->
    fst (write p max (Some v)) <> 0 /\
    forall old' : option value, exists v' : value,
      read p (snd (write p max (Some v))) old' = (1, Some v') /\
      snd (write p max (Some v')) = snd (write p max (Some v)).


(** ** Arrays *)

(** The element that reading [token] leaves in a zeroed element slot. *)
Definition array_element (array : ucs_config_array_t) (token : string) : value :=
  default VZero (snd (read (elem_parser array) token (Some VZero))).

(** ** What a parser does with a text *)

(** [accepts p text v]: the read of [text] succeeds and stores [v],
    whatever the slot held. [rejects p text]: the read of [text] fails,
    whatever the slot held. *)
Definition accepts (p : ucs_config_parser_t) (text : string) (v : value) : Prop :=
  forall old : option value, read p text old = (1, Some v).

Definition rejects (p : ucs_config_parser_t) (text : string) : Prop :=
  forall old : option value, fst (read p text old) <> 1.

(** ** The resolver *)

(** A field that the resolver passes over when it looks for [name]: a field
    that is not a table and whose qualified name does not match. *)
Definition passed_over (fnmatch : fnmatch_t) (table_prefix : option string)
  (name : string) (g : ucs_config_field_t) : Prop :=
  match g with
  | Field gname _ _ _ =>
      ucs_config_prefix_name_match fnmatch table_prefix
        (prefix_length table_prefix) gname name = false
  | Table _ _ _ _ => False
  end.

(** A field renamed: the old name is kept as a deprecated field, before
    the field that holds the value. *)
Definition renamed_fields : list ucs_config_field_t :=
  [ Field "TX_OLD" (Some "") UCS_CONFIG_DEPRECATED_FIELD_OFFSET
      UCS_CONFIG_TYPE_UINT;
    Field "TX_NEW" (Some "0") 0 UCS_CONFIG_TYPE_UINT ].

(** A field moved into a sub-table: its old qualified name is kept as a
    deprecated field of the parent. *)
Definition moved_fields : list ucs_config_field_t :=
  [ Field "IB_QKEY" (Some "") UCS_CONFIG_DEPRECATED_FIELD_OFFSET
      UCS_CONFIG_TYPE_UINT;
    Table "IB_" (Some "") 64 [ Field "QKEY" (Some "0") 0 UCS_CONFIG_TYPE_UINT ] ].

(** A field of type double with a default of five decimals, and one of the
    asynchronous mode. *)
Definition ratio_fields : list ucs_config_field_t :=
  [ Field "RATIO" (Some "0.12345") 0 UCS_CONFIG_TYPE_DOUBLE ].

Definition mode_fields : list ucs_config_field_t :=
  [ Field "MODE" (Some "signal") 0 (UCS_CONFIG_TYPE_ENUM ucs_async_mode_names) ].


(** ** The apply pipeline on a flat table *)

(** A real field: not a table, not an alias, not deprecated, with a default
    text that its parser accepts (the invariant of the data model). *)
Definition real_field (f : ucs_config_field_t) : Prop :=
  match f with
  | Field _ (Some d) off p =>
      off <> UCS_CONFIG_DEPRECATED_FIELD_OFFSET /\ exists v, accepts p d v
  | _ => False
  end.

(** A flat table of real fields, each with a slot of its own. *)
Definition flat_table (fields : list ucs_config_field_t) : Prop :=
  Forall real_field fields /\ NoDup (map field_offset fields).

(** The text found for the field [fname] under [prefix]: the environment
    variable of the candidate name, else the entry of the file map. *)
Definition found_text (getenv : string -> option string)
  (file_vars : gmap string string) (prefix : string)
  (table_prefix : option string) (fname : string) : option string :=
  config_var_value getenv file_vars (config_var_name prefix table_prefix fname).

(** Every text found for [f] under [prefix] is accepted by its parser. *)
Definition found_accepted (getenv : string -> option string)
  (file_vars : gmap string string) (prefix : string)
  (table_prefix : option string) (f : ucs_config_field_t) : Prop :=
  match f with
  | Field fname _ _ p =>
      match found_text getenv file_vars prefix table_prefix fname with
      | Some t => exists v, accepts p t v
      | None => True
      end
  | Table _ _ _ _ => True
  end.

(** The option structure once [ucs_config_parser_release_opts] has run on
    some state of it. *)
Definition released (opts : Z) (fields : list ucs_config_field_t)
  (m : opts_t) : Prop :=
  exists m0, m = ucs_config_parser_release_opts opts fields m0.

(** ** Examples *)

Definition no_state : apply_state := {| st_opts := ∅; st_used := ∅ |}.

(** The entry of the scenarios: a table with the asynchronous mode. *)
Definition mode_entry : ucs_config_global_list_entry_t :=
  {| entry_name := "mode"; entry_prefix := Some "";
     entry_table := mode_fields; entry_flags := 0 |}.

(** An entry with a string field, whose default is a heap string. *)
Definition name_entry : ucs_config_global_list_entry_t :=
  {| entry_name := "name"; entry_prefix := Some "";
     entry_table := [ Field "NAME" (Some "abc") 0 UCS_CONFIG_TYPE_STRING ];
     entry_flags := 0 |}.

(** Environments for the prefix [APP_UCX_], whose sub-prefix is [UCX_]. *)
Definition env_sub_only : gmap string string := {[ "UCX_MODE" := "poll" ]}.




(** ** Reading a value back *)

(** The test of [ucs_config_parser_get_value] on a field name: its first
    [strlen(name)] characters are those of [name]. *)
Definition begins_with (fname name : string) : bool :=
  strncmp fname name (String.length name) =? 0.

(** A field that the loop of [ucs_config_parser_get_value] leaves behind
    when it looks for [name]: its name does not begin with [name], and if
    it is a table [name] does not begin with its name. *)
Definition left_behind (name : string) (g : ucs_config_field_t) : Prop :=
  begins_with (field_name g) name = false /\
  (ucs_config_is_table_field g = true ->
   (strncmp (field_name g) name (String.length (field_name g)) =? 0) = false).





(** ** The printer *)

(** A file map with an entry for the variable [UCX_TLS], and one with an
    entry under the bare field name. *)
Definition file_with_ucx_tls : gmap string string := {[ "UCX_TLS" := "rc" ]}.

Definition file_with_bare_tls : gmap string string := {[ "TLS" := "rc" ]}.


(** ** Checking a fact on every character *)

(** Facts about every character are checked on the 256 of them. *)
Definition all_chars (P : ascii -> bool) : bool :=
  forallb (fun n => P (ascii_of_nat n)) (seq 0 256).


(** ** Enumerations *)

(** The names of an enumeration differ beyond the case of their letters: no
    name compares equal, under [strcasecmp], to a name after it. *)
Fixpoint case_distinct (names : list string) : Prop :=
  match names with
  | [] => True
  | name :: rest =>
      Forall (fun later => strcasecmp name later <> 0) rest /\
      case_distinct rest
  end.


(** ** A signed field under the prefix [APP_UCX_] *)

(** An entry with a signed integer field, whose parser is [sscanf("%i")]. *)
Definition num_entry : ucs_config_global_list_entry_t :=
  {| entry_name := "num"; entry_prefix := Some "";
     entry_table := [ Field "NUM" (Some "1") 0 UCS_CONFIG_TYPE_INT ];
     entry_flags := 0 |}.

Definition env_num_sub_only : gmap string string := {[ "UCX_NUM" := "7" ]}.



(* ===================================================================== *)
(** * The circular list of [ucs/datastruct/list.h]                        *)
(* ===================================================================== *)

(** [ucs_list_link_t]: a link of a circular list; the pointers are
    addresses. *)
Record ucs_list_link_t := { prev : Z; next : Z }.

(** The memory that holds the links, by address. *)
Abbreviation link_heap := (gmap Z ucs_list_link_t).

(** The link stored at [p]; memory that was never written reads as a link
    of two null pointers. *)
Definition link_at (h : link_heap) (p : Z) : ucs_list_link_t :=
  default {| prev := 0; next := 0 |} (h !! p).

(** The assignments [p->prev = v] and [p->next = v]. *)
Definition set_prev (p v : Z) (h : link_heap) : link_heap :=
  <[ p := {| prev := v; next := next (link_at h p) |} ]> h.

Definition set_next (p v : Z) (h : link_heap) : link_heap :=
  <[ p := {| prev := prev (link_at h p); next := v |} ]> h.

(** [head->prev = head->next = head]. *)
Definition ucs_list_head_init (head : Z) (h : link_heap) : link_heap :=
  set_prev head head (set_next head head h).

Definition ucs_list_insert_replace (prev_link next_link elem : Z)
  (h : link_heap) : link_heap :=
  let h1 := set_prev elem prev_link h in
  let h2 := set_next elem next_link h1 in
  let h3 := set_next prev_link elem h2 in
  set_prev next_link elem h3.

Definition ucs_list_replace (elem replacement : Z) (h : link_heap)
  : link_heap :=
  ucs_list_insert_replace (prev (link_at h elem)) (next (link_at h elem))
    replacement h.

Definition ucs_list_insert_after (pos new_link : Z) (h : link_heap)
  : link_heap :=
  ucs_list_insert_replace pos (next (link_at h pos)) new_link h.

Definition ucs_list_insert_before (pos new_link : Z) (h : link_heap)
  : link_heap :=
  ucs_list_insert_replace (prev (link_at h pos)) pos new_link h.

(** [elem->prev->next = elem->next; elem->next->prev = elem->prev;] the
    second statement reads the links of [elem] after the first has been
    executed. *)
Definition ucs_list_del (elem : Z) (h : link_heap) : link_heap :=
  let h1 := set_next (prev (link_at h elem)) (next (link_at h elem)) h in
  set_prev (next (link_at h1 elem)) (prev (link_at h1 elem)) h1.

Definition ucs_list_is_empty (h : link_heap) (head : Z) : bool :=
  next (link_at h head) =? head.

Definition ucs_list_is_first (h : link_heap) (head elem : Z) : bool :=
  prev (link_at h elem) =? head.

Definition ucs_list_is_last (h : link_heap) (head elem : Z) : bool :=
  next (link_at h elem) =? head.

Definition ucs_list_is_only (h : link_heap) (head elem : Z) : bool :=
  ucs_list_is_first h head elem && ucs_list_is_last h head elem.

Definition ucs_list_splice_tail (head newlist : Z) (h : link_heap)
  : link_heap :=
  if ucs_list_is_empty h newlist then h
  else
    let first := next (link_at h newlist) in
    let last := prev (link_at h newlist) in
    let tail := prev (link_at h head) in
    let h1 := set_prev first tail h in
    let h2 := set_next tail first h1 in
    let h3 := set_next last head h2 in
    set_prev head last h3.

(** The loop of [ucs_list_length]: [ptr] is the link reached and [length]
    the count so far, an [unsigned long]; [fuel] bounds the number of
    iterations, and [None] is a loop that has not ended within it. *)
Fixpoint list_length_loop (fuel : nat) (h : link_heap) (head ptr length : Z)
  : option Z :=
  match fuel with
  | O => None
  | S fuel' =>
      if ptr =? head then Some length
      else list_length_loop fuel' h head (next (link_at h ptr))
             ((length + 1) mod 2 ^ 64)
  end.

Definition ucs_list_length (fuel : nat) (h : link_heap) (head : Z)
  : option Z :=
  list_length_loop fuel h head (next (link_at h head)) 0.

(** [ucs_list_add_head] and [ucs_list_add_tail]. *)
Definition ucs_list_add_head (head item : Z) (h : link_heap) : link_heap :=
  ucs_list_insert_after head item h.

Definition ucs_list_add_tail (head item : Z) (h : link_heap) : link_heap :=
  ucs_list_insert_before head item h.

(** [ucs_list_next] and [ucs_list_prev], [ucs_list_head] and
    [ucs_list_tail]: the link of the element; [ucs_container_of] then
    subtracts the offset of the link in the element. *)
Definition ucs_list_next (h : link_heap) (elem : Z) : Z :=
  next (link_at h elem).

Definition ucs_list_prev (h : link_heap) (elem : Z) : Z :=
  prev (link_at h elem).

Definition ucs_list_head (h : link_heap) (head : Z) : Z := ucs_list_next h head.

Definition ucs_list_tail (h : link_heap) (head : Z) : Z := ucs_list_prev h head.

(** The links that the loop [ucs_list_for_each] visits, in order, when the
    body leaves the list as it is. *)
Fixpoint list_for_each_loop (fuel : nat) (h : link_heap) (head elem : Z)
  : option (list Z) :=
  match fuel with
  | O => None
  | S fuel' =>
      if elem =? head then Some []
      else
        match list_for_each_loop fuel' h head (next (link_at h elem)) with
        | Some visited => Some (elem :: visited)
        | None => None
        end
  end.

Definition ucs_list_for_each (fuel : nat) (h : link_heap) (head : Z)
  : option (list Z) :=
  list_for_each_loop fuel h head (next (link_at h head)).

(** [ucs_list_extract_head]: the link taken out, and the memory. *)
Definition ucs_list_extract_head (head : Z) (h : link_heap)
  : Z * link_heap :=
  let tmp := next (link_at h head) in
  (tmp, ucs_list_del tmp h).

(** ** What a list is *)

(** From [a], following [next], the links of [l] are met in order and then
    [z]; every [prev] points back. *)
Fixpoint list_chain (h : link_heap) (a : Z) (l : list Z) (z : Z) : Prop :=
  match l with
  | [] => next (link_at h a) = z /\ prev (link_at h z) = a
  | b :: l' =>
      next (link_at h a) = b /\ prev (link_at h b) = a /\ list_chain h b l' z
  end.

(** The list of head [head] holds the links [l], in order: the links are
    distinct, and the chain from the head comes back to it. *)
Definition is_list (h : link_heap) (head : Z) (l : list Z) : Prop :=
  NoDup (head :: l) /\ list_chain h head l head.


(** ** Two lists in one memory *)

(** The list of head 16 with the links 32 and 48, built by the operations
    on an empty memory. *)
Definition three_links : link_heap :=
  ucs_list_add_tail 16 48 (ucs_list_add_tail 16 32 (ucs_list_head_init 16 ∅)).

(** The same memory with a second list, of head 64 and link 80. *)
Definition two_lists : link_heap :=
  ucs_list_add_tail 64 80 (ucs_list_head_init 64 three_links).


(* ===================================================================== *)
(** * The lines of a configuration file                                   *)
(* ===================================================================== *)

(** [ucs_config_parse_section_t]: the name of the section of the last line
    seen, a buffer of 64 bytes, and whether the section is skipped. *)
Record ucs_config_parse_section_t := {
  section_name : string;
  section_skip : bool
}.

(** [ucs_config_parse_arg_t]; [override] is an [int] read as a truth
    value. *)
Record ucs_config_parse_arg_t := {
  override : bool;
  section_info : ucs_config_parse_section_t
}.

(** Modelled from the spec: [ucs_strncpy_zero] is a helper defined outside
    the sources; it copies at most [max - 1] characters and ends the copy
    with a zero. *)
Definition ucs_strncpy_zero (max : nat) (src : string) : string :=
  str_take (Nat.pred max) src.

(** [ucs_config_parse_check_filter]. The table [filters] pairs the label
    of a host attribute with the value the host reports for it (the labels
    and the functions that report the values are defined outside the
    sources); [fnmatch_casefold pattern string] is [fnmatch] with
    [FNM_CASEFOLD], 0 on a match. *)
Definition ucs_config_parse_check_filter (fnmatch_casefold : fnmatch_t)
  (filters : list (string * string)) (name value : string) : bool :=
  existsb
    (fun filter =>
       (strcmp name (fst filter) =? 0) &&
       negb (fnmatch_casefold value (snd filter) =? 0))
    filters.

(** [ucs_config_parse_set_section_info]. *)
Definition ucs_config_parse_set_section_info (fnmatch_casefold : fnmatch_t)
  (filters : list (string * string))
  (info : ucs_config_parse_section_t) (section name value : string)
  : ucs_config_parse_section_t :=
  if negb (strcmp section (section_name info) =? 0) then
    {| section_name := ucs_strncpy_zero 64 section;
       section_skip :=
         ucs_config_parse_check_filter fnmatch_casefold filters name value |}
  else if section_skip info then info
  else
    {| section_name := section_name info;
       section_skip :=
         ucs_config_parse_check_filter fnmatch_casefold filters name value |}.

(** [ucs_config_parse_config_file_line]: the value returned to the INI
    reader, the argument block and the file map. The failure of [kh_put]
    is not part of the model. *)
Definition ucs_config_parse_config_file_line (fnmatch_casefold : fnmatch_t)
  (filters : list (string * string))
  (arg : ucs_config_parse_arg_t) (section name value : string)
  (file_vars : gmap string string)
  : Z * ucs_config_parse_arg_t * gmap string string :=
  let info :=
    ucs_config_parse_set_section_info fnmatch_casefold filters
      (section_info arg) section name value in
  let arg' := {| override := override arg; section_info := info |} in
  if section_skip info then (1, arg', file_vars)
  else
    match file_vars !! name with
    | Some _ =>
        if override arg then (1, arg', <[ name := value ]> file_vars)
        else (0, arg', file_vars)
    | None => (1, arg', <[ name := value ]> file_vars)
    end.

(** The argument block that [ucs_config_parse_config_file] starts with. *)
Definition parse_arg_init (override : bool) : ucs_config_parse_arg_t :=
  {| override := override;
     section_info := {| section_name := ""; section_skip := false |} |}.


(* ===================================================================== *)
(** * Composite parsers: allow lists                                      *)
(* ===================================================================== *)

(** Modelled from the spec: the modes of an allow list are an enumeration
    of a header outside the sources. *)
Inductive ucs_config_allow_list_mode_t :=
| UCS_CONFIG_ALLOW_LIST_ALLOW
| UCS_CONFIG_ALLOW_LIST_NEGATE
| UCS_CONFIG_ALLOW_LIST_ALLOW_ALL.

(** Modelled from the spec: [UCS_CONFIG_PARSER_ALL] is a macro of a header
    outside the sources; the spec gives the literal. *)
Definition UCS_CONFIG_PARSER_ALL : string := "all".

Definition ucs_config_parser_negate : ascii := "^".

(** [ucs_config_allow_list_t]: the mode and the array of names. *)
Record ucs_config_allow_list_t := {
  allow_list_mode : ucs_config_allow_list_mode_t;
  allow_list_array : option value
}.

(** [ucs_config_sscanf_allow_list]. The mode is written before the array
    is read, and stays written when the read fails. The test on
    [names[0]] reads the first element as a string. After [all] the array
    is released; when the function then returns 0 because of further
    names, the count it leaves in the structure is not part of the
    model. *)
Definition ucs_config_sscanf_allow_list (array_max : nat)
  (array : ucs_config_array_t) (buf : string) (dest : ucs_config_allow_list_t)
  : Z * ucs_config_allow_list_t :=
  let negate :=
    match buf with
    | String c _ => Ascii.eqb c ucs_config_parser_negate
    | EmptyString => false
    end in
  let mode :=
    if negate then UCS_CONFIG_ALLOW_LIST_NEGATE
    else UCS_CONFIG_ALLOW_LIST_ALLOW in
  let offset := if negate then 1%nat else 0%nat in
  let '(ret, arr) :=
    ucs_config_sscanf_array array_max array (str_drop offset buf)
      (allow_list_array dest) in
  if ret =? 0
  then (0, {| allow_list_mode := mode; allow_list_array := arr |})
  else
    let first_is_all :=
      match array_elems arr with
      | VStr s :: _ => strcmp s UCS_CONFIG_PARSER_ALL =? 0
      | _ => false
      end in
    if (1 <=? array_count arr)%nat && first_is_all
    then
      let released := ucs_config_release_array array arr in
      if negb (array_count arr =? 1)%nat
      then (0, {| allow_list_mode := UCS_CONFIG_ALLOW_LIST_ALLOW_ALL;
                  allow_list_array := released |})
      else (1, {| allow_list_mode := UCS_CONFIG_ALLOW_LIST_ALLOW_ALL;
                  allow_list_array := released |})
    else (1, {| allow_list_mode := mode; allow_list_array := arr |}).

(** [ucs_config_sprintf_allow_list]; [max--] on a [size_t] wraps at 0.
    [old k] is the C string that starts at byte [k] of the buffer of the
    caller on entry: the array is written at [buf], or at [buf + 1] after
    the [^], and an array without names stores nothing there. *)
Definition ucs_config_sprintf_allow_list (array : ucs_config_array_t)
  (old : nat -> string) (max : nat) (src : ucs_config_allow_list_t)
  : Z * string :=
  match allow_list_mode src with
  | UCS_CONFIG_ALLOW_LIST_ALLOW_ALL =>
      (1, snd (snprintf max UCS_CONFIG_PARSER_ALL))
  | UCS_CONFIG_ALLOW_LIST_NEGATE =>
      let max' :=
        if (max =? 0)%nat then Z.to_nat (2 ^ 64 - 1) else (max - 1)%nat in
      let '(ret, text) :=
        ucs_config_sprintf_array array (old 1%nat) max'
          (allow_list_array src) in
      (ret, String ucs_config_parser_negate text)
  | UCS_CONFIG_ALLOW_LIST_ALLOW =>
      ucs_config_sprintf_array array (old 0%nat) max (allow_list_array src)
  end.

Definition ucs_config_release_allow_list (array : ucs_config_array_t)
  (slot : ucs_config_allow_list_t) : ucs_config_allow_list_t :=
  match allow_list_mode slot with
  | UCS_CONFIG_ALLOW_LIST_ALLOW_ALL => slot
  | mode =>
      {| allow_list_mode := mode;
         allow_list_array :=
           ucs_config_release_array array (allow_list_array slot) |}
  end.

(** The array of strings: [UCS_CONFIG_DEFINE_ARRAY(string, ...)]. *)
Definition ucs_config_array_string : ucs_config_array_t :=
  {| elem_parser := UCS_CONFIG_TYPE_STRING |}.

(** ** Texts of several elements *)

(** The texts of [l] with [sep] between them. *)
Definition join_with (sep : string) (l : list string) : string :=
  match l with
  | [] => ""
  | t :: rest => t +:+ fold_right (fun u acc => sep +:+ u +:+ acc) "" rest
  end.

(** Every character of [s] satisfies [P]. *)
Fixpoint str_all (P : ascii -> bool) (s : string) : bool :=
  match s with
  | EmptyString => true
  | String c r => P c && str_all P r
  end.

(** The text [t] stands for the element [e] under the parser [p]: written
    into any room that holds it, [e] gives [t], and [t] is read as [e]; [t]
    is not empty and has no comma. *)
Definition element_text (p : ucs_config_parser_t) (e : value) (t : string)
  : Prop :=
  t <> "" /\ strchr t "," = None /\
  (forall room, (String.length t < room)%nat ->
     fst (write p room (Some e)) <> 0 /\ snd (write p room (Some e)) = t) /\
  (forall old, fst (read p t old) <> 0 /\ snd (read p t old) = Some e).


(** ** A sub-table and the two names of its field *)

(** The sub-table [IB_] with the field [QKEY], and an environment that sets
    the field under the name of the sub-table and under the prefix of the
    parent. *)
Definition qkey_fields : list ucs_config_field_t :=
  [ Field "QKEY" (Some "0") 0 UCS_CONFIG_TYPE_UINT ].

Definition env_qkey : gmap string string :=
  <[ "UCX_IB_QKEY" := "7" ]> {[ "UCX_QKEY" := "9" ]}.


(* ===================================================================== *)
(** * The help text of an enumeration                                     *)
(* ===================================================================== *)

(** The loop of [__print_table_values]: [acc] is the text between [buf]
    and [ptr]; each name is written after a bar by [snprintf] in the room
    that is left. *)
Fixpoint print_table_values_loop (table : list string) (max : nat)
  (acc : string) : string :=
  match table with
  | [] => acc
  | name :: rest =>
      print_table_values_loop rest max
        (acc +:+ snd (snprintf (max - String.length acc) ("|" +:+ name)))
  end.

(** [__print_table_values]: the closing bracket is written after the
    names, and then the first byte of the buffer is overwritten with the
    opening bracket. A buffer of fewer than two bytes, which the assignment
    leaves without a terminator, is not part of the model. *)
Definition print_table_values (table : list string) (max : nat) : string :=
  let body := print_table_values_loop table max "" in
  let text := body +:+ snd (snprintf (max - String.length body) "]") in
  match text with
  | String _ rest => String "[" rest
  | EmptyString => "["
  end.

Definition ucs_config_help_enum (max : nat) (arg : list string) : string :=
  print_table_values arg max.

(** [ucs_config_help_uint_enum]: the table follows the opening words. *)
Definition ucs_config_help_uint_enum (max : nat) (arg : list string)
  : string :=
  let head := snd (snprintf max "a numerical value, or:") in
  head +:+ print_table_values arg (max - String.length head).


(* ===================================================================== *)
(** * Bitmaps                                                             *)
(* ===================================================================== *)

(** The loop of [ucs_config_sscanf_bitmap] over the tokens: [bits] is the
    value of [*dest] so far, a [uint64_t]. [None] is the failure of the
    assertion [i < sizeof(uint64_t) * 8]: the function does not return,
    and without the assertion the shift of [UCS_BIT(i)] has no defined
    value. *)
Fixpoint sscanf_bitmap_loop (arg : list string) (toks : list string)
  (bits : Z) : option (Z * Z) :=
  match toks with
  | [] => Some (1, bits)
  | p :: rest =>
      let i := ucs_string_find_in_list p arg 0 in
      if i <? 0 then Some (0, bits)
      else if i <? 64
           then sscanf_bitmap_loop arg rest (Z.lor bits (UCS_BIT i))
           else None
  end.

(** [ucs_config_sscanf_bitmap]: [*dest] is set to 0 before the first
    token is looked up. [None] when the assertion of the loop fails. *)
Definition ucs_config_sscanf_bitmap (arg : list string) (buf : string)
  (dest : option value) : option (Z * option value) :=
  match sscanf_bitmap_loop arg (strtok_all "," buf) 0 with
  | Some (ret, bits) => Some (ret, Some (VInt bits))
  | None => None
  end.

(* ===================================================================== *)
(** * The lookups of [ucs_config_parser_fill_opts]                        *)
(* ===================================================================== *)

(** A lookup of [ucs_config_apply_config_vars]: one run of the branch of a
    field that is not a table. It records the field, the address [opts] of
    the structure that the call works on and the table prefix of the
    call. *)
Record lookup_t := {
  lk_opts : Z;
  lk_table_prefix : option string;
  lk_name : string;
  lk_dfl : option string;
  lk_off : Z;
  lk_parser : ucs_config_parser_t
}.

(** The lookups that a call makes for the field [f], in order. A field that
    is not a table is looked up once. A sub-table is gone through with its
    own name as table prefix when [recurse] is set, and then with the table
    prefix of the call, without recursion, when the call has one. *)
Fixpoint field_lookups (opts : Z) (table_prefix : option string)
  (recurse : bool) (f : ucs_config_field_t) {struct f} : list lookup_t :=
  match f with
  | Table fname _ off sub_fields =>
      (if recurse
       then flat_map (field_lookups (opts + off) (Some fname) true) sub_fields
       else []) ++
      match table_prefix with
      | Some _ =>
          flat_map (field_lookups (opts + off) table_prefix false) sub_fields
      | None => []
      end
  | Field fname dfl off p =>
      [ {| lk_opts := opts; lk_table_prefix := table_prefix; lk_name := fname;
           lk_dfl := dfl; lk_off := off; lk_parser := p |} ]
  end.

Definition table_lookups (opts : Z) (fields : list ucs_config_field_t)
  (table_prefix : option string) (recurse : bool) : list lookup_t :=
  flat_map (field_lookups opts table_prefix recurse) fields.

(** The lookups of [ucs_config_parser_fill_opts], each with the prefix of
    its pass: the pass of the sub-prefix, when [env_prefix] has one, and
    then the pass of [env_prefix]. *)
Definition fill_lookups (opts : Z) (entry : ucs_config_global_list_entry_t)
  (env_prefix : string) : list (string * lookup_t) :=
  let lookups :=
    table_lookups opts (entry_table entry) (entry_prefix entry) true in
  match snd (ucs_config_parser_get_sub_prefix env_prefix) with
  | Some sub_prefix => map (pair sub_prefix) lookups
  | None => []
  end ++ map (pair env_prefix) lookups.

(** The branch of the field, run for a lookup under the prefix of its
    pass. *)
Definition apply_lookup (getenv : string -> option string)
  (file_vars : gmap string string) (ignore_errors : bool)
  (pl : string * lookup_t) (st : apply_state)
  : option ucs_status_t * apply_state :=
  apply_field getenv file_vars (lk_opts (snd pl)) (lk_name (snd pl))
    (lk_dfl (snd pl)) (lk_off (snd pl)) (lk_parser (snd pl)) (fst pl)
    (lk_table_prefix (snd pl)) ignore_errors st.

(** The lookups run one after the other, up to the first that returns. *)
Fixpoint apply_lookups (getenv : string -> option string)
  (file_vars : gmap string string) (ignore_errors : bool)
  (lookups : list (string * lookup_t)) (st : apply_state)
  : ucs_status_t * apply_state :=
  match lookups with
  | [] => (UCS_OK, st)
  | pl :: rest =>
      match apply_lookup getenv file_vars ignore_errors pl st with
      | (None, st') => apply_lookups getenv file_vars ignore_errors rest st'
      | (Some status, st') => (status, st')
      end
  end.

(** ** What a lookup finds *)

(** The first text present in a list of candidates. *)
Fixpoint first_present (texts : list (option string)) : option string :=
  match texts with
  | [] => None
  | Some t :: _ => Some t
  | None :: rest => first_present rest
  end.

(** The name of the variable of a lookup under [prefix]. *)
Definition lookup_var (prefix : string) (lookup : lookup_t) : string :=
  config_var_name prefix (lk_table_prefix lookup) (lk_name lookup).

(** The text that a lookup finds: the environment variable of the name
    when it is set, the entry of the file map under that name otherwise. *)
Definition lookup_text (getenv : string -> option string)
  (file_vars : gmap string string) (pl : string * lookup_t) : option string :=
  first_present [ getenv (lookup_var (fst pl) (snd pl));
                  file_vars !! lookup_var (fst pl) (snd pl) ].

(** The slot of a lookup; the lookup of a deprecated field stores
    nothing. *)
Definition lookup_addr (lookup : lookup_t) : Z := lk_opts lookup + lk_off lookup.

Definition lookup_stores (lookup : lookup_t) : bool :=
  negb (lk_off lookup =? UCS_CONFIG_DEPRECATED_FIELD_OFFSET).

(** The text that a lookup finds for the slot at address [a]. *)
Definition slot_text (getenv : string -> option string)
  (file_vars : gmap string string) (a : Z) (pl : string * lookup_t)
  : option (lookup_t * string) :=
  if (lookup_addr (snd pl) =? a) && lookup_stores (snd pl)
  then
    match lookup_text getenv file_vars pl with
    | Some t => Some (snd pl, t)
    | None => None
    end
  else None.

(** The lookup that decides the slot at address [a]: the last one, in the
    order of the lookups, that finds a text for the slot. *)
Definition deciding_text (getenv : string -> option string)
  (file_vars : gmap string string) (a : Z)
  (lookups : list (string * lookup_t)) : option (lookup_t * string) :=
  last (omap (slot_text getenv file_vars a) lookups).

(** Every text found by a lookup that stores is accepted by the parser of
    its field. *)
Definition lookup_accepted (getenv : string -> option string)
  (file_vars : gmap string string) (pl : string * lookup_t) : Prop :=
  lookup_stores (snd pl) = true ->
  forall t, lookup_text getenv file_vars pl = Some t ->
  exists v, accepts (lk_parser (snd pl)) t v.



(** ** The slots of a table *)

(** The addresses of the slots of the fields of a table and of its
    sub-tables; a deprecated field has none. *)
Fixpoint field_slots (opts : Z) (f : ucs_config_field_t) {struct f} : list Z :=
  match f with
  | Table _ _ off sub_fields => flat_map (field_slots (opts + off)) sub_fields
  | Field _ _ off _ =>
      if off =? UCS_CONFIG_DEPRECATED_FIELD_OFFSET then [] else [opts + off]
  end.

Definition table_slots (opts : Z) (fields : list ucs_config_field_t) : list Z :=
  flat_map (field_slots opts) fields.

(** ** The candidates of a field of the entry *)

(** The texts that [ucs_config_parser_fill_opts] can find for a field of
    the table of the entry, in the order of their priority: under
    [env_prefix], the environment variable and then the entry of the file
    map; when [env_prefix] has a sub-prefix, the environment variable and
    then the entry of the file map under the sub-prefix. *)
Definition field_candidates (getenv : string -> option string)
  (file_vars : gmap string string) (env_prefix : string)
  (table_prefix : option string) (fname : string) : list (option string) :=
  let full := config_var_name env_prefix table_prefix fname in
  [ getenv full; file_vars !! full ] ++
  match snd (ucs_config_parser_get_sub_prefix env_prefix) with
  | Some sub_prefix =>
      let sub := config_var_name sub_prefix table_prefix fname in
      [ getenv sub; file_vars !! sub ]
  | None => []
  end.

(** ** An entry with a sub-table, an alias and a deprecated field *)

(** A string [NAME], a signed [NUM], an unsigned [LEVEL] with the alias
    [LVL] at the same offset, the deprecated [OLD], and the sub-table [IB_]
    with the unsigned [QKEY]. *)
Definition device_fields : list ucs_config_field_t :=
  [ Field "NAME" (Some "abc") 0 UCS_CONFIG_TYPE_STRING;
    Field "NUM" (Some "1") 8 UCS_CONFIG_TYPE_INT;
    Field "LEVEL" (Some "2") 16 UCS_CONFIG_TYPE_UINT;
    Field "LVL" None 16 UCS_CONFIG_TYPE_UINT;
    Field "OLD" (Some "") UCS_CONFIG_DEPRECATED_FIELD_OFFSET
      UCS_CONFIG_TYPE_UINT;
    Table "IB_" (Some "") 64 [ Field "QKEY" (Some "0") 0 UCS_CONFIG_TYPE_UINT ] ].

Definition device_entry : ucs_config_global_list_entry_t :=
  {| entry_name := "device"; entry_prefix := Some "";
     entry_table := device_fields; entry_flags := 0 |}.

(** For the prefix [APP_UCX_]: the name is set in the environment and in
    the file map; the key is set under the sub-prefix in the environment
    and, with the name of the sub-table, under the full prefix in the file
    map; the level is set through its alias; the deprecated variable is
    set. *)
Definition env_device : gmap string string :=
  <[ "APP_UCX_NAME" := "env" ]>
    (<[ "UCX_QKEY" := "9" ]>
       (<[ "UCX_LVL" := "3" ]> {[ "APP_UCX_OLD" := "1" ]})).

Definition file_device : gmap string string :=
  <[ "APP_UCX_NAME" := "file" ]> {[ "APP_UCX_IB_QKEY" := "5" ]}.



(** ** The restore of a value that was backed up *)

(** [status_restore] at the assertion [ucs_assert(status_restore == UCS_OK)]
    ("current value must be valid") of
    [ucs_config_parser_set_value_internal], in the branch of a field whose
    name matches and that is not deprecated: [None] when the new value is
    accepted and the backup is not read, else the status of the read of the
    backup. *)
Definition set_value_field_status_restore (opts : Z) (off : Z)
  (p : ucs_config_parser_t) (value : string) (m : opts_t)
  : option ucs_status_t :=
  let var := opts + off in
  let '(ret, value_buf) := write p 255 (m !! var) in
  let m1 := release_with p var m in
  let '(status, m2) := parse_with p value var m1 in
  if status_eqb status UCS_OK then None
  else Some (fst (parse_with p value_buf var m2)).

(** A positive double whose default is below the three decimals that the
    writer prints. *)
Definition rate_fields : list ucs_config_field_t :=
  [ Field "RATE" (Some "0.0001") 0 UCS_CONFIG_TYPE_POS_DOUBLE ].

(* The definitions end here; the theorems follow. *)


(* ===================================================================== *)
(** * 10. Properties of the C library fragment                            *)
(* ===================================================================== *)

(** ** Bounded copies *)

Lemma str_take_all (n : nat) (s : string) :
  (String.length s <= n)%nat -> str_take n s = s.
Proof.
  revert n. induction s as [|c s IH]; intros [|n] Hn; simpl in *; try reflexivity.
  - lia.
  - f_equal. apply IH. lia.
Qed.

Lemma str_take_length (n : nat) (s : string) :
  (String.length (str_take n s) <= n)%nat.
Proof.
  revert s. induction n as [|n IH]; intros [|c s]; simpl; try lia.
  specialize (IH s). lia.
Qed.

Lemma str_take_idem (n : nat) (s : string) :
  str_take n (str_take n s) = str_take n s.
Proof. apply str_take_all, str_take_length. Qed.

Lemma str_drop_app (s1 s2 : string) :
  str_drop (String.length s1) (s1 +:+ s2) = s2.
Proof. induction s1 as [|c s1 IH]; simpl; [now destruct s2|exact IH]. Qed.

Lemma snprintf_fits (max : nat) (text : string) :
  (String.length text < max)%nat ->
  snprintf max text = (Z.of_nat (String.length text), text).
Proof.
  intros H. unfold snprintf. f_equal. apply str_take_all. lia.
Qed.

(** ** Characters *)

Lemma digit_char_is_digit (d : Z) :
  0 <= d < 10 -> is_digit (digit_char d) = true /\ digit_val (digit_char d) = d.
Proof.
  intros H.
  assert (d = 0 \/ d = 1 \/ d = 2 \/ d = 3 \/ d = 4 \/ d = 5 \/ d = 6 \/
          d = 7 \/ d = 8 \/ d = 9) as Hd by lia.
  repeat (destruct Hd as [-> | Hd]; [split; reflexivity|]).
  subst d. split; reflexivity.
Qed.

Lemma all_chars_spec (P : ascii -> bool) :
  all_chars P = true -> forall c, P c = true.
Proof.
  intros H c. unfold all_chars in H. rewrite forallb_forall in H.
  rewrite <- (ascii_nat_embedding c). apply H.
  apply in_seq. pose proof (nat_ascii_bounded c). lia.
Qed.

Lemma digit_not_space (c : ascii) : is_digit c = true -> is_space c = false.
Proof.
  revert c.
  assert (forall c, (negb (is_digit c) || negb (is_space c)) = true) as H
    by (apply all_chars_spec; vm_compute; reflexivity).
  intros c Hc. specialize (H c). rewrite Hc in H. simpl in H.
  now apply negb_true_iff.
Qed.

Lemma digit_not_sign (c : ascii) (r : string) :
  is_digit c = true -> scan_sign (String c r) = (false, String c r).
Proof.
  intros Hc.
  assert (forall c, (negb (is_digit c) ||
                     (negb (Ascii.eqb c "-") && negb (Ascii.eqb c "+"))) = true) as H
    by (apply all_chars_spec; vm_compute; reflexivity).
  specialize (H c). rewrite Hc in H. simpl in H.
  apply andb_true_iff in H as [H1 H2].
  apply negb_true_iff in H1, H2.
  unfold scan_sign. now rewrite H1, H2.
Qed.

Lemma base10_digit (c : ascii) :
  base_digit 10 c = if is_digit c then Some (digit_val c) else None.
Proof.
  assert (forall c,
    match base_digit 10 c, (if is_digit c then Some (digit_val c) else None) with
    | Some a, Some b => a =? b
    | None, None => true
    | _, _ => false
    end = true) as H by (apply all_chars_spec; vm_compute; reflexivity).
  specialize (H c).
  destruct (base_digit 10 c), (is_digit c); try discriminate; try reflexivity.
  apply Z.eqb_eq in H. now subst.
Qed.

Lemma scan_base10 (s : string) (acc : Z) :
  scan_base 10 s acc = scan_digits s acc.
Proof.
  revert acc. induction s as [|c s IH]; intros acc; simpl; [reflexivity|].
  rewrite base10_digit. destruct (is_digit c); [apply IH|reflexivity].
Qed.

(** ** Decimal conversions *)

Lemma utoa_aux_digit_head (fuel : nat) (n : Z) (acc : string) :
  0 <= n -> starts_with_digit acc = true ->
  starts_with_digit (utoa_aux fuel n acc) = true.
Proof.
  revert n acc. induction fuel as [|fuel IH]; intros n acc Hn Hacc; simpl.
  - exact Hacc.
  - assert (starts_with_digit (String (digit_char (n mod 10)) acc) = true) as Hd.
    { simpl. apply digit_char_is_digit. apply Z.mod_pos_bound. lia. }
    destruct (n / 10 =? 0); [exact Hd|].
    apply IH; [apply Z.div_pos; lia|exact Hd].
Qed.

Lemma utoa_digit_head (n : Z) : 0 <= n -> starts_with_digit (utoa n) = true.
Proof.
  intros Hn. unfold utoa. simpl.
  assert (starts_with_digit (String (digit_char (n mod 10)) "") = true) as Hd.
  { simpl. apply digit_char_is_digit. apply Z.mod_pos_bound. lia. }
  destruct (n / 10 =? 0); [exact Hd|].
  apply utoa_aux_digit_head; [apply Z.div_pos; lia|exact Hd].
Qed.

Lemma utoa_aux_length (fuel : nat) (n : Z) (acc : string) :
  (String.length (utoa_aux fuel n acc) <= fuel + String.length acc)%nat.
Proof.
  revert n acc. induction fuel as [|fuel IH]; intros n acc; simpl; [lia|].
  destruct (n / 10 =? 0); simpl; [lia|].
  specialize (IH (n / 10) (String (digit_char (n mod 10)) acc)). simpl in IH. lia.
Qed.

Lemma utoa_length (n : Z) :
  0 <= n < 2 ^ 64 -> (String.length (utoa n) <= 64)%nat.
Proof.
  intros Hn. unfold utoa.
  pose proof (utoa_aux_length (S (Z.to_nat (Z.log2 n))) n "") as H.
  change (String.length "") with O in H.
  assert (Z.log2 n < 64).
  { destruct (Z.eq_dec n 0) as [->|Hz]; [reflexivity|].
    apply Z.log2_lt_pow2; lia. }
  pose proof (Z.log2_nonneg n). lia.
Qed.

Lemma scan_utoa_aux (fuel : nat) (n : Z) (acc : string) :
  0 <= n < 10 ^ Z.of_nat fuel -> (0 < fuel)%nat ->
  scan_digits (utoa_aux fuel n acc) 0 = scan_digits acc n.
Proof.
  revert n acc. induction fuel as [|fuel IH]; intros n acc Hn Hf; [lia|].
  simpl utoa_aux.
  pose proof (Z.mod_pos_bound n 10 ltac:(lia)) as Hm.
  destruct (digit_char_is_digit (n mod 10) Hm) as [Hd Hv].
  pose proof (Z.div_mod n 10 ltac:(lia)) as Hdm.
  destruct (n / 10 =? 0) eqn:Hq.
  - apply Z.eqb_eq in Hq. simpl. rewrite Hd, Hv. f_equal. lia.
  - apply Z.eqb_neq in Hq.
    assert (0 < n / 10) as Hpos.
    { pose proof (Z.div_pos n 10 ltac:(lia) ltac:(lia)). lia. }
    assert (n / 10 < 10 ^ Z.of_nat fuel) as Hlt.
    { apply Z.div_lt_upper_bound; [lia|].
      replace (Z.of_nat (S fuel)) with (Z.of_nat fuel + 1) in Hn by lia.
      rewrite Z.pow_add_r in Hn by lia. lia. }
    assert (0 < fuel)%nat as Hf'.
    { destruct fuel; [simpl in Hlt; lia|lia]. }
    rewrite IH by (try lia). simpl. rewrite Hd, Hv. f_equal. lia.
Qed.

Lemma pow2_le_pow10 (k : Z) : 0 <= k -> 2 ^ k <= 10 ^ k.
Proof. intros Hk. apply Z.pow_le_mono_l. lia. Qed.

Lemma scan_utoa (n : Z) : 0 <= n -> scan_digits (utoa n) 0 = (n, "").
Proof.
  intros Hn. unfold utoa. rewrite scan_utoa_aux; [reflexivity| |lia].
  split; [lia|].
  rewrite Nat2Z.inj_succ, Z2Nat.id by apply Z.log2_nonneg.
  destruct (Z.eq_dec n 0) as [->|Hz]; [reflexivity|].
  pose proof (Z.log2_spec n ltac:(lia)) as [_ Hlt].
  pose proof (pow2_le_pow10 (Z.succ (Z.log2 n)) ltac:(pose proof (Z.log2_nonneg n); lia)).
  lia.
Qed.

Lemma utoa_aux_head_nonzero (fuel : nat) (n : Z) (acc : string) :
  0 < n < 10 ^ Z.of_nat fuel ->
  starts_with_zero (utoa_aux fuel n acc) = false.
Proof.
  revert n acc. induction fuel as [|fuel IH]; intros n acc Hn; [simpl in Hn; lia|].
  simpl utoa_aux.
  destruct (n / 10 =? 0) eqn:Hq.
  - apply Z.eqb_eq in Hq.
    assert (n mod 10 = n) as ->.
    { pose proof (Z.div_mod n 10 ltac:(lia)). lia. }
    assert (n < 10).
    { pose proof (Z.div_mod n 10 ltac:(lia)).
      pose proof (Z.mod_pos_bound n 10 ltac:(lia)). lia. }
    assert (n = 1 \/ n = 2 \/ n = 3 \/ n = 4 \/ n = 5 \/ n = 6 \/
            n = 7 \/ n = 8 \/ n = 9) as Hd by lia.
    repeat (destruct Hd as [-> | Hd]; [reflexivity|]). now subst.
  - apply Z.eqb_neq in Hq. apply IH.
    pose proof (Z.div_pos n 10 ltac:(lia) ltac:(lia)).
    split; [lia|].
    apply Z.div_lt_upper_bound; [lia|].
    replace (Z.of_nat (S fuel)) with (Z.of_nat fuel + 1) in Hn by lia.
    rewrite Z.pow_add_r in Hn by lia. lia.
Qed.

Lemma utoa_fuel_enough (n : Z) :
  0 <= n -> n < 10 ^ Z.of_nat (S (Z.to_nat (Z.log2 n))).
Proof.
  intros Hn.
  rewrite Nat2Z.inj_succ, Z2Nat.id by apply Z.log2_nonneg.
  destruct (Z.eq_dec n 0) as [->|Hz]; [reflexivity|].
  pose proof (Z.log2_spec n ltac:(lia)) as [_ Hlt].
  pose proof (pow2_le_pow10 (Z.succ (Z.log2 n)) ltac:(pose proof (Z.log2_nonneg n); lia)).
  lia.
Qed.

Lemma utoa_head_nonzero (n : Z) : 0 < n -> starts_with_zero (utoa n) = false.
Proof.
  intros Hn. apply utoa_aux_head_nonzero.
  split; [lia|apply utoa_fuel_enough; lia].
Qed.

(** A text that starts with a digit is converted from its first character. *)
Lemma skip_space_digit (s : string) :
  starts_with_digit s = true -> skip_space s = s.
Proof.
  destruct s as [|c r]; [discriminate|]. simpl. intros H.
  now rewrite (digit_not_space c H).
Qed.

Lemma scan_sign_digit (s : string) :
  starts_with_digit s = true -> scan_sign s = (false, s).
Proof.
  destruct s as [|c r]; [discriminate|]. simpl starts_with_digit.
  apply digit_not_sign.
Qed.

Lemma sscanf_unsigned_utoa (bits n : Z) :
  0 <= bits <= 64 -> 0 <= n < 2 ^ bits ->
  sscanf_unsigned bits (utoa n) = (1, Some n).
Proof.
  intros Hb Hn.
  pose proof (utoa_digit_head n ltac:(lia)) as Hd.
  unfold sscanf_unsigned.
  rewrite (skip_space_digit _ Hd), (scan_sign_digit _ Hd), Hd.
  rewrite scan_utoa by lia. simpl fst.
  assert (2 ^ bits <= 2 ^ 64) by (apply Z.pow_le_mono_r; lia).
  rewrite Z.min_l by lia. rewrite Z.mod_small by lia.
  destruct (utoa n); [discriminate|reflexivity].
Qed.

Lemma to_int32_small (z : Z) : - 2 ^ 31 <= z < 2 ^ 31 -> to_int32 z = z.
Proof. intros H. unfold to_int32. rewrite Z.mod_small; lia. Qed.

Lemma to_int32_range (z : Z) : - 2 ^ 31 <= to_int32 z < 2 ^ 31.
Proof.
  unfold to_int32. pose proof (Z.mod_pos_bound (z + 2 ^ 31) (2 ^ 32) ltac:(lia)). lia.
Qed.

Lemma digit_not_hex_prefix (s : string) :
  starts_with_zero s = false -> has_hex_prefix s = false.
Proof.
  destruct s as [|c [|x r]]; simpl; try reflexivity. now intros ->.
Qed.

Lemma sscanf_i_utoa (n : Z) :
  0 <= n < 2 ^ 31 -> sscanf_i (utoa n) = (1, Some n).
Proof.
  intros Hn.
  destruct (Z.eq_dec n 0) as [->|Hz]; [reflexivity|].
  pose proof (utoa_digit_head n ltac:(lia)) as Hd.
  pose proof (utoa_head_nonzero n ltac:(lia)) as Hnz.
  unfold sscanf_i.
  rewrite (skip_space_digit _ Hd), (scan_sign_digit _ Hd).
  rewrite (digit_not_hex_prefix _ Hnz), Hnz, Hd.
  rewrite scan_base10, scan_utoa by lia. simpl fst.
  rewrite Z.min_l by lia. rewrite to_int32_small by lia.
  destruct (utoa n); [discriminate|reflexivity].
Qed.

Lemma sscanf_i_itoa (z : Z) :
  - 2 ^ 31 <= z < 2 ^ 31 -> sscanf_i (itoa z) = (1, Some z).
Proof.
  intros Hz. unfold itoa.
  destruct (z <? 0) eqn:Hneg.
  - apply Z.ltb_lt in Hneg.
    pose proof (utoa_digit_head (- z) ltac:(lia)) as Hd.
    pose proof (utoa_head_nonzero (- z) ltac:(lia)) as Hnz.
    unfold sscanf_i.
    change (skip_space (String "-" (utoa (- z)))) with (String "-" (utoa (- z))).
    change (scan_sign (String "-" (utoa (- z)))) with (true, utoa (- z)).
    cbv beta iota.
    rewrite (digit_not_hex_prefix _ Hnz), Hnz, Hd.
    rewrite scan_base10, scan_utoa by lia. simpl fst.
    rewrite Z.max_l by lia. rewrite to_int32_small by lia.
    f_equal. f_equal. lia.
  - apply Z.ltb_ge in Hneg. apply sscanf_i_utoa. lia.
Qed.


(* ===================================================================== *)
(** * 11. Round trips of the scalar parsers                               *)
(* ===================================================================== *)

Lemma char_code_inj (a b : ascii) : char_code a = char_code b -> a = b.
Proof.
  unfold char_code. intros H. apply Nat2Z.inj in H.
  rewrite <- (ascii_nat_embedding a), <- (ascii_nat_embedding b). now f_equal.
Qed.

Lemma strcasecmp_head (a b : ascii) (r t : string) :
  strcasecmp (String a r) (String b t) = 0 -> to_lower a = to_lower b.
Proof.
  simpl. destruct (Ascii.eqb (to_lower a) (to_lower b)) eqn:E.
  - intros _. now apply Ascii.eqb_eq.
  - intros H. apply char_code_inj. lia.
Qed.

Lemma digit_to_lower (c : ascii) : is_digit c = true -> to_lower c = c.
Proof.
  assert (forall c, (negb (is_digit c) || Ascii.eqb (to_lower c) c) = true) as H
    by (apply all_chars_spec; vm_compute; reflexivity).
  intros Hc. specialize (H c). rewrite Hc in H. now apply Ascii.eqb_eq.
Qed.

(** A text that starts with a digit is none of the words the parsers look
    for, which start with a letter. *)
Lemma strcasecmp_digit_word (s : string) (c : ascii) (t : string) :
  starts_with_digit s = true -> is_digit (to_lower c) = false ->
  (strcasecmp s (String c t) =? 0) = false.
Proof.
  destruct s as [|d r]; [discriminate|]. simpl starts_with_digit. intros Hd Hc.
  apply Z.eqb_neq. intros H. apply strcasecmp_head in H.
  rewrite (digit_to_lower d Hd) in H. congruence.
Qed.

Lemma sscanf_unsigned_stores (bits : Z) (x : string) (o : option Z) :
  0 < bits -> sscanf_unsigned bits x = (1, o) ->
  exists z, o = Some z /\ 0 <= z < 2 ^ bits.
Proof.
  intros Hb. unfold sscanf_unsigned.
  destruct (skip_space x); [discriminate|].
  destruct (scan_sign _) as [neg s1].
  destruct (starts_with_digit s1); [|discriminate].
  intros H. inversion H. eexists. split; [reflexivity|].
  apply Z.mod_pos_bound. apply Z.pow_pos_nonneg; lia.
Qed.

Lemma store_int_success (r : Z * option Z) (dest : option value) (v : value)
  (bits : Z) (x : string) :
  0 < bits -> r = sscanf_unsigned bits x ->
  store_int r dest = (1, Some v) ->
  exists z, v = VInt z /\ 0 <= z < 2 ^ bits.
Proof.
  intros Hb -> H. unfold store_int in H.
  destruct (sscanf_unsigned bits x) as [ret o] eqn:E. simpl in H.
  destruct o as [z|].
  - inversion H; subst.
    destruct (sscanf_unsigned_stores bits x (Some z) Hb E) as (z' & Hz & Hr).
    inversion Hz; subst. eauto.
  - inversion H; subst.
    destruct (sscanf_unsigned_stores bits x None Hb E) as (z' & Hz & Hr).
    discriminate.
Qed.

Lemma utoa_nonempty (n : Z) : 0 <= n -> String.length (utoa n) <> O.
Proof.
  intros Hn. pose proof (utoa_digit_head n Hn) as H.
  destruct (utoa n); [discriminate|simpl; lia].
Qed.

Lemma snprintf_utoa (max : nat) (n : Z) :
  0 <= n < 2 ^ 64 -> (64 < max)%nat ->
  snprintf max (utoa n) = (Z.of_nat (String.length (utoa n)), utoa n).
Proof.
  intros Hn Hmax. apply snprintf_fits.
  pose proof (utoa_length n Hn). lia.
Qed.

Ltac fits := rewrite ?snprintf_fits by (simpl; lia).

(** Exposes the read and write functions of a parser table. *)
Ltac open_parser p :=
  unfold p, config_type in *; cbn [read write release] in *.

(** *** String *)

Lemma string_round_trips (max : nat) : round_trips UCS_CONFIG_TYPE_STRING max.
Proof.
  intros x old v H. open_parser UCS_CONFIG_TYPE_STRING. unfold ucs_config_sscanf_string in *.
  inversion H; subst. split; [discriminate|].
  intros old'. eexists. split; [reflexivity|].
  simpl. unfold strncpy. apply str_take_idem.
Qed.

(** *** Unsigned *)

Lemma uint_round_trips (max : nat) :
  (64 < max)%nat -> round_trips UCS_CONFIG_TYPE_UINT max.
Proof.
  intros Hmax x old v H. open_parser UCS_CONFIG_TYPE_UINT.
  assert (exists z, v = VInt z /\ 0 <= z < 2 ^ 32) as (z & -> & Hz).
  { unfold ucs_config_sscanf_uint in H.
    destruct (strcasecmp x UCS_NUMERIC_INF_STR =? 0).
    - inversion H. exists UINT_MAX. split; [reflexivity|]. unfold UINT_MAX. lia.
    - eapply store_int_success; [|reflexivity|exact H]. lia. }
  unfold ucs_config_sprintf_uint. simpl slot_int.
  destruct (z =? UINT_MAX) eqn:E.
  - split; [discriminate|]. intros old'. exists (VInt UINT_MAX).
    unfold UCS_NUMERIC_INF_STR. fits. simpl. split; reflexivity.
  - apply Z.eqb_neq in E.
    rewrite snprintf_utoa by lia. simpl.
    split; [pose proof (utoa_nonempty z); lia|].
    intros old'. exists (VInt z).
    unfold ucs_config_sscanf_uint, UCS_NUMERIC_INF_STR.
    rewrite (strcasecmp_digit_word (utoa z) "i" "nf")
      by (try apply utoa_digit_head; try reflexivity; lia).
    rewrite sscanf_unsigned_utoa by lia. simpl.
    apply Z.eqb_neq in E. rewrite E.
    rewrite snprintf_utoa by lia. split; reflexivity.
Qed.

Lemma store_int_inv (r : Z * option Z) (dest : option value) (v : value) :
  store_int r dest = (1, Some v) ->
  fst r = 1 /\
  ((exists z, snd r = Some z /\ v = VInt z) \/ (snd r = None /\ dest = Some v)).
Proof.
  unfold store_int. destruct r as [ret [z|]]; simpl; intros H; inversion H; subst.
  - split; [reflexivity|]. left. eauto.
  - split; [reflexivity|]. now right.
Qed.

(** *** Unsigned long and its units *)

Lemma ulong_reads (x : string) (old : option value) (v : value) :
  ucs_config_sscanf_ulong x old = (1, Some v) ->
  exists z, v = VInt z /\ 0 <= z < 2 ^ 64.
Proof.
  intros H. eapply (store_int_success _ _ _ 64); [lia|reflexivity|exact H].
Qed.

Lemma ulong_writes_back (max : nat) (z : Z) (old' : option value) :
  (64 < max)%nat -> 0 <= z < 2 ^ 64 ->
  ucs_config_sprintf_ulong max (Some (VInt z)) =
    (Z.of_nat (String.length (utoa z)), utoa z) /\
  ucs_config_sscanf_ulong (utoa z) old' = (1, Some (VInt z)).
Proof.
  intros Hmax Hz. unfold ucs_config_sprintf_ulong, ucs_config_sscanf_ulong.
  simpl slot_int. rewrite snprintf_utoa by lia.
  rewrite sscanf_unsigned_utoa by lia. split; reflexivity.
Qed.

Lemma ulong_round_trips (max : nat) :
  (64 < max)%nat -> round_trips UCS_CONFIG_TYPE_ULONG max.
Proof.
  intros Hmax x old v H. open_parser UCS_CONFIG_TYPE_ULONG.
  destruct (ulong_reads x old v H) as (z & -> & Hz).
  destruct (ulong_writes_back max z None Hmax Hz) as [Hw _].
  rewrite Hw. cbn [fst snd].
  split; [pose proof (utoa_nonempty z); lia|].
  intros old'. exists (VInt z).
  destruct (ulong_writes_back max z old' Hmax Hz) as [_ Hr].
  rewrite Hr, Hw. split; reflexivity.
Qed.

Lemma ulunits_round_trips (max : nat) :
  (64 < max)%nat -> round_trips UCS_CONFIG_TYPE_ULUNITS max.
Proof.
  intros Hmax x old v H. open_parser UCS_CONFIG_TYPE_ULUNITS.
  assert (exists z, v = VInt z /\ 0 <= z < 2 ^ 64) as (z & -> & Hz).
  { unfold ucs_config_sscanf_ulunits in H.
    destruct (strcasecmp x UCS_VALUE_AUTO_STR =? 0).
    { inversion H. eexists. split; [reflexivity|]. vm_compute. split; congruence. }
    destruct (strcasecmp x UCS_NUMERIC_INF_STR =? 0).
    { inversion H. eexists. split; [reflexivity|]. vm_compute. split; congruence. }
    eapply ulong_reads, H. }
  unfold ucs_config_sprintf_ulunits. simpl slot_int.
  destruct (z =? UCS_ULUNITS_AUTO) eqn:Ea.
  { apply Z.eqb_eq in Ea. subst z. unfold UCS_VALUE_AUTO_STR. fits.
    split; [discriminate|]. intros old'. exists (VInt UCS_ULUNITS_AUTO).
    split; reflexivity. }
  destruct (z =? UCS_ULUNITS_INF) eqn:Ei.
  { apply Z.eqb_eq in Ei. subst z. unfold UCS_NUMERIC_INF_STR. fits.
    split; [discriminate|]. intros old'. exists (VInt UCS_ULUNITS_INF).
    split; reflexivity. }
  destruct (ulong_writes_back max z None Hmax Hz) as [Hw _].
  rewrite Hw. cbn [fst snd].
  split; [pose proof (utoa_nonempty z); lia|].
  intros old'. exists (VInt z).
  destruct (ulong_writes_back max z old' Hmax Hz) as [_ Hr].
  unfold ucs_config_sscanf_ulunits, UCS_VALUE_AUTO_STR, UCS_NUMERIC_INF_STR.
  rewrite (strcasecmp_digit_word (utoa z) "a" "uto")
    by (try apply utoa_digit_head; try reflexivity; lia).
  rewrite (strcasecmp_digit_word (utoa z) "i" "nf")
    by (try apply utoa_digit_head; try reflexivity; lia).
  rewrite Hr. simpl slot_int. rewrite Ea, Ei, Hw. split; reflexivity.
Qed.

(** *** Signed *)

Lemma sscanf_i_stores (x : string) (o : option Z) :
  sscanf_i x = (1, o) -> exists z, o = Some z /\ - 2 ^ 31 <= z < 2 ^ 31.
Proof.
  unfold sscanf_i.
  destruct (skip_space x); [discriminate|].
  destruct (scan_sign _) as [neg s1].
  match goal with |- context [match ?m with Some _ => _ | None => _ end] =>
    destruct m end; [|discriminate].
  intros H. inversion H. eexists. split; [reflexivity|]. apply to_int32_range.
Qed.

Lemma itoa_length (z : Z) :
  - 2 ^ 31 <= z < 2 ^ 31 -> (String.length (itoa z) <= 65)%nat.
Proof.
  intros Hz. unfold itoa. destruct (z <? 0) eqn:E.
  - apply Z.ltb_lt in E. simpl. pose proof (utoa_length (- z) ltac:(lia)). lia.
  - apply Z.ltb_ge in E. pose proof (utoa_length z ltac:(lia)). lia.
Qed.

Lemma itoa_nonempty (z : Z) : String.length (itoa z) <> O.
Proof.
  unfold itoa. destruct (z <? 0) eqn:E; [simpl; lia|].
  apply Z.ltb_ge in E. now apply utoa_nonempty.
Qed.

Lemma int_round_trips (max : nat) :
  (65 < max)%nat -> round_trips UCS_CONFIG_TYPE_INT max.
Proof.
  intros Hmax x old v H. open_parser UCS_CONFIG_TYPE_INT.
  assert (exists z, v = VInt z /\ - 2 ^ 31 <= z < 2 ^ 31) as (z & -> & Hz).
  { unfold ucs_config_sscanf_int in H.
    apply store_int_inv in H as [Hret [(z & Hs & ->)|[Hs _]]].
    - destruct (sscanf_i x) as [ret o] eqn:E. simpl in *. subst.
      apply sscanf_i_stores in E as (z' & Hz' & Hr). inversion Hz'; subst. eauto.
    - destruct (sscanf_i x) as [ret o] eqn:E. simpl in *. subst.
      apply sscanf_i_stores in E as (z' & Hz' & Hr). discriminate. }
  assert (ucs_config_sprintf_int max (Some (VInt z)) =
          (Z.of_nat (String.length (itoa z)), itoa z)) as Hw.
  { unfold ucs_config_sprintf_int. simpl slot_int.
    rewrite to_int32_small by lia.
    apply snprintf_fits. pose proof (itoa_length z Hz). lia. }
  rewrite Hw. cbn [fst snd].
  split; [pose proof (itoa_nonempty z); lia|].
  intros old'. exists (VInt z). unfold ucs_config_sscanf_int.
  rewrite sscanf_i_itoa by lia. rewrite Hw. split; reflexivity.
Qed.

(** *** Booleans, ternaries, on/off/auto *)

(** The parsers of this group store one of a few constants; every case is
    closed by running the writer and the reader on it. *)
Ltac split_reads H :=
  repeat match type of H with
         | context [if ?c then _ else _] => destruct c
         end;
  inversion H; subst; clear H.

Ltac run_round_trip :=
  cbn [slot_int]; cbv beta iota; fits;
  split; [discriminate|];
  let old' := fresh "old'" in
  intros old'; eexists; split; [reflexivity|cbn [slot_int]; fits; reflexivity].

Lemma bool_round_trips (max : nat) :
  (64 < max)%nat -> round_trips UCS_CONFIG_TYPE_BOOL max.
Proof.
  intros Hmax x old v H. open_parser UCS_CONFIG_TYPE_BOOL.
  unfold ucs_config_sscanf_bool in H. split_reads H;
    unfold ucs_config_sprintf_bool; run_round_trip.
Qed.

Lemma ternary_round_trips (max : nat) :
  (64 < max)%nat -> round_trips UCS_CONFIG_TYPE_TERNARY max.
Proof.
  intros Hmax x old v H. open_parser UCS_CONFIG_TYPE_TERNARY.
  unfold ucs_config_sscanf_ternary, ucs_config_sscanf_bool in H. split_reads H;
    unfold ucs_config_sprintf_ternary_auto, ucs_config_sprintf_bool;
    run_round_trip.
Qed.

Lemma ternary_auto_round_trips (max : nat) :
  (64 < max)%nat -> round_trips UCS_CONFIG_TYPE_TERNARY_AUTO max.
Proof.
  intros Hmax x old v H. open_parser UCS_CONFIG_TYPE_TERNARY_AUTO.
  unfold ucs_config_sscanf_ternary_auto, ucs_config_sscanf_ternary,
    ucs_config_sscanf_bool in H.
  split_reads H;
    unfold ucs_config_sprintf_ternary_auto, ucs_config_sprintf_bool;
    run_round_trip.
Qed.

Lemma on_off_round_trips (max : nat) :
  (64 < max)%nat -> round_trips UCS_CONFIG_TYPE_ON_OFF max.
Proof.
  intros Hmax x old v H. open_parser UCS_CONFIG_TYPE_ON_OFF.
  unfold ucs_config_sscanf_on_off in H. split_reads H;
    unfold ucs_config_sprintf_on_off_auto; run_round_trip.
Qed.

Lemma on_off_auto_round_trips (max : nat) :
  (64 < max)%nat -> round_trips UCS_CONFIG_TYPE_ON_OFF_AUTO max.
Proof.
  intros Hmax x old v H. open_parser UCS_CONFIG_TYPE_ON_OFF_AUTO.
  unfold ucs_config_sscanf_on_off_auto, ucs_config_sscanf_on_off in H.
  split_reads H; unfold ucs_config_sprintf_on_off_auto; run_round_trip.
Qed.

(** *** Bitmask *)

Lemma popcount_mask (k : Z) :
  0 <= k < 64 -> popcount ((2 ^ k - 1) mod 2 ^ 32) = Z.min k 32.
Proof.
  intros Hk.
  assert (forallb (fun i => popcount ((2 ^ i - 1) mod 2 ^ 32) =? Z.min i 32)
            (map Z.of_nat (seq 0 64)) = true) as H by (vm_compute; reflexivity).
  rewrite forallb_forall in H. apply Z.eqb_eq, H.
  apply in_map_iff. exists (Z.to_nat k). split; [lia|]. apply in_seq. lia.
Qed.

Lemma bitmask_reads (x : string) (old : option value) (v : value) :
  ucs_config_sscanf_bitmask x old = (1, Some v) ->
  exists k, 0 <= k < 64 /\ v = VInt ((2 ^ k - 1) mod 2 ^ 32).
Proof.
  unfold ucs_config_sscanf_bitmask.
  destruct (store_int (sscanf_unsigned 32 x) old) as [ret dest1] eqn:E.
  destruct (slot_int dest1 =? 0) eqn:Hn.
  - intros H. inversion H; subst. apply Z.eqb_eq in Hn.
    eapply (store_int_success _ _ _ 32) in E as (z & -> & Hz); [|lia|reflexivity].
    simpl in Hn. subst. exists 0. split; [lia|reflexivity].
  - intros H. inversion H; subst. exists (slot_int dest1 mod 64).
    split; [apply Z.mod_pos_bound; lia|reflexivity].
Qed.

Lemma bitmask_writes_back (n : Z) (old' : option value) :
  0 <= n <= 32 ->
  ucs_config_sscanf_bitmask (utoa n) old' =
    (1, Some (VInt ((2 ^ n - 1) mod 2 ^ 32))).
Proof.
  intros Hn. unfold ucs_config_sscanf_bitmask.
  rewrite sscanf_unsigned_utoa by lia.
  unfold store_int. cbn [fst snd slot_int].
  destruct (n =? 0) eqn:E.
  - apply Z.eqb_eq in E. now subst.
  - unfold UCS_BIT. rewrite (Z.mod_small n 64) by lia. reflexivity.
Qed.

Lemma bitmask_round_trips (max : nat) :
  (64 < max)%nat -> round_trips UCS_CONFIG_TYPE_BITMASK max.
Proof.
  intros Hmax x old v H. open_parser UCS_CONFIG_TYPE_BITMASK.
  destruct (bitmask_reads x old v H) as (k & Hk & ->).
  assert (forall j, 0 <= j < 64 ->
            ucs_config_sprintf_bitmask max (Some (VInt ((2 ^ j - 1) mod 2 ^ 32))) =
            (Z.of_nat (String.length (utoa (Z.min j 32))), utoa (Z.min j 32)))
    as Hw.
  { intros j Hj. unfold ucs_config_sprintf_bitmask. cbn [slot_int].
    rewrite popcount_mask by lia. apply snprintf_utoa; lia. }
  rewrite (Hw k Hk). cbn [fst snd].
  split; [pose proof (utoa_nonempty (Z.min k 32)); lia|].
  intros old'. exists (VInt ((2 ^ Z.min k 32 - 1) mod 2 ^ 32)).
  rewrite bitmask_writes_back by lia. split; [reflexivity|].
  rewrite Hw by lia. cbn [snd]. f_equal. lia.
Qed.

(** *** Enumerations *)

Lemma find_in_list_range (str : string) (l : list string) (i : Z) :
  ucs_string_find_in_list str l i = -1 \/
  i <= ucs_string_find_in_list str l i < i + Z.of_nat (length l).
Proof.
  revert i. induction l as [|name l IH]; intros i; simpl; [now left|].
  destruct (strcasecmp name str =? 0); [right; lia|].
  destruct (IH (i + 1)) as [->|H]; [now left|right; lia].
Qed.

Lemma strcasecmp_refl (s : string) : strcasecmp s s = 0.
Proof.
  induction s as [|c s IH]; [reflexivity|].
  simpl. now rewrite Ascii.eqb_refl.
Qed.

(** The name at the index found for [str] is found at that index. *)
Lemma find_in_list_self (names : list string) (str : string) (i0 : Z) :
  case_distinct names ->
  0 <= i0 ->
  0 <= ucs_string_find_in_list str names i0 ->
  let name :=
    nth (Z.to_nat (ucs_string_find_in_list str names i0 - i0)) names "" in
  In name names /\
  ucs_string_find_in_list name names i0 =
    ucs_string_find_in_list str names i0.
Proof.
  revert i0. induction names as [|n names IH]; intros i0 Hd Hi0 Hfound.
  - simpl in Hfound. lia.
  - destruct Hd as [Hlater Hd]. cbn [ucs_string_find_in_list] in *.
    destruct (strcasecmp n str =? 0) eqn:E.
    + rewrite Z.sub_diag. cbn [Z.to_nat nth]. split; [now left|].
      now rewrite strcasecmp_refl.
    + pose proof (find_in_list_range str names (i0 + 1)) as Hr.
      destruct Hr as [Hr|Hr]; [lia|].
      destruct (IH (i0 + 1) Hd ltac:(lia) Hfound) as [Hin Hself].
      remember (ucs_string_find_in_list str names (i0 + 1)) as i eqn:Hi.
      clear Hi.
      replace (Z.to_nat (i - i0)) with (S (Z.to_nat (i - (i0 + 1)))) by lia.
      cbn [nth]. split; [now right|].
      rewrite Forall_forall in Hlater.
      assert (strcasecmp n (nth (Z.to_nat (i - (i0 + 1))) names "") <> 0)
        as Hne by now apply Hlater, list_elem_of_In.
      apply Z.eqb_neq in Hne. now rewrite Hne.
Qed.

(** Any enumeration whose names differ beyond the case of their letters and
    fit the buffer. *)
Lemma enum_round_trips (names : list string) (max : nat) :
  case_distinct names ->
  Forall (fun name => (String.length name <= max)%nat) names ->
  round_trips (UCS_CONFIG_TYPE_ENUM names) max.
Proof.
  intros Hd Hfit x old v H. open_parser UCS_CONFIG_TYPE_ENUM.
  unfold ucs_config_sscanf_enum in *.
  destruct (ucs_string_find_in_list x names 0 <? 0) eqn:E; [discriminate|].
  apply Z.ltb_ge in E. inversion H; subst. clear H.
  destruct (find_in_list_self names x 0 Hd ltac:(lia) E) as [Hin Hself].
  rewrite Z.sub_0_r in Hin, Hself.
  apply Z.ltb_ge in E.
  rewrite Forall_forall in Hfit.
  unfold ucs_config_sprintf_enum, strncpy, table_name. cbn [slot_int fst snd].
  split; [discriminate|]. intros old'.
  exists (VInt (ucs_string_find_in_list x names 0)).
  cbn [slot_int]. rewrite !E.
  rewrite str_take_all by now apply Hfit, list_elem_of_In.
  rewrite Hself, E. split; reflexivity.
Qed.

Lemma async_mode_names_distinct : case_distinct ucs_async_mode_names.
Proof.
  repeat (split; [repeat constructor; vm_compute; discriminate|]).
  exact I.
Qed.

Lemma async_mode_round_trips (max : nat) :
  (64 < max)%nat -> round_trips (UCS_CONFIG_TYPE_ENUM ucs_async_mode_names) max.
Proof.
  intros Hmax. apply enum_round_trips; [apply async_mode_names_distinct|].
  repeat constructor; simpl; lia.
Qed.

(** *** The claim on round trips *)

(** C8, as amended: for the string parser and the integer-valued scalar
    parsers (signed, unsigned, unsigned long and its units, boolean,
    ternary, ternary-auto, on/off, on/off/auto, bitmask, and any
    enumeration whose names differ beyond the case of their letters and fit
    the buffer), a text written from a value that the parser has read is
    read back and written again as the same text, in any buffer of more
    than 65 bytes. In particular the unsigned parser reads [inf] as
    [UINT_MAX] and writes [UINT_MAX] as [inf], and the ternary-auto parser
    reads [auto] and [try] and writes their values back as [auto] and
    [try]. *)
Theorem scalar_parsers_round_trip (max : nat) :
  (65 < max)%nat ->
  (round_trips UCS_CONFIG_TYPE_STRING max /\
   round_trips UCS_CONFIG_TYPE_INT max /\
   round_trips UCS_CONFIG_TYPE_UINT max /\
   round_trips UCS_CONFIG_TYPE_ULONG max /\
   round_trips UCS_CONFIG_TYPE_ULUNITS max /\
   round_trips UCS_CONFIG_TYPE_BOOL max /\
   round_trips UCS_CONFIG_TYPE_TERNARY max /\
   round_trips UCS_CONFIG_TYPE_TERNARY_AUTO max /\
   round_trips UCS_CONFIG_TYPE_ON_OFF max /\
   round_trips UCS_CONFIG_TYPE_ON_OFF_AUTO max /\
   round_trips UCS_CONFIG_TYPE_BITMASK max /\
   (forall names : list string,
      case_distinct names ->
      Forall (fun name => (String.length name <= max)%nat) names ->
      round_trips (UCS_CONFIG_TYPE_ENUM names) max)) /\
  ((forall old, ucs_config_sscanf_uint "inf" old = (1, Some (VInt UINT_MAX))) /\
   snd (ucs_config_sprintf_uint max (Some (VInt UINT_MAX))) = "inf") /\
  ((forall old,
      ucs_config_sscanf_ternary_auto "auto" old = (1, Some (VInt UCS_AUTO))) /\
   snd (ucs_config_sprintf_ternary_auto max (Some (VInt UCS_AUTO))) = "auto") /\
  ((forall old,
      ucs_config_sscanf_ternary_auto "try" old = (1, Some (VInt UCS_TRY))) /\
   snd (ucs_config_sprintf_ternary_auto max (Some (VInt UCS_TRY))) = "try").
Proof.
  intros Hmax. split; [|split; [|split]].
  - repeat apply conj.
    + apply string_round_trips.
    + apply int_round_trips; lia.
    + apply uint_round_trips; lia.
    + apply ulong_round_trips; lia.
    + apply ulunits_round_trips; lia.
    + apply bool_round_trips; lia.
    + apply ternary_round_trips; lia.
    + apply ternary_auto_round_trips; lia.
    + apply on_off_round_trips; lia.
    + apply on_off_auto_round_trips; lia.
    + apply bitmask_round_trips; lia.
    + intros names. apply enum_round_trips.
  - split; [reflexivity|].
    unfold ucs_config_sprintf_uint. cbn [slot_int]. cbv beta iota.
    change (UINT_MAX =? UINT_MAX) with true. cbv iota.
    unfold UCS_NUMERIC_INF_STR. fits. reflexivity.
  - split; [reflexivity|].
    unfold ucs_config_sprintf_ternary_auto. cbn [slot_int].
    change (UCS_AUTO =? UCS_AUTO) with true. cbv iota.
    unfold UCS_VALUE_AUTO_STR. fits. reflexivity.
  - split; [reflexivity|].
    unfold ucs_config_sprintf_ternary_auto. cbn [slot_int].
    change (UCS_TRY =? UCS_AUTO) with false.
    change (UCS_TRY =? UCS_TRY) with true. cbv iota.
    fits. reflexivity.
Qed.

(** The round trips in the 256-byte buffers that the source uses. *)
Lemma scalar_parsers_round_trip_256 :
  (round_trips UCS_CONFIG_TYPE_STRING 256 /\
   round_trips UCS_CONFIG_TYPE_INT 256 /\
   round_trips UCS_CONFIG_TYPE_UINT 256 /\
   round_trips UCS_CONFIG_TYPE_ULONG 256 /\
   round_trips UCS_CONFIG_TYPE_ULUNITS 256 /\
   round_trips UCS_CONFIG_TYPE_BOOL 256 /\
   round_trips UCS_CONFIG_TYPE_TERNARY 256 /\
   round_trips UCS_CONFIG_TYPE_TERNARY_AUTO 256 /\
   round_trips UCS_CONFIG_TYPE_ON_OFF 256 /\
   round_trips UCS_CONFIG_TYPE_ON_OFF_AUTO 256 /\
   round_trips UCS_CONFIG_TYPE_BITMASK 256 /\
   (forall names : list string,
      case_distinct names ->
      Forall (fun name => (String.length name <= 256)%nat) names ->
      round_trips (UCS_CONFIG_TYPE_ENUM names) 256)) /\
  ((forall old, ucs_config_sscanf_uint "inf" old = (1, Some (VInt UINT_MAX))) /\
   snd (ucs_config_sprintf_uint 256 (Some (VInt UINT_MAX))) = "inf") /\
  ((forall old,
      ucs_config_sscanf_ternary_auto "auto" old = (1, Some (VInt UCS_AUTO))) /\
   snd (ucs_config_sprintf_ternary_auto 256 (Some (VInt UCS_AUTO))) = "auto") /\
  ((forall old,
      ucs_config_sscanf_ternary_auto "try" old = (1, Some (VInt UCS_TRY))) /\
   snd (ucs_config_sprintf_ternary_auto 256 (Some (VInt UCS_TRY))) = "try").
Proof. apply (scalar_parsers_round_trip 256). lia. Defined.

(** C8, as stated, fails for the positive double: [0.0001] is read, it is
    written with three decimals as [0.000], and that text is rejected
    because its value is not positive. *)
Lemma pos_double_text_not_read_back :
  exists v : value,
    read UCS_CONFIG_TYPE_POS_DOUBLE "0.0001" None = (1, Some v) /\
    write UCS_CONFIG_TYPE_POS_DOUBLE 256 (Some v) = (5, "0.000") /\
    fst (read UCS_CONFIG_TYPE_POS_DOUBLE "0.000" (Some v)) = 0.
Proof.
  exists (VDouble (decimal_to_double false 1 4)).
  repeat split; vm_compute; reflexivity.
Qed.

(** The range parser reads its bounds as unsigned and prints them signed: a
    bound of 2^31 or more is written with a minus sign, and that text is
    not read back. *)
Lemma range_spec_text_not_read_back :
  read UCS_CONFIG_TYPE_RANGE_SPEC "4000000000" None =
    (1, Some (VRange 4000000000 4000000000)) /\
  write UCS_CONFIG_TYPE_RANGE_SPEC 256 (Some (VRange 4000000000 4000000000)) =
    (1, "-294967296") /\
  fst (read UCS_CONFIG_TYPE_RANGE_SPEC "-294967296"
         (Some (VRange 4000000000 4000000000))) = 0.
Proof. repeat split; vm_compute; reflexivity. Qed.


(* ===================================================================== *)
(** * 12. The sub-prefix                                                  *)
(* ===================================================================== *)

Lemma get_app_left (s1 s2 : string) (n : nat) :
  (n < String.length s1)%nat -> String.get n (s1 +:+ s2) = String.get n s1.
Proof.
  revert n. induction s1 as [|c s1 IH]; intros n Hn; simpl in *; [lia|].
  destruct n as [|n]; [reflexivity|]. apply IH. lia.
Qed.

Lemma get_app_right (s1 s2 : string) (n : nat) :
  String.get (String.length s1 + n) (s1 +:+ s2) = String.get n s2.
Proof. induction s1 as [|c s1 IH]; simpl; [reflexivity|exact IH]. Qed.

Lemma length_app (s1 s2 : string) :
  String.length (s1 +:+ s2) = (String.length s1 + String.length s2)%nat.
Proof. induction s1 as [|c s1 IH]; simpl; [reflexivity|now rewrite IH]. Qed.

Lemma append_assoc_str (s1 s2 s3 : string) :
  s1 +:+ s2 +:+ s3 = (s1 +:+ s2) +:+ s3.
Proof.
  induction s1 as [|c s1 IH]; [reflexivity|].
  change (String c (s1 +:+ s2 +:+ s3) = String c ((s1 +:+ s2) +:+ s3)).
  now f_equal.
Qed.

(** A string without underscore has none at any index. *)
Lemma strchr_none_get (s : string) (c : ascii) (n : nat) :
  strchr s c = None -> String.get n s <> Some c.
Proof.
  revert n. induction s as [|d s IH]; intros n; simpl; [discriminate|].
  destruct (Ascii.eqb d c) eqn:E; [discriminate|].
  destruct (strchr s c) eqn:Hs; [discriminate|]. intros _.
  destruct n as [|n]; [|now apply IH].
  intros H. inversion H; subst. now rewrite Ascii.eqb_refl in E.
Qed.

(** The scan stops below an underscore, and runs through a stretch that has
    none. *)
Lemma sub_prefix_scan_stop (s : string) (k : nat) :
  String.get k s = Some "_"%char -> sub_prefix_scan s (S k) = S k.
Proof. intros H. simpl. now rewrite H. Qed.

Lemma sub_prefix_scan_skip (s : string) (k n : nat) :
  (k <= n)%nat ->
  (forall j, (k <= j < n)%nat -> String.get j s <> Some "_"%char) ->
  sub_prefix_scan s n = sub_prefix_scan s k.
Proof.
  intros Hkn. induction n as [|n IH]; intros Hfree.
  - now replace k with O by lia.
  - destruct (Nat.eq_dec k (S n)) as [->|Hne]; [reflexivity|].
    simpl. specialize (Hfree n ltac:(lia)) as Hn.
    destruct (String.get n s) as [c|] eqn:Hc.
    + destruct (Ascii.eqb c "_") eqn:E.
      * apply Ascii.eqb_eq in E. congruence.
      * apply IH; [lia|]. intros j Hj. apply Hfree. lia.
    + apply IH; [lia|]. intros j Hj. apply Hfree. lia.
Qed.

Lemma sub_prefix_scan_free (s : string) (n : nat) :
  (forall j, (j < n)%nat -> String.get j s <> Some "_"%char) ->
  sub_prefix_scan s n = O.
Proof.
  intros H. rewrite (sub_prefix_scan_skip s 0 n); [reflexivity|lia|].
  intros j Hj. apply H. lia.
Qed.

(** A prefix made of a head, an underscore, a non-empty segment without
    underscore and the final underscore: the sub-prefix is the segment with
    its underscore. *)
Lemma sub_prefix_two_segments (A B : string) :
  B <> "" -> strchr B "_" = None ->
  ucs_config_parser_get_sub_prefix (A +:+ "_" +:+ B +:+ "_") =
    (UCS_OK, Some (B +:+ "_")).
Proof.
  intros HB Hfree. unfold ucs_config_parser_get_sub_prefix.
  remember (A +:+ "_" +:+ B +:+ "_") as s eqn:Hs.
  assert (String.length s = (String.length A + 1 + String.length B + 1)%nat) as Hlen.
  { subst s. rewrite !length_app. simpl. lia. }
  assert (String.length B <> O) as HBlen by (destruct B; [congruence|simpl; lia]).
  destruct (String.length s <? 2)%nat eqn:E; [apply Nat.ltb_lt in E; lia|].
  assert (sub_prefix_scan s (String.length s - 2) = S (String.length A)) as ->.
  { rewrite (sub_prefix_scan_skip s (S (String.length A))); [| lia |].
    - apply sub_prefix_scan_stop. subst s.
      replace (String.length A) with (String.length A + 0)%nat at 1 by lia.
      now rewrite get_app_right.
    - intros j Hj. subst s.
      replace j with (String.length A + S (j - S (String.length A)))%nat by lia.
      rewrite get_app_right.
      change ("_" +:+ B +:+ "_") with (String "_" (B +:+ "_")).
      cbn [String.get].
      rewrite get_app_left by lia. now apply strchr_none_get. }
  simpl Nat.ltb. cbv iota. f_equal. f_equal. subst s.
  replace (S (String.length A)) with (String.length (A +:+ "_"))
    by (rewrite length_app; simpl; lia).
  rewrite (append_assoc_str A "_" (B +:+ "_")).
  apply str_drop_app.
Qed.

(** A single segment and its underscore: no sub-prefix. *)
Lemma sub_prefix_one_segment (A : string) :
  A <> "" -> strchr A "_" = None ->
  ucs_config_parser_get_sub_prefix (A +:+ "_") = (UCS_OK, None).
Proof.
  intros HA Hfree. unfold ucs_config_parser_get_sub_prefix.
  assert (String.length A <> O) as HAlen by (destruct A; [congruence|simpl; lia]).
  rewrite length_app. simpl String.length.
  destruct (String.length A + 1 <? 2)%nat eqn:E; [apply Nat.ltb_lt in E; lia|].
  rewrite sub_prefix_scan_free; [reflexivity|].
  intros j Hj. rewrite get_app_left by lia. now apply strchr_none_get.
Qed.

(** No underscore at all, and at least two characters: no sub-prefix, and
    no error. *)
Lemma sub_prefix_no_separator (s : string) :
  strchr s "_" = None -> (2 <= String.length s)%nat ->
  ucs_config_parser_get_sub_prefix s = (UCS_OK, None).
Proof.
  intros Hfree Hlen. unfold ucs_config_parser_get_sub_prefix.
  destruct (String.length s <? 2)%nat eqn:E; [apply Nat.ltb_lt in E; lia|].
  rewrite sub_prefix_scan_free; [reflexivity|].
  intros j _. now apply strchr_none_get.
Qed.

(** Fewer than two characters: the prefix is refused. *)
Lemma sub_prefix_too_short (s : string) :
  (String.length s < 2)%nat ->
  ucs_config_parser_get_sub_prefix s = (UCS_ERR_INVALID_PARAM, None).
Proof.
  intros H. unfold ucs_config_parser_get_sub_prefix.
  apply Nat.ltb_lt in H. now rewrite H.
Qed.

(** C6, as amended: for a prefix ["<A>_<B>_"] whose last segment [B] is not
    empty and has no underscore the sub-prefix is ["<B>_"]; for a single
    segment followed by its underscore the sub-prefix is absent; for a
    prefix of two characters or more without underscore the sub-prefix is
    absent and the status is OK; a prefix of fewer than two characters is
    refused with InvalidParam. *)
Theorem get_sub_prefix_cases :
  (forall A B : string, B <> "" -> strchr B "_" = None ->
     ucs_config_parser_get_sub_prefix (A +:+ "_" +:+ B +:+ "_") =
       (UCS_OK, Some (B +:+ "_"))) /\
  (forall A : string, A <> "" -> strchr A "_" = None ->
     ucs_config_parser_get_sub_prefix (A +:+ "_") = (UCS_OK, None)) /\
  (forall s : string, strchr s "_" = None -> (2 <= String.length s)%nat ->
     ucs_config_parser_get_sub_prefix s = (UCS_OK, None)) /\
  (forall s : string, (String.length s < 2)%nat ->
     ucs_config_parser_get_sub_prefix s = (UCS_ERR_INVALID_PARAM, None)).
Proof.
  repeat apply conj.
  - apply sub_prefix_two_segments.
  - apply sub_prefix_one_segment.
  - apply sub_prefix_no_separator.
  - apply sub_prefix_too_short.
Qed.

(** The four cases on the prefixes [UCX_IB_], [UCX_], [UCX] and [X]. *)
Lemma get_sub_prefix_cases_examples :
  ucs_config_parser_get_sub_prefix "UCX_IB_" = (UCS_OK, Some "IB_") /\
  ucs_config_parser_get_sub_prefix "UCX_" = (UCS_OK, None) /\
  ucs_config_parser_get_sub_prefix "UCX" = (UCS_OK, None) /\
  ucs_config_parser_get_sub_prefix "X" = (UCS_ERR_INVALID_PARAM, None).
Proof.
  destruct get_sub_prefix_cases as (H2 & H1 & H0 & Hshort).
  repeat apply conj.
  - apply (H2 "UCX" "IB"); [discriminate|reflexivity].
  - apply (H1 "UCX"); [discriminate|reflexivity].
  - apply (H0 "UCX"); [reflexivity|simpl; lia].
  - apply (Hshort "X"). simpl. lia.
Defined.

(** C6, as stated, fails on a prefix without underscore that is shorter
    than two characters: the function returns an error. *)
Lemma sub_prefix_short_prefix_is_an_error :
  strchr "X" "_" = None /\
  fst (ucs_config_parser_get_sub_prefix "X") = UCS_ERR_INVALID_PARAM.
Proof. split; reflexivity. Qed.


(* ===================================================================== *)
(** * 13. Arrays                                                          *)
(* ===================================================================== *)

(** With [i] elements stored and at least [array_max - i] tokens left that
    the element parser takes, the loop stores exactly the next
    [array_max - i] tokens and leaves through the [break]. *)
Lemma sscanf_array_loop_full (array_max : nat) (array : ucs_config_array_t)
  (toks : list string) (i : nat) (temp_field : list value) :
  (i < array_max)%nat ->
  (array_max - i <= length toks)%nat ->
  (forall token, In token (take (array_max - i) toks) ->
     fst (read (elem_parser array) token (Some VZero)) <> 0) ->
  sscanf_array_loop array_max array toks i temp_field =
    Some (temp_field ++ map (array_element array) (take (array_max - i) toks)).
Proof.
  revert i temp_field.
  induction toks as [|token rest IH]; intros i temp_field Hi Hlen Hok.
  - simpl in Hlen. lia.
  - simpl sscanf_array_loop.
    destruct (array_max - i)%nat as [|k] eqn:Hk; [lia|].
    assert (fst (read (elem_parser array) token (Some VZero)) <> 0) as Hret.
    { apply Hok. simpl. now left. }
    destruct (read (elem_parser array) token (Some VZero)) as [ret slot] eqn:Hrd.
    simpl in Hret. apply Z.eqb_neq in Hret. rewrite Hret.
    assert (array_element array token = default VZero slot) as Hel
      by (unfold array_element; now rewrite Hrd).
    destruct (array_max <=? S i)%nat eqn:Hmax.
    + apply Nat.leb_le in Hmax. assert (k = O) as -> by lia.
      simpl. now rewrite Hel.
    + apply Nat.leb_gt in Hmax.
      rewrite IH; [| lia | simpl in Hlen; lia |].
      * replace (array_max - S i)%nat with k by lia.
        simpl. rewrite Hel, <- app_assoc. reflexivity.
      * intros t Ht. apply Hok. simpl. right.
        now replace k with (array_max - S i)%nat by lia.
Qed.

(** C7: when the input has more than [array_max] tokens and the element
    parser takes each of the first [array_max] (its read does not return
    0), the array read stores the elements read from exactly these tokens,
    sets the count to [array_max] and returns 1. [array_max] is the bound
    [UCS_CONFIG_ARRAY_MAX], any positive number. *)
Theorem sscanf_array_stops_at_max (array_max : nat)
  (array : ucs_config_array_t) (buf : string) (dest : option value) :
  (0 < array_max)%nat ->
  (array_max < length (strtok_all "," buf))%nat ->
  (forall token, In token (take array_max (strtok_all "," buf)) ->
     fst (read (elem_parser array) token (Some VZero)) <> 0) ->
  ucs_config_sscanf_array array_max array buf dest =
    (1, Some (VArray (map (array_element array)
                        (take array_max (strtok_all "," buf))))) /\
  array_count (snd (ucs_config_sscanf_array array_max array buf dest)) =
    array_max.
Proof.
  intros Hpos Hlen Hok.
  assert (ucs_config_sscanf_array array_max array buf dest =
          (1, Some (VArray (map (array_element array)
                              (take array_max (strtok_all "," buf)))))) as Heq.
  { unfold ucs_config_sscanf_array.
    rewrite (sscanf_array_loop_full array_max array _ 0 []); try lia.
    - now rewrite Nat.sub_0_r.
    - now rewrite Nat.sub_0_r. }
  split; [exact Heq|].
  rewrite Heq. unfold array_count. simpl.
  rewrite length_map, length_take. lia.
Qed.

(** Three unsigned tokens and a bound of two: the first two are stored. *)
Lemma sscanf_array_stops_at_max_example :
  ucs_config_sscanf_array 2 {| elem_parser := UCS_CONFIG_TYPE_UINT |}
    "1,2,3" None = (1, Some (VArray [VInt 1; VInt 2])) /\
  array_count
    (snd (ucs_config_sscanf_array 2 {| elem_parser := UCS_CONFIG_TYPE_UINT |}
            "1,2,3" None)) = 2%nat.
Proof.
  apply (sscanf_array_stops_at_max 2 {| elem_parser := UCS_CONFIG_TYPE_UINT |}
           "1,2,3" None).
  - lia.
  - vm_compute. lia.
  - intros token [<- | [<- | []]]; vm_compute; discriminate.
Defined.


(* ===================================================================== *)
(** * 14. The field resolver                                              *)
(* ===================================================================== *)

(** ** Slots *)

Lemma store_slot_same (var : Z) (slot : option value) (m : opts_t) :
  store_slot var slot m !! var = slot.
Proof.
  unfold store_slot. destruct slot; [apply lookup_insert_eq|apply lookup_delete_eq].
Qed.

Lemma store_slot_other (var a : Z) (slot : option value) (m : opts_t) :
  a <> var -> store_slot var slot m !! a = m !! a.
Proof.
  intros H. unfold store_slot.
  destruct slot; [now apply lookup_insert_ne|now apply lookup_delete_ne].
Qed.

(** Storing twice keeps the second content; storing what the slot holds
    changes nothing. *)
Lemma store_slot_twice (var : Z) (s1 s2 : option value) (m : opts_t) :
  store_slot var s2 (store_slot var s1 m) = store_slot var s2 m.
Proof.
  apply map_eq. intros a. destruct (Z.eq_dec a var) as [->|Hne].
  - now rewrite !store_slot_same.
  - now rewrite !store_slot_other.
Qed.

Lemma store_slot_id (var : Z) (m : opts_t) : store_slot var (m !! var) m = m.
Proof.
  apply map_eq. intros a. destruct (Z.eq_dec a var) as [->|Hne].
  - now rewrite store_slot_same.
  - now rewrite store_slot_other.
Qed.

Lemma parse_with_accepts (p : ucs_config_parser_t) (text : string) (v : value)
  (var : Z) (m : opts_t) :
  accepts p text v ->
  parse_with p text var m = (UCS_OK, store_slot var (Some v) m).
Proof. intros H. unfold parse_with. now rewrite H. Qed.

Lemma parse_with_rejects (p : ucs_config_parser_t) (text : string)
  (var : Z) (m : opts_t) :
  rejects p text ->
  parse_with p text var m =
    (UCS_ERR_INVALID_PARAM, store_slot var (snd (read p text (m !! var))) m).
Proof.
  intros H. unfold parse_with. specialize (H (m !! var)).
  destruct (read p text (m !! var)) as [ret slot]. simpl in *.
  apply Z.eqb_neq in H. now rewrite H.
Qed.

(** ** The loop *)

Lemma set_value_loop_passed_over (fnmatch : fnmatch_t) (opts : Z)
  (name user_value : string) (table_prefix : option string) (recurse : bool)
  (pre rest : list ucs_config_field_t) (count : nat) (m : opts_t) :
  Forall (passed_over fnmatch table_prefix name) pre ->
  set_value_loop (set_value_step fnmatch opts name user_value table_prefix recurse)
    (pre ++ rest) count m =
  set_value_loop (set_value_step fnmatch opts name user_value table_prefix recurse)
    rest count m.
Proof.
  induction 1 as [|g pre Hg _ IH]; [reflexivity|].
  destruct g as [gname gdfl goff gp|]; [|destruct Hg].
  simpl in Hg. cbn [app set_value_loop set_value_step].
  unfold set_value_field. rewrite Hg. exact IH.
Qed.

(** A match on a deprecated field leaves the function at once. *)
Lemma set_value_field_deprecated (fnmatch : fnmatch_t) (opts : Z)
  (fname : string) (p : ucs_config_parser_t) (name user_value : string)
  (table_prefix : option string) (count : nat) (m : opts_t) :
  ucs_config_prefix_name_match fnmatch table_prefix
    (prefix_length table_prefix) fname name = true ->
  set_value_field fnmatch opts fname UCS_CONFIG_DEPRECATED_FIELD_OFFSET p
    name user_value table_prefix count m = Return UCS_ERR_NO_ELEM m.
Proof. intros H. unfold set_value_field. now rewrite H, Z.eqb_refl. Qed.

(** A match on a field whose parser rejects the value: the backup is read
    back and the function returns the failure. *)
Lemma set_value_field_rejected (fnmatch : fnmatch_t) (opts : Z)
  (fname : string) (off : Z) (p : ucs_config_parser_t) (name user_value : string)
  (table_prefix : option string) (count : nat) (m : opts_t) (v : value) :
  ucs_config_prefix_name_match fnmatch table_prefix
    (prefix_length table_prefix) fname name = true ->
  off <> UCS_CONFIG_DEPRECATED_FIELD_OFFSET ->
  m !! (opts + off) = Some v ->
  rejects p user_value ->
  accepts p (snd (write p 255 (Some v))) v ->
  set_value_field fnmatch opts fname off p name user_value table_prefix count m =
    Return UCS_ERR_INVALID_PARAM m.
Proof.
  intros Hmatch Hoff Hv Hrej Hback. unfold set_value_field.
  rewrite Hmatch. apply Z.eqb_neq in Hoff. rewrite Hoff, Hv.
  destruct (write p 255 (Some v)) as [ret value_buf] eqn:Hw. simpl in Hback.
  rewrite (parse_with_rejects p user_value) by exact Hrej.
  cbn [status_eqb].
  rewrite (parse_with_accepts p value_buf v) by exact Hback.
  f_equal. unfold release_with. rewrite !store_slot_twice.
  rewrite <- Hv. apply store_slot_id.
Qed.

(** When the fields before the matching field are fields, not tables,
    whose names do not match, the matching field is not deprecated and its
    parser rejects the value, [set_value] returns InvalidParam; the slot is
    restored by reading the backup text (the prior value as the writer
    renders it in 255 bytes), and the option structure is as before when
    the parser reads that text back as the prior value. *)
Lemma set_value_rejected_restores (fnmatch : fnmatch_t) (opts : Z)
  (pre post : list ucs_config_field_t) (fname : string) (dfl : option string)
  (off : Z) (p : ucs_config_parser_t) (prefix : option string)
  (name user_value : string) (m : opts_t) (v : value) :
  Forall (passed_over fnmatch prefix name) pre ->
  ucs_config_prefix_name_match fnmatch prefix (prefix_length prefix)
    fname name = true ->
  off <> UCS_CONFIG_DEPRECATED_FIELD_OFFSET ->
  m !! (opts + off) = Some v ->
  rejects p user_value ->
  accepts p (snd (write p 255 (Some v))) v ->
  ucs_config_parser_set_value fnmatch opts
    (pre ++ Field fname dfl off p :: post) prefix name user_value m =
    (UCS_ERR_INVALID_PARAM, m).
Proof.
  intros Hpre Hmatch Hoff Hv Hrej Hback.
  unfold ucs_config_parser_set_value, ucs_config_parser_set_value_internal.
  rewrite set_value_loop_passed_over by exact Hpre.
  cbn [set_value_loop set_value_step].
  now rewrite (set_value_field_rejected _ _ _ _ _ _ _ _ _ _ v).
Qed.

(** The mode field holds [signal]; the value [banana] is refused and the
    structure is as before. *)
Lemma set_value_rejected_restores_example :
  ucs_config_parser_set_value fnmatch_glob 4096 mode_fields None
    "MODE" "banana" {[ 4096 := VInt 0 ]} =
    (UCS_ERR_INVALID_PARAM, {[ 4096 := VInt 0 ]}).
Proof.
  apply (set_value_rejected_restores fnmatch_glob 4096 [] [] "MODE"
           (Some "signal") 0 (UCS_CONFIG_TYPE_ENUM ucs_async_mode_names)
           None "MODE" "banana" {[ 4096 := VInt 0 ]} (VInt 0)).
  - constructor.
  - reflexivity.
  - discriminate.
  - reflexivity.
  - intros old. vm_compute. discriminate.
  - intros old. reflexivity.
Qed.

(** C3 fails on the code. The backup of the current value is the text that
    the writer renders, and the writer of a double prints three decimals.
    A positive double that holds its default [0.0001] is backed up as
    [0.000]; after the value [banana] is refused, the read of the backup is
    refused too, because 0 is not positive: [status_restore] is not OK,
    against the assertion that "current value must be valid", and the slot
    holds 0, not the value it had. A double that holds [0.12345] is backed
    up as [0.123]: the restore succeeds, and the slot holds a smaller
    number than before. *)
Theorem set_value_rejected_not_restored :
  (exists d d' : float,
     ucs_config_parser_set_default_values fnmatch_glob 4096 rate_fields ∅ =
       (UCS_OK, {[ 4096 := VDouble d ]}) /\
     write UCS_CONFIG_TYPE_POS_DOUBLE 255 (Some (VDouble d)) = (5, "0.000") /\
     ucs_config_parser_set_value fnmatch_glob 4096 rate_fields None
       "RATE" "banana" {[ 4096 := VDouble d ]} =
       (UCS_ERR_INVALID_PARAM, {[ 4096 := VDouble d' ]}) /\
     set_value_field_status_restore 4096 0 UCS_CONFIG_TYPE_POS_DOUBLE
       "banana" {[ 4096 := VDouble d ]} = Some UCS_ERR_INVALID_PARAM /\
     PrimFloat.ltb d' d = true) /\
  (exists d d' : float,
     ucs_config_parser_set_default_values fnmatch_glob 4096 ratio_fields ∅ =
       (UCS_OK, {[ 4096 := VDouble d ]}) /\
     write UCS_CONFIG_TYPE_DOUBLE 255 (Some (VDouble d)) = (5, "0.123") /\
     ucs_config_parser_set_value fnmatch_glob 4096 ratio_fields None
       "RATIO" "banana" {[ 4096 := VDouble d ]} =
       (UCS_ERR_INVALID_PARAM, {[ 4096 := VDouble d' ]}) /\
     set_value_field_status_restore 4096 0 UCS_CONFIG_TYPE_DOUBLE
       "banana" {[ 4096 := VDouble d ]} = Some UCS_OK /\
     PrimFloat.ltb d' d = true).
Proof.
  split.
  - exists (decimal_to_double false 1 4), zero.
    repeat apply conj; vm_compute; reflexivity.
  - exists (decimal_to_double false 12345 5), (decimal_to_double false 123 3).
    repeat apply conj; vm_compute; reflexivity.
Qed.

(** C4, as amended: when the name matching hits a deprecated field, the
    resolver returns NoSuchElement at once, whatever it matched before and
    whatever follows in the list, and leaves the option structure as it is
    at that point; the fields after it are not visited. Only the loop of a
    parent table goes on: there the NoSuchElement of the sub-table counts
    as no match, and the fields after the sub-table are visited with the
    same count. *)
Theorem deprecated_match_returns_no_elem :
  (forall (fnmatch : fnmatch_t) (opts : Z) (fname : string)
          (dfl : option string) (p : ucs_config_parser_t)
          (rest : list ucs_config_field_t) (name user_value : string)
          (table_prefix : option string) (recurse : bool)
          (count : nat) (m : opts_t),
     ucs_config_prefix_name_match fnmatch table_prefix
       (prefix_length table_prefix) fname name = true ->
     set_value_loop
       (set_value_step fnmatch opts name user_value table_prefix recurse)
       (Field fname dfl UCS_CONFIG_DEPRECATED_FIELD_OFFSET p :: rest) count m =
       (UCS_ERR_NO_ELEM, m)) /\
  (forall (fnmatch : fnmatch_t) (opts : Z) (tname fname : string)
          (tdfl dfl : option string) (toff : Z) (p : ucs_config_parser_t)
          (rest later : list ucs_config_field_t) (name user_value : string)
          (count : nat) (m : opts_t),
     ucs_config_prefix_name_match fnmatch (Some tname)
       (String.length tname) fname name = true ->
     set_value_loop (set_value_step fnmatch opts name user_value None true)
       (Table tname tdfl toff
          (Field fname dfl UCS_CONFIG_DEPRECATED_FIELD_OFFSET p :: rest)
        :: later) count m =
     set_value_loop (set_value_step fnmatch opts name user_value None true)
       later count m).
Proof.
  split.
  - intros fnmatch opts fname dfl p rest name user_value table_prefix recurse
      count m Hmatch.
    cbn [set_value_loop set_value_step].
    now rewrite set_value_field_deprecated.
  - intros fnmatch opts tname fname tdfl dfl toff p rest later name user_value
      count m Hmatch.
    cbn [set_value_loop set_value_step].
    rewrite set_value_field_deprecated by exact Hmatch.
    reflexivity.
Qed.

(** The deprecated [TX_OLD] stops the pattern [TX_*]; in a parent, the
    deprecated [OLD] of the sub-table [TX_] lets the loop reach [NEW]. *)
Lemma deprecated_match_returns_no_elem_example :
  ucs_config_parser_set_value_internal fnmatch_glob 4096 renamed_fields
    "TX_*" "7" None true {[ 4096 := VInt 0 ]} =
    (UCS_ERR_NO_ELEM, {[ 4096 := VInt 0 ]}) /\
  ucs_config_parser_set_value_internal fnmatch_glob 4096
    [ Table "TX_" (Some "") 64
        [ Field "OLD" (Some "") UCS_CONFIG_DEPRECATED_FIELD_OFFSET
            UCS_CONFIG_TYPE_UINT ];
      Field "NEW" (Some "0") 0 UCS_CONFIG_TYPE_UINT ]
    "*" "7" None true {[ 4096 := VInt 0 ]} =
    (UCS_OK, {[ 4096 := VInt 7 ]}).
Proof.
  destruct deprecated_match_returns_no_elem as [Hstop Hparent].
  split.
  - apply (Hstop fnmatch_glob 4096 "TX_OLD" (Some "") UCS_CONFIG_TYPE_UINT
             [ Field "TX_NEW" (Some "0") 0 UCS_CONFIG_TYPE_UINT ]
             "TX_*" "7" None true O {[ 4096 := VInt 0 ]}).
    reflexivity.
  - unfold ucs_config_parser_set_value_internal.
    rewrite (Hparent fnmatch_glob 4096 "TX_" "OLD" (Some "") (Some "") 64
               UCS_CONFIG_TYPE_UINT [] _ "*" "7" O {[ 4096 := VInt 0 ]})
      by reflexivity.
    vm_compute. reflexivity.
Defined.

(** C4, as stated, fails: [TX_NEW] also matches the pattern [TX_*] and
    stands after the deprecated [TX_OLD], and it is not set; without the
    deprecated field the same call sets it. The same holds for a field
    moved into a sub-table whose old name is kept as deprecated. *)
Lemma deprecated_match_hides_later_fields :
  ucs_config_parser_set_value fnmatch_glob 4096 renamed_fields None
    "TX_*" "7" {[ 4096 := VInt 0 ]} =
    (UCS_ERR_NO_ELEM, {[ 4096 := VInt 0 ]}) /\
  ucs_config_parser_set_value fnmatch_glob 4096 (tail renamed_fields) None
    "TX_*" "7" {[ 4096 := VInt 0 ]} =
    (UCS_OK, {[ 4096 := VInt 7 ]}) /\
  ucs_config_parser_set_value fnmatch_glob 4096 moved_fields None
    "IB_QKEY" "7" {[ 4160 := VInt 0 ]} =
    (UCS_ERR_NO_ELEM, {[ 4160 := VInt 0 ]}) /\
  ucs_config_parser_set_value fnmatch_glob 4096 (tail moved_fields) None
    "IB_QKEY" "7" {[ 4160 := VInt 0 ]} =
    (UCS_OK, {[ 4160 := VInt 7 ]}).
Proof. repeat apply conj; vm_compute; reflexivity. Qed.


(* ===================================================================== *)
(** * 15. The apply pipeline on a flat table                              *)
(* ===================================================================== *)

(** ** One slot at a time *)

Lemma release_with_frame (p : ucs_config_parser_t) (var a : Z) (m : opts_t) :
  a <> var -> release_with p var m !! a = m !! a.
Proof. intros H. unfold release_with. now apply store_slot_other. Qed.

Lemma parse_with_frame (p : ucs_config_parser_t) (text : string) (var a : Z)
  (m : opts_t) :
  a <> var -> snd (parse_with p text var m) !! a = m !! a.
Proof.
  intros H. unfold parse_with. destruct (read p text (m !! var)) as [ret slot].
  simpl. now apply store_slot_other.
Qed.

Lemma parse_default_frame (p : ucs_config_parser_t) (dfl : option string)
  (var a : Z) (m : opts_t) :
  a <> var -> snd (parse_default p dfl var m) !! a = m !! a.
Proof.
  intros H. destruct dfl as [d|]; simpl; [now apply parse_with_frame|reflexivity].
Qed.

Lemma parse_with_status (p : ucs_config_parser_t) (text : string) (var : Z)
  (m : opts_t) :
  fst (parse_with p text var m) = UCS_OK \/
  fst (parse_with p text var m) = UCS_ERR_INVALID_PARAM.
Proof.
  unfold parse_with. destruct (read p text (m !! var)) as [ret slot].
  simpl. destruct (ret =? 1); [now left|now right].
Qed.

Lemma parse_default_status (p : ucs_config_parser_t) (dfl : option string)
  (var : Z) (m : opts_t) :
  fst (parse_default p dfl var m) = UCS_OK \/
  fst (parse_default p dfl var m) = UCS_ERR_INVALID_PARAM.
Proof. destruct dfl; simpl; [apply parse_with_status|now right]. Qed.

Lemma status_eqb_ok (s : ucs_status_t) : status_eqb s UCS_OK = true <-> s = UCS_OK.
Proof. destruct s; simpl; split; congruence. Qed.

(** ** One field *)

Section ApplyField.

Variables (getenv : string -> option string) (file_vars : gmap string string).
Variables (opts : Z) (prefix : string) (table_prefix : option string).
Variables (fname : string) (dfl : option string) (off : Z).
Variable p : ucs_config_parser_t.

(** Only the slot of the field changes. *)
Lemma apply_field_frame (ignore_errors : bool) (st : apply_state) (a : Z) :
  a <> opts + off ->
  st_opts (snd (apply_field getenv file_vars opts fname dfl off p prefix
                  table_prefix ignore_errors st)) !! a = st_opts st !! a.
Proof.
  intros Ha. unfold apply_field.
  destruct (config_var_value _ _ _) as [t|]; [|reflexivity].
  destruct (ucs_config_parser_mark_env_var_used _ _) as [used added].
  destruct (off =? _); [reflexivity|]. cbn [st_opts].
  pose proof (parse_with_frame p t (opts + off) a
                (release_with p (opts + off) (st_opts st)) Ha) as H2.
  rewrite release_with_frame in H2 by exact Ha.
  destruct (parse_with p t _ _) as [status m2]. simpl in H2.
  destruct (status_eqb status UCS_OK); [exact H2|].
  pose proof (parse_default_frame p dfl (opts + off) a m2 Ha) as H3.
  destruct (parse_default p dfl _ _) as [tmp m3]. simpl in H3.
  destruct (status_eqb _ _); simpl; congruence.
Qed.

(** The field returns no status, or InvalidParam. *)
Lemma apply_field_status (ignore_errors : bool) (st : apply_state) :
  fst (apply_field getenv file_vars opts fname dfl off p prefix table_prefix
         ignore_errors st) = None \/
  fst (apply_field getenv file_vars opts fname dfl off p prefix table_prefix
         ignore_errors st) = Some UCS_ERR_INVALID_PARAM.
Proof.
  unfold apply_field.
  destruct (config_var_value _ _ _) as [t|]; [|now left].
  destruct (ucs_config_parser_mark_env_var_used _ _) as [used added].
  destruct (off =? _); [now left|]. cbn [st_opts].
  pose proof (parse_with_status p t (opts + off)
                (release_with p (opts + off) (st_opts st))) as H2.
  destruct (parse_with p t _ _) as [status m2]. simpl in H2.
  destruct (status_eqb status UCS_OK) eqn:E; [now left|].
  pose proof (parse_default_status p dfl (opts + off) m2) as H3.
  destruct (parse_default p dfl _ _) as [tmp m3]. simpl in H3.
  destruct H2 as [->| ->]; [discriminate|].
  destruct ignore_errors; [|now right].
  destruct H3 as [->| ->]; [now left|now right].
Qed.

Lemma apply_field_not_found (ignore_errors : bool) (st : apply_state) :
  found_text getenv file_vars prefix table_prefix fname = None ->
  apply_field getenv file_vars opts fname dfl off p prefix table_prefix
    ignore_errors st = (None, st).
Proof. unfold found_text, apply_field. now intros ->. Qed.

(** A text that the parser accepts is stored. *)
Lemma apply_field_accepted (ignore_errors : bool) (st : apply_state)
  (t : string) (v : value) :
  found_text getenv file_vars prefix table_prefix fname = Some t ->
  off <> UCS_CONFIG_DEPRECATED_FIELD_OFFSET ->
  accepts p t v ->
  fst (apply_field getenv file_vars opts fname dfl off p prefix table_prefix
         ignore_errors st) = None /\
  st_opts (snd (apply_field getenv file_vars opts fname dfl off p prefix
                  table_prefix ignore_errors st)) !! (opts + off) = Some v.
Proof.
  intros Hf Hoff Hacc. unfold found_text in Hf. unfold apply_field. rewrite Hf.
  destruct (ucs_config_parser_mark_env_var_used _ _) as [used added].
  apply Z.eqb_neq in Hoff. rewrite Hoff. cbn [st_opts].
  rewrite (parse_with_accepts p t v) by exact Hacc. cbn [status_eqb].
  split; [reflexivity|]. cbn [snd with_opts st_opts]. apply store_slot_same.
Qed.

(** A text that the parser rejects: with [ignore_errors] the default is
    read again and the loop goes on; without, the function returns. *)
Lemma apply_field_rejected_ignored (st : apply_state) (t d : string)
  (vd : value) :
  found_text getenv file_vars prefix table_prefix fname = Some t ->
  off <> UCS_CONFIG_DEPRECATED_FIELD_OFFSET ->
  rejects p t -> dfl = Some d -> accepts p d vd ->
  fst (apply_field getenv file_vars opts fname dfl off p prefix table_prefix
         true st) = None /\
  st_opts (snd (apply_field getenv file_vars opts fname dfl off p prefix
                  table_prefix true st)) !! (opts + off) = Some vd.
Proof.
  intros Hf Hoff Hrej -> Hacc. unfold found_text in Hf. unfold apply_field.
  rewrite Hf.
  destruct (ucs_config_parser_mark_env_var_used _ _) as [used added].
  apply Z.eqb_neq in Hoff. rewrite Hoff. cbn [st_opts].
  rewrite (parse_with_rejects p t) by exact Hrej. cbn [status_eqb parse_default].
  rewrite (parse_with_accepts p d vd) by exact Hacc. cbn [status_eqb].
  split; [reflexivity|]. cbn [snd with_opts st_opts]. apply store_slot_same.
Qed.

Lemma apply_field_rejected_strict (st : apply_state) (t : string) :
  found_text getenv file_vars prefix table_prefix fname = Some t ->
  off <> UCS_CONFIG_DEPRECATED_FIELD_OFFSET ->
  rejects p t ->
  fst (apply_field getenv file_vars opts fname dfl off p prefix table_prefix
         false st) = Some UCS_ERR_INVALID_PARAM.
Proof.
  intros Hf Hoff Hrej. unfold found_text in Hf. unfold apply_field. rewrite Hf.
  destruct (ucs_config_parser_mark_env_var_used _ _) as [used added].
  apply Z.eqb_neq in Hoff. rewrite Hoff. cbn [st_opts].
  rewrite (parse_with_rejects p t) by exact Hrej. cbn [status_eqb].
  destruct (parse_default p dfl _ _) as [tmp m3]. reflexivity.
Qed.

(** With [ignore_errors], a field whose default is accepted never makes
    the function return. *)
Lemma apply_field_ignored (st : apply_state) (d : string) (vd : value) :
  dfl = Some d -> accepts p d vd ->
  fst (apply_field getenv file_vars opts fname dfl off p prefix table_prefix
         true st) = None.
Proof.
  intros -> Hacc. unfold apply_field.
  destruct (config_var_value _ _ _) as [t|]; [|reflexivity].
  destruct (ucs_config_parser_mark_env_var_used _ _) as [used added].
  destruct (off =? _); [reflexivity|]. cbn [st_opts].
  destruct (parse_with p t _ _) as [status m2].
  destruct (status_eqb status UCS_OK); [reflexivity|].
  cbn [parse_default]. rewrite (parse_with_accepts p d vd) by exact Hacc.
  reflexivity.
Qed.

End ApplyField.

(** ** A flat table *)

Lemma real_field_inv (f : ucs_config_field_t) :
  real_field f ->
  exists fname d off p vd,
    f = Field fname (Some d) off p /\
    off <> UCS_CONFIG_DEPRECATED_FIELD_OFFSET /\ accepts p d vd.
Proof.
  destruct f as [fname [d|] off p|]; simpl; try tauto.
  intros [Hoff [vd Hvd]]. now exists fname, d, off, p, vd.
Qed.

Lemma no_dup_offsets_head (f : ucs_config_field_t)
  (rest : list ucs_config_field_t) (opts : Z) :
  NoDup (map field_offset (f :: rest)) ->
  forall g, In g rest -> opts + field_offset f <> opts + field_offset g.
Proof.
  intros Hnd g Hg Heq. simpl in Hnd. apply NoDup_cons_1_1 in Hnd. apply Hnd.
  replace (field_offset f) with (field_offset g) by lia.
  apply list_elem_of_In. now apply in_map.
Qed.

Section ApplyFlat.

Variables (getenv : string -> option string) (file_vars : gmap string string).
Variables (opts : Z) (prefix : string) (table_prefix : option string).
Variable recurse : bool.

(** Slots outside the table are not touched. *)
Lemma apply_flat_frame (ignore_errors : bool)
  (fields : list ucs_config_field_t) (st : apply_state) (a : Z) :
  Forall real_field fields ->
  (forall g, In g fields -> a <> opts + field_offset g) ->
  st_opts (snd (ucs_config_apply_config_vars getenv file_vars opts fields
                  prefix table_prefix recurse ignore_errors st)) !! a =
  st_opts st !! a.
Proof.
  intros Hreal. revert st.
  induction Hreal as [|f rest Hf _ IH]; intros st Ha; [reflexivity|].
  apply real_field_inv in Hf as (fname & d & off & p & vd & -> & Hoff & Hvd).
  unfold ucs_config_apply_config_vars. cbn [apply_loop apply_step].
  pose proof (apply_field_frame getenv file_vars opts prefix table_prefix
                fname (Some d) off p ignore_errors st a
                (Ha _ (or_introl eq_refl))) as H1.
  destruct (apply_field _ _ _ _ _ _ _ _ _ _ _) as [[s|] st1]; simpl in H1.
  - exact H1.
  - rewrite <- H1. apply IH. intros g Hg. apply Ha. now right.
Qed.

(** The pass returns OK or InvalidParam. *)
Lemma apply_flat_status (ignore_errors : bool)
  (fields : list ucs_config_field_t) (st : apply_state) :
  Forall real_field fields ->
  fst (ucs_config_apply_config_vars getenv file_vars opts fields prefix
         table_prefix recurse ignore_errors st) = UCS_OK \/
  fst (ucs_config_apply_config_vars getenv file_vars opts fields prefix
         table_prefix recurse ignore_errors st) = UCS_ERR_INVALID_PARAM.
Proof.
  intros Hreal. revert st.
  induction Hreal as [|f rest Hf _ IH]; intros st; [now left|].
  apply real_field_inv in Hf as (fname & d & off & p & vd & -> & Hoff & Hvd).
  unfold ucs_config_apply_config_vars. cbn [apply_loop apply_step].
  pose proof (apply_field_status getenv file_vars opts prefix table_prefix
                fname (Some d) off p ignore_errors st) as H1.
  destruct (apply_field _ _ _ _ _ _ _ _ _ _ _) as [[s|] st1]; simpl in H1.
  - destruct H1 as [H1|H1]; [discriminate|]. inversion H1. now right.
  - apply IH.
Qed.

(** With [ignore_errors] the pass returns OK. *)
Lemma apply_flat_ignored (fields : list ucs_config_field_t) (st : apply_state) :
  Forall real_field fields ->
  fst (ucs_config_apply_config_vars getenv file_vars opts fields prefix
         table_prefix recurse true st) = UCS_OK.
Proof.
  intros Hreal. revert st.
  induction Hreal as [|f rest Hf _ IH]; intros st; [reflexivity|].
  apply real_field_inv in Hf as (fname & d & off & p & vd & -> & Hoff & Hvd).
  unfold ucs_config_apply_config_vars. cbn [apply_loop apply_step].
  pose proof (apply_field_ignored getenv file_vars opts prefix table_prefix
                fname (Some d) off p st d vd eq_refl Hvd) as H1.
  destruct (apply_field _ _ _ _ _ _ _ _ _ _ _) as [[s|] st1]; simpl in H1.
  - discriminate.
  - apply IH.
Qed.

(** When every text found is accepted the pass returns OK. *)
Lemma apply_flat_accepted (ignore_errors : bool)
  (fields : list ucs_config_field_t) (st : apply_state) :
  Forall real_field fields ->
  Forall (found_accepted getenv file_vars prefix table_prefix) fields ->
  fst (ucs_config_apply_config_vars getenv file_vars opts fields prefix
         table_prefix recurse ignore_errors st) = UCS_OK.
Proof.
  intros Hreal. revert st.
  induction Hreal as [|f rest Hf _ IH]; intros st Hacc; [reflexivity|].
  apply real_field_inv in Hf as (fname & d & off & p & vd & -> & Hoff & Hvd).
  inversion Hacc as [|? ? Hhead Htail]; subst.
  unfold ucs_config_apply_config_vars. cbn [apply_loop apply_step].
  simpl in Hhead.
  destruct (found_text getenv file_vars prefix table_prefix fname) as [t|] eqn:Hf.
  - destruct Hhead as [v Hv].
    destruct (apply_field_accepted getenv file_vars opts prefix table_prefix
                fname (Some d) off p ignore_errors st t v Hf Hoff Hv) as [H1 _].
    destruct (apply_field _ _ _ _ _ _ _ _ _ _ _) as [[s|] st1]; simpl in H1;
      [discriminate|]. now apply IH.
  - rewrite apply_field_not_found by exact Hf. now apply IH.
Qed.

(** Without [ignore_errors], a text that is rejected makes the pass return
    InvalidParam. *)
Lemma apply_flat_rejected (fields : list ucs_config_field_t) (st : apply_state)
  (fname : string) (dfl : option string) (off : Z) (p : ucs_config_parser_t)
  (t : string) :
  Forall real_field fields ->
  In (Field fname dfl off p) fields ->
  found_text getenv file_vars prefix table_prefix fname = Some t ->
  rejects p t ->
  fst (ucs_config_apply_config_vars getenv file_vars opts fields prefix
         table_prefix recurse false st) = UCS_ERR_INVALID_PARAM.
Proof.
  intros Hreal. revert st.
  induction Hreal as [|f rest Hf _ IH]; intros st Hin Hfound Hrej; [destruct Hin|].
  apply real_field_inv in Hf as (gname & d & goff & gp & vd & -> & Hoff & Hvd).
  unfold ucs_config_apply_config_vars. cbn [apply_loop apply_step].
  destruct Hin as [Heq|Hin].
  - inversion Heq; subst.
    pose proof (apply_field_rejected_strict getenv file_vars opts prefix
                  table_prefix fname (Some d) off p st t Hfound Hoff Hrej) as H1.
    destruct (apply_field _ _ _ _ _ _ _ _ _ _ _) as [[s|] st1]; simpl in H1;
      [now inversion H1|discriminate].
  - pose proof (apply_field_status getenv file_vars opts prefix table_prefix
                  gname (Some d) goff gp false st) as H1.
    destruct (apply_field _ _ _ _ _ _ _ _ _ _ _) as [[s|] st1]; simpl in H1.
    + destruct H1 as [H1|H1]; [discriminate|]. now inversion H1.
    + now apply IH.
Qed.

(** The slot of a field after a pass that returns OK. *)
Lemma apply_flat_slot (ignore_errors : bool)
  (fields : list ucs_config_field_t) (st : apply_state)
  (fname d : string) (off : Z) (p : ucs_config_parser_t) :
  Forall real_field fields -> NoDup (map field_offset fields) ->
  In (Field fname (Some d) off p) fields ->
  fst (ucs_config_apply_config_vars getenv file_vars opts fields prefix
         table_prefix recurse ignore_errors st) = UCS_OK ->
  let after :=
    st_opts (snd (ucs_config_apply_config_vars getenv file_vars opts fields
                    prefix table_prefix recurse ignore_errors st))
      !! (opts + off) in
  match found_text getenv file_vars prefix table_prefix fname with
  | None => after = st_opts st !! (opts + off)
  | Some t =>
      (forall v, accepts p t v -> after = Some v) /\
      (forall vd, rejects p t -> accepts p d vd -> after = Some vd)
  end.
Proof.
  intros Hreal. revert st.
  induction Hreal as [|f rest Hf Hrest IH]; intros st Hnd Hin Hok; [destruct Hin|].
  pose proof (no_dup_offsets_head f rest opts Hnd) as Hne.
  apply real_field_inv in Hf as (gname & gd & goff & gp & vd & -> & Hoff & Hvd).
  revert Hok. unfold ucs_config_apply_config_vars.
  cbn [apply_loop apply_step].
  pose proof (apply_field_status getenv file_vars opts prefix table_prefix
                gname (Some gd) goff gp ignore_errors st) as Hst.
  destruct Hin as [Heq|Hin].
  - inversion Heq; subst. clear Heq.
    pose proof (apply_flat_frame ignore_errors rest) as Hframe.
    unfold ucs_config_apply_config_vars in Hframe.
    destruct (found_text getenv file_vars prefix table_prefix fname) as [t|] eqn:Hf.
    + pose proof (apply_field_accepted getenv file_vars opts prefix
                    table_prefix fname (Some d) off p ignore_errors st t) as Hacc.
      pose proof (apply_field_rejected_ignored getenv file_vars opts prefix
                    table_prefix fname (Some d) off p st t d) as Hrej.
      pose proof (apply_field_rejected_strict getenv file_vars opts prefix
                    table_prefix fname (Some d) off p st t Hf Hoff) as Hstrict.
      destruct ignore_errors.
      * destruct (apply_field _ _ _ _ _ _ _ _ _ _ _) as [[s|] st1]; simpl in *.
        { destruct Hst as [Hst|Hst]; [discriminate|]. inversion Hst. subst.
          discriminate. }
        intros Hok. split.
        { intros v Hv. rewrite Hframe by (try exact Hrest; exact Hne).
          now apply Hacc. }
        { intros vd' Hr Hd. rewrite Hframe by (try exact Hrest; exact Hne).
          now apply Hrej. }
      * destruct (apply_field _ _ _ _ _ _ _ _ _ _ _) as [[s|] st1]; simpl in *.
        { destruct Hst as [Hst|Hst]; [discriminate|]. inversion Hst. subst.
          discriminate. }
        intros Hok. split.
        { intros v Hv. rewrite Hframe by (try exact Hrest; exact Hne).
          now apply Hacc. }
        { intros vd' Hr Hd. specialize (Hstrict Hr). discriminate. }
    + rewrite apply_field_not_found by exact Hf. intros Hok. simpl.
      apply Hframe; [exact Hrest|exact Hne].
  - pose proof (apply_field_frame getenv file_vars opts prefix table_prefix
                  gname (Some gd) goff gp ignore_errors st (opts + off)) as Hfr.
    assert (opts + off <> opts + goff) as Hdiff.
    { intros Heq. apply (Hne _ Hin). simpl. lia. }
    specialize (Hfr Hdiff).
    destruct (apply_field _ _ _ _ _ _ _ _ _ _ _) as [[s|] st1]; simpl in *.
    { destruct Hst as [Hst|Hst]; [discriminate|]. inversion Hst. subst.
      discriminate. }
    intros Hok. rewrite <- Hfr.
    apply (IH st1); [now inversion Hnd|exact Hin|exact Hok].
Qed.

End ApplyFlat.


(* ===================================================================== *)
(** * The apply pipeline as a sequence of lookups                         *)
(* ===================================================================== *)

(** Induction on a field and, for a table, on the fields of the table. *)
Lemma field_nested_ind (P : ucs_config_field_t -> Prop) :
  (forall name dfl off p, P (Field name dfl off p)) ->
  (forall name dfl off sub_fields,
     Forall P sub_fields -> P (Table name dfl off sub_fields)) ->
  forall f, P f.
Proof.
  intros Hfield Htable. fix IH 1. intros [name dfl off p|name dfl off subs].
  - apply Hfield.
  - apply Htable. revert subs. fix IHsubs 1. intros [|g subs].
    + constructor.
    + constructor; [apply IH|apply IHsubs].
Qed.

(** ** The text of a lookup *)

(** The code reads the environment and then the file map: the text it
    finds is the first present of the two. *)
Lemma lookup_text_config_var (getenv : string -> option string)
  (file_vars : gmap string string) (pl : string * lookup_t) :
  config_var_value getenv file_vars (lookup_var (fst pl) (snd pl)) =
  lookup_text getenv file_vars pl.
Proof.
  unfold lookup_text, config_var_value, ucs_config_get_value_from_config_file.
  cbn [first_present]. destruct (getenv _); [reflexivity|].
  destruct (file_vars !! _); reflexivity.
Qed.

Lemma lookup_text_found (getenv : string -> option string)
  (file_vars : gmap string string) (pl : string * lookup_t) :
  found_text getenv file_vars (fst pl) (lk_table_prefix (snd pl))
    (lk_name (snd pl)) = lookup_text getenv file_vars pl.
Proof. apply lookup_text_config_var. Qed.

(** A deprecated field stores nothing. *)
Lemma apply_field_deprecated (getenv : string -> option string)
  (file_vars : gmap string string) (opts : Z) (fname : string)
  (dfl : option string) (p : ucs_config_parser_t) (prefix : string)
  (table_prefix : option string) (ignore_errors : bool) (st : apply_state) :
  fst (apply_field getenv file_vars opts fname dfl
         UCS_CONFIG_DEPRECATED_FIELD_OFFSET p prefix table_prefix
         ignore_errors st) = None /\
  st_opts (snd (apply_field getenv file_vars opts fname dfl
                  UCS_CONFIG_DEPRECATED_FIELD_OFFSET p prefix table_prefix
                  ignore_errors st)) = st_opts st.
Proof.
  unfold apply_field. destruct (config_var_value _ _ _); [|now split].
  destruct (ucs_config_parser_mark_env_var_used _ _) as [used added].
  rewrite Z.eqb_refl. now split.
Qed.

(** ** The texts found for a slot, one lookup at a time *)

Lemma slot_text_skip (getenv : string -> option string)
  (file_vars : gmap string string) (a : Z) (pl : string * lookup_t) :
  (lookup_addr (snd pl) =? a) && lookup_stores (snd pl) = false \/
  lookup_text getenv file_vars pl = None ->
  slot_text getenv file_vars a pl = None.
Proof.
  unfold slot_text. intros [-> | ->]; [reflexivity|].
  now destruct (_ && _).
Qed.

Lemma slot_text_keep (getenv : string -> option string)
  (file_vars : gmap string string) (a : Z) (pl : string * lookup_t)
  (t : string) :
  (lookup_addr (snd pl) =? a) && lookup_stores (snd pl) = true ->
  lookup_text getenv file_vars pl = Some t ->
  slot_text getenv file_vars a pl = Some (snd pl, t).
Proof. unfold slot_text. now intros -> ->. Qed.

Lemma slot_texts_skip (getenv : string -> option string)
  (file_vars : gmap string string) (a : Z) (pl : string * lookup_t)
  (ls : list (string * lookup_t)) :
  slot_text getenv file_vars a pl = None ->
  omap (slot_text getenv file_vars a) (pl :: ls) =
  omap (slot_text getenv file_vars a) ls.
Proof. intros H. cbn [omap list_omap]. now rewrite H. Qed.

Lemma slot_texts_keep (getenv : string -> option string)
  (file_vars : gmap string string) (a : Z) (pl : string * lookup_t)
  (ls : list (string * lookup_t)) (x : lookup_t * string) :
  slot_text getenv file_vars a pl = Some x ->
  omap (slot_text getenv file_vars a) (pl :: ls) =
  x :: omap (slot_text getenv file_vars a) ls.
Proof. intros H. cbn [omap list_omap]. now rewrite H. Qed.

Section Lookups.

Variables (getenv : string -> option string) (file_vars : gmap string string).
Variable ignore_errors : bool.

Lemma apply_lookup_status (pl : string * lookup_t) (st : apply_state) :
  fst (apply_lookup getenv file_vars ignore_errors pl st) = None \/
  fst (apply_lookup getenv file_vars ignore_errors pl st) =
    Some UCS_ERR_INVALID_PARAM.
Proof. apply apply_field_status. Qed.

Lemma apply_lookups_status (ls : list (string * lookup_t)) (st : apply_state) :
  fst (apply_lookups getenv file_vars ignore_errors ls st) = UCS_OK \/
  fst (apply_lookups getenv file_vars ignore_errors ls st) =
    UCS_ERR_INVALID_PARAM.
Proof.
  revert st. induction ls as [|pl ls IH]; intros st; cbn [apply_lookups];
    [now left|].
  pose proof (apply_lookup_status pl st) as H.
  destruct (apply_lookup getenv file_vars ignore_errors pl st) as [[s|] st1];
    cbn [fst] in *.
  - destruct H as [H|H]; [discriminate|]. inversion H. now right.
  - apply IH.
Qed.

(** Two runs in a row are the run of the two lists. *)
Lemma apply_lookups_app (l1 l2 : list (string * lookup_t)) (st : apply_state) :
  apply_lookups getenv file_vars ignore_errors (l1 ++ l2) st =
  if status_eqb (fst (apply_lookups getenv file_vars ignore_errors l1 st)) UCS_OK
  then apply_lookups getenv file_vars ignore_errors l2
         (snd (apply_lookups getenv file_vars ignore_errors l1 st))
  else apply_lookups getenv file_vars ignore_errors l1 st.
Proof.
  revert st. induction l1 as [|pl l1 IH]; intros st; cbn [app apply_lookups];
    [reflexivity|].
  pose proof (apply_lookup_status pl st) as H.
  destruct (apply_lookup getenv file_vars ignore_errors pl st) as [[s|] st1];
    cbn [fst] in *.
  - destruct H as [H|H]; [discriminate|]. now inversion H.
  - apply IH.
Qed.

Lemma after_apply_run (ls : list (string * lookup_t)) (st : apply_state) :
  after_apply (apply_lookups getenv file_vars ignore_errors ls st) =
  if status_eqb (fst (apply_lookups getenv file_vars ignore_errors ls st)) UCS_OK
  then (None, snd (apply_lookups getenv file_vars ignore_errors ls st))
  else (Some (fst (apply_lookups getenv file_vars ignore_errors ls st)),
        snd (apply_lookups getenv file_vars ignore_errors ls st)).
Proof.
  destruct (apply_lookups getenv file_vars ignore_errors ls st) as [[] st1]; reflexivity.
Qed.

(** ** The loop of a table is the run of its lookups *)

Lemma apply_loop_lookups (prefix : string)
  (step : ucs_config_field_t -> apply_state ->
          option ucs_status_t * apply_state)
  (lookups_of : ucs_config_field_t -> list lookup_t)
  (fields : list ucs_config_field_t) :
  Forall (fun f => forall st,
            step f st =
            after_apply
              (apply_lookups getenv file_vars ignore_errors
                 (map (pair prefix) (lookups_of f)) st)) fields ->
  forall st,
    apply_loop step fields st =
    apply_lookups getenv file_vars ignore_errors
      (map (pair prefix) (flat_map lookups_of fields)) st.
Proof.
  induction 1 as [|f fields Hf _ IH]; intros st; cbn [apply_loop flat_map];
    [reflexivity|].
  rewrite map_app, apply_lookups_app, Hf, after_apply_run.
  pose proof (apply_lookups_status (map (pair prefix) (lookups_of f)) st) as Hs.
  destruct (apply_lookups getenv file_vars ignore_errors
              (map (pair prefix) (lookups_of f)) st) as [s st1].
  cbn [fst snd] in *.
  destruct Hs as [-> | ->]; cbn [status_eqb]; [apply IH|reflexivity].
Qed.

Lemma apply_step_lookups (prefix : string) (f : ucs_config_field_t) :
  forall (opts : Z) (table_prefix : option string) (recurse : bool)
    (st : apply_state),
    apply_step getenv file_vars opts prefix table_prefix recurse
      ignore_errors f st =
    after_apply
      (apply_lookups getenv file_vars ignore_errors
         (map (pair prefix) (field_lookups opts table_prefix recurse f)) st).
Proof.
  induction f as [name dfl off p|name dfl off subs IH]
    using field_nested_ind; intros opts table_prefix recurse st;
    cbn [apply_step field_lookups].
  - cbn [map apply_lookups]. unfold apply_lookup.
    cbn [fst snd lk_opts lk_name lk_dfl lk_off lk_parser lk_table_prefix].
    pose proof (apply_field_status getenv file_vars opts prefix table_prefix
                  name dfl off p ignore_errors st) as Hs.
    destruct (apply_field _ _ _ _ _ _ _ _ _ _ _) as [[s|] st1];
      cbn [fst] in *; [|reflexivity].
    destruct Hs as [Hs|Hs]; [discriminate|]. now inversion Hs.
  - assert (forall tp rc st',
              apply_loop
                (apply_step getenv file_vars (opts + off) prefix tp rc
                   ignore_errors) subs st' =
              apply_lookups getenv file_vars ignore_errors (map (pair prefix)
                     (flat_map (field_lookups (opts + off) tp rc) subs)) st')
      as Hsub.
    { intros tp rc st'. apply apply_loop_lookups.
      eapply Forall_impl; [exact IH|]. intros g Hg st''. apply Hg. }
    rewrite map_app, apply_lookups_app.
    destruct recurse.
    + rewrite Hsub, after_apply_run.
      destruct (status_eqb _ UCS_OK) eqn:E1.
      * destruct table_prefix as [tp|]; [now rewrite Hsub|].
        cbn [map apply_lookups after_apply]. reflexivity.
      * now rewrite after_apply_run, E1.
    + cbn [map apply_lookups fst snd status_eqb].
      destruct table_prefix as [tp|]; [now rewrite Hsub|reflexivity].
Qed.

Lemma apply_config_vars_lookups (opts : Z) (fields : list ucs_config_field_t)
  (prefix : string) (table_prefix : option string) (recurse : bool)
  (st : apply_state) :
  ucs_config_apply_config_vars getenv file_vars opts fields prefix
    table_prefix recurse ignore_errors st =
  apply_lookups getenv file_vars ignore_errors
    (map (pair prefix) (table_lookups opts fields table_prefix recurse)) st.
Proof.
  unfold ucs_config_apply_config_vars, table_lookups.
  apply apply_loop_lookups. apply Forall_forall. intros f _ st'.
  apply apply_step_lookups.
Qed.

(** ** The status of a apply_lookups getenv file_vars ignore_errors *)

Lemma apply_lookups_accepted (ls : list (string * lookup_t)) :
  Forall (lookup_accepted getenv file_vars) ls ->
  forall st, fst (apply_lookups getenv file_vars ignore_errors ls st) = UCS_OK.
Proof.
  induction 1 as [|[prefix l] ls Hpl _ IH]; intros st; cbn [apply_lookups];
    [reflexivity|].
  assert (fst (apply_lookup getenv file_vars ignore_errors (prefix, l) st) =
          None) as H1.
  { unfold apply_lookup. cbn [fst snd].
    destruct (lookup_stores l) eqn:Es.
    - destruct (lookup_text getenv file_vars (prefix, l)) as [t|] eqn:Et.
      + destruct (Hpl Es t Et) as [v Hv].
        apply (apply_field_accepted getenv file_vars (lk_opts l) prefix
                 (lk_table_prefix l) (lk_name l) (lk_dfl l) (lk_off l)
                 (lk_parser l) ignore_errors st t v).
        * rewrite <- Et. apply (lookup_text_found getenv file_vars (prefix, l)).
        * unfold lookup_stores in Es. apply negb_true_iff in Es.
          now apply Z.eqb_neq.
        * exact Hv.
      + rewrite apply_field_not_found; [reflexivity|].
        rewrite <- Et. apply (lookup_text_found getenv file_vars (prefix, l)).
    - unfold lookup_stores in Es. apply negb_false_iff, Z.eqb_eq in Es.
      rewrite Es. apply apply_field_deprecated. }
  destruct (apply_lookup getenv file_vars ignore_errors (prefix, l) st)
    as [[s|] st1]; cbn [fst] in H1; [discriminate|].
  apply IH.
Qed.



(** ** The slot after a apply_lookups getenv file_vars ignore_errors *)

Lemma deciding_text_snoc (a : Z) (ls : list (string * lookup_t))
  (pl : string * lookup_t) :
  deciding_text getenv file_vars a (ls ++ [pl]) =
  match slot_text getenv file_vars a pl with
  | Some x => Some x
  | None => deciding_text getenv file_vars a ls
  end.
Proof.
  unfold deciding_text. rewrite omap_app. cbn [omap list_omap].
  destruct (slot_text getenv file_vars a pl) as [x|].
  - apply last_snoc.
  - now rewrite app_nil_r.
Qed.

(** After a run that returns OK, a slot holds what the last lookup that
    found a text for it stored: the value of the text when the parser
    accepts it, the value of the default text of the field when the parser
    rejects it (which a run goes past only when it ignores errors). A slot
    for which no text was found is as before. *)
Lemma apply_lookups_slot (ls : list (string * lookup_t)) :
  forall (st : apply_state) (a : Z),
    fst (apply_lookups getenv file_vars ignore_errors ls st) = UCS_OK ->
    match deciding_text getenv file_vars a ls with
    | Some (l, t) =>
        (forall v, accepts (lk_parser l) t v ->
           st_opts (snd (apply_lookups getenv file_vars ignore_errors ls st))
             !! a = Some v) /\
        (rejects (lk_parser l) t ->
         ignore_errors = true /\
         forall d vd, lk_dfl l = Some d -> accepts (lk_parser l) d vd ->
           st_opts (snd (apply_lookups getenv file_vars ignore_errors ls st))
             !! a = Some vd)
    | None =>
        st_opts (snd (apply_lookups getenv file_vars ignore_errors ls st)) !! a =
        st_opts st !! a
    end.
Proof.
  induction ls as [|[prefix l] ls IH] using rev_ind; intros st a Hok.
  { reflexivity. }
  rewrite deciding_text_snoc. revert Hok. rewrite apply_lookups_app.
  specialize (IH st a).
  destruct (apply_lookups getenv file_vars ignore_errors ls st) as [s1 st1].
  cbn [fst snd] in *.
  destruct (status_eqb s1 UCS_OK) eqn:E1;
    [|cbn [fst]; intros Hs1; subst s1; discriminate].
  apply status_eqb_ok in E1. specialize (IH E1).
  cbn [apply_lookups]. unfold apply_lookup, slot_text. cbn [fst snd].
  pose proof (lookup_text_found getenv file_vars (prefix, l)) as Hft.
  cbn [fst snd] in Hft.
  pose proof (apply_field_status getenv file_vars (lk_opts l) prefix
                (lk_table_prefix l) (lk_name l) (lk_dfl l) (lk_off l)
                (lk_parser l) ignore_errors st1) as Hs.
  destruct (lookup_addr l =? a) eqn:Ea; cbn [andb].
  - apply Z.eqb_eq in Ea. subst a. unfold lookup_addr in *.
    destruct (lookup_stores l) eqn:Es.
    + unfold lookup_stores in Es. apply negb_true_iff, Z.eqb_neq in Es.
      destruct (lookup_text getenv file_vars (prefix, l)) as [t|] eqn:Et.
      * pose proof (apply_field_accepted getenv file_vars (lk_opts l) prefix
                      (lk_table_prefix l) (lk_name l) (lk_dfl l) (lk_off l)
                      (lk_parser l) ignore_errors st1 t) as Hacc.
        pose proof (apply_field_rejected_ignored getenv file_vars (lk_opts l)
                      prefix (lk_table_prefix l) (lk_name l) (lk_dfl l)
                      (lk_off l) (lk_parser l) st1 t) as Hrej.
        pose proof (apply_field_rejected_strict getenv file_vars (lk_opts l)
                      prefix (lk_table_prefix l) (lk_name l) (lk_dfl l)
                      (lk_off l) (lk_parser l) st1 t Hft Es) as Hstrict.
        destruct ignore_errors.
        -- destruct (apply_field _ _ _ _ _ _ _ _ _ _ _) as [[s|] st2];
             cbn [fst snd] in *.
           { intros ->. destruct Hs as [Hs|Hs]; discriminate. }
           intros _. split.
           { intros v Hv. now apply (Hacc v). }
           { intros Hr. split; [reflexivity|]. intros d vd Hd Hvd.
             now apply (Hrej d vd). }
        -- destruct (apply_field _ _ _ _ _ _ _ _ _ _ _) as [[s|] st2];
             cbn [fst snd] in *.
           { intros ->. destruct Hs as [Hs|Hs]; discriminate. }
           intros _. split.
           { intros v Hv. now apply (Hacc v). }
           { intros Hr. specialize (Hstrict Hr). discriminate. }
      * rewrite apply_field_not_found by exact Hft. intros _. exact IH.
    + unfold lookup_stores in Es. apply negb_false_iff, Z.eqb_eq in Es.
      rewrite Es in Hs, IH |- *.
      pose proof (apply_field_deprecated getenv file_vars (lk_opts l)
                    (lk_name l) (lk_dfl l) (lk_parser l) prefix
                    (lk_table_prefix l) ignore_errors st1) as [_ Hd].
      destruct (apply_field _ _ _ _ _ _ _ _ _ _ _) as [[s|] st2];
        cbn [fst snd] in *.
      { intros ->. destruct Hs as [Hs|Hs]; discriminate. }
      intros _. rewrite Hd. exact IH.
  - apply Z.eqb_neq in Ea.
    pose proof (apply_field_frame getenv file_vars (lk_opts l) prefix
                  (lk_table_prefix l) (lk_name l) (lk_dfl l) (lk_off l)
                  (lk_parser l) ignore_errors st1 a) as Hfr.
    destruct (apply_field _ _ _ _ _ _ _ _ _ _ _) as [[s|] st2];
      cbn [fst snd] in *.
    { intros ->. destruct Hs as [Hs|Hs]; discriminate. }
    intros _. rewrite Hfr by (unfold lookup_addr in Ea; congruence).
    exact IH.
Qed.

End Lookups.


(* ===================================================================== *)
(** * 16. [ucs_config_parser_fill_opts]                                   *)
(* ===================================================================== *)

(** ** Defaults of a flat table *)

Lemma accepts_functional (p : ucs_config_parser_t) (text : string)
  (v1 v2 : value) :
  accepts p text v1 -> accepts p text v2 -> v1 = v2.
Proof. intros H1 H2. specialize (H1 None). rewrite H2 in H1. congruence. Qed.

Lemma real_field_flags (f : ucs_config_field_t) :
  real_field f ->
  ucs_config_is_alias_field f || ucs_config_is_deprecated_field f = false.
Proof.
  intros Hf.
  apply real_field_inv in Hf as (fname & d & off & p & vd & -> & Hoff & Hvd).
  unfold ucs_config_is_alias_field, ucs_config_is_deprecated_field. simpl.
  now apply Z.eqb_neq.
Qed.

Lemma set_default_flat_frame (fnmatch : fnmatch_t) (opts : Z)
  (fields : list ucs_config_field_t) (m : opts_t) (a : Z) :
  Forall real_field fields ->
  (forall g, In g fields -> a <> opts + field_offset g) ->
  snd (ucs_config_parser_set_default_values fnmatch opts fields m) !! a = m !! a.
Proof.
  intros Hreal. revert m.
  induction Hreal as [|f rest Hf _ IH]; intros m Ha; [reflexivity|].
  unfold ucs_config_parser_set_default_values. cbn [set_default_loop].
  rewrite (real_field_flags f Hf).
  apply real_field_inv in Hf as (fname & d & off & p & vd & -> & Hoff & Hvd).
  cbn [set_default_step field_offset default].
  rewrite (parse_with_accepts p d vd) by exact Hvd.
  unfold ucs_config_parser_set_default_values in IH. rewrite IH.
  - apply store_slot_other. apply (Ha _ (or_introl eq_refl)).
  - intros g Hg. apply Ha. now right.
Qed.

Lemma set_default_flat (fnmatch : fnmatch_t) (opts : Z)
  (fields : list ucs_config_field_t) (m : opts_t) :
  Forall real_field fields -> NoDup (map field_offset fields) ->
  fst (ucs_config_parser_set_default_values fnmatch opts fields m) = UCS_OK /\
  forall fname d off p vd,
    In (Field fname (Some d) off p) fields -> accepts p d vd ->
    snd (ucs_config_parser_set_default_values fnmatch opts fields m)
      !! (opts + off) = Some vd.
Proof.
  intros Hreal. revert m.
  induction Hreal as [|f rest Hf Hrest IH]; intros m Hnd; [split; [reflexivity|]|].
  { intros ? ? ? ? ? []. }
  pose proof (no_dup_offsets_head f rest opts Hnd) as Hne.
  pose proof (set_default_flat_frame fnmatch opts rest) as Hframe.
  unfold ucs_config_parser_set_default_values in *. cbn [set_default_loop].
  rewrite (real_field_flags f Hf).
  apply real_field_inv in Hf as (gname & gd & goff & gp & gv & -> & Hoff & Hvd).
  cbn [set_default_step field_offset default].
  rewrite (parse_with_accepts gp gd gv) by exact Hvd.
  destruct (IH (store_slot (opts + goff) (Some gv) m)) as [IHok IHslot];
    [now inversion Hnd|].
  split; [exact IHok|].
  intros fname d off p vd [Heq|Hin] Hacc.
  - inversion Heq; subst.
    rewrite Hframe by (try exact Hrest; exact Hne).
    rewrite store_slot_same. f_equal. now apply (accepts_functional p d).
  - now apply IHslot with (fname := fname) (d := d) (p := p).
Qed.

(** ** The sub-prefix of a prefix of two characters or more *)

Lemma get_sub_prefix_ok (env_prefix : string) :
  (2 <= String.length env_prefix)%nat ->
  fst (ucs_config_parser_get_sub_prefix env_prefix) = UCS_OK.
Proof.
  intros H. unfold ucs_config_parser_get_sub_prefix.
  destruct (String.length env_prefix <? 2)%nat eqn:E; [|reflexivity].
  apply Nat.ltb_lt in E. lia.
Qed.

(** ** Failures *)

(** A prefix of fewer than two characters: the function returns after the
    defaults are set, and the option structure holds them. *)
Lemma fill_opts_short_prefix (fnmatch : fnmatch_t)
  (getenv : string -> option string) (file_vars : gmap string string)
  (opts : Z) (entry : ucs_config_global_list_entry_t) (env_prefix : string)
  (ignore_errors : bool) (st : apply_state) (m0 : opts_t) :
  ucs_config_parser_set_default_values fnmatch opts (entry_table entry)
    (st_opts st) = (UCS_OK, m0) ->
  (String.length env_prefix < 2)%nat ->
  ucs_config_parser_fill_opts fnmatch getenv file_vars opts entry env_prefix
    ignore_errors st = (UCS_ERR_INVALID_PARAM, with_opts st m0, entry).
Proof.
  intros Hd Hlen. unfold ucs_config_parser_fill_opts.
  rewrite Hd, sub_prefix_too_short by exact Hlen. reflexivity.
Qed.

(** With a prefix of two characters or more and defaults that are set, a
    failure is returned with the option structure released. *)
Lemma fill_opts_failure_released (fnmatch : fnmatch_t)
  (getenv : string -> option string) (file_vars : gmap string string)
  (opts : Z) (entry : ucs_config_global_list_entry_t) (env_prefix : string)
  (ignore_errors : bool) (st : apply_state) :
  fst (ucs_config_parser_set_default_values fnmatch opts (entry_table entry)
         (st_opts st)) = UCS_OK ->
  (2 <= String.length env_prefix)%nat ->
  fst (fst (ucs_config_parser_fill_opts fnmatch getenv file_vars opts entry
              env_prefix ignore_errors st)) <> UCS_OK ->
  released opts (entry_table entry)
    (st_opts (snd (fst (ucs_config_parser_fill_opts fnmatch getenv file_vars
                          opts entry env_prefix ignore_errors st)))).
Proof.
  intros Hd Hlen. unfold ucs_config_parser_fill_opts.
  destruct (ucs_config_parser_set_default_values _ _ _ _) as [s0 m0].
  simpl in Hd. subst s0.
  pose proof (get_sub_prefix_ok env_prefix Hlen) as Hsp.
  destruct (ucs_config_parser_get_sub_prefix env_prefix) as [s sp].
  simpl in Hsp. subst s.
  destruct sp as [sp|].
  - destruct (ucs_config_apply_config_vars _ _ _ _ sp _ _ _ _) as [s1 st1].
    destruct (status_eqb s1 UCS_OK) eqn:E1; cbn [negb].
    + destruct (ucs_config_apply_config_vars _ _ _ _ env_prefix _ _ _ _)
        as [s2 st2].
      destruct (status_eqb s2 UCS_OK) eqn:E2; cbn [negb fst snd].
      * congruence.
      * intros _. now eexists.
    + intros _. cbn [fst snd]. now eexists.
  - cbn [status_eqb negb].
    destruct (ucs_config_apply_config_vars _ _ _ _ env_prefix _ _ _ _)
      as [s2 st2].
    destruct (status_eqb s2 UCS_OK) eqn:E2; cbn [negb fst snd].
    + congruence.
    + intros _. now eexists.
Qed.

(** C2 fails on the code: with the prefix [""] the defaults of the entry
    are set (the string field owns a copy of its default) and the function
    returns InvalidParam without releasing them; [release_opts] on that
    structure would have freed the string. *)
Theorem fill_opts_short_prefix_not_released :
  ucs_config_parser_fill_opts fnmatch_glob (getenv_of ∅) ∅ 4096 name_entry
    "" false no_state =
    (UCS_ERR_INVALID_PARAM,
     {| st_opts := {[ 4096 := VStr "abc" ]}; st_used := ∅ |}, name_entry) /\
  ucs_config_parser_release_opts 4096 (entry_table name_entry)
    {[ 4096 := VStr "abc" ]} = ∅.
Proof. split; vm_compute; reflexivity. Qed.

(** ** Slots that a table does not own *)

Lemma set_value_field_frame (fnmatch : fnmatch_t) (opts : Z) (fname : string)
  (off : Z) (p : ucs_config_parser_t) (name user_value : string)
  (table_prefix : option string) (count : nat) (m : opts_t) (a : Z) :
  (off <> UCS_CONFIG_DEPRECATED_FIELD_OFFSET -> a <> opts + off) ->
  match set_value_field fnmatch opts fname off p name user_value table_prefix
          count m with
  | Next _ m' | Return _ m' => m' !! a = m !! a
  end.
Proof.
  intros Ha. unfold set_value_field.
  destruct (ucs_config_prefix_name_match _ _ _ _ _); [|reflexivity].
  destruct (off =? UCS_CONFIG_DEPRECATED_FIELD_OFFSET) eqn:E; [reflexivity|].
  apply Z.eqb_neq in E. specialize (Ha E).
  destruct (write p 255 _) as [ret value_buf].
  pose proof (parse_with_frame p user_value (opts + off) a
                (release_with p (opts + off) m) Ha) as H2.
  rewrite release_with_frame in H2 by exact Ha.
  destruct (parse_with p user_value _ _) as [status m2]. cbn [snd] in H2.
  destruct (status_eqb status UCS_OK); [exact H2|].
  pose proof (parse_with_frame p value_buf (opts + off) a m2 Ha) as H3.
  destruct (parse_with p value_buf _ _) as [status_restore m3].
  cbn [snd] in H3. congruence.
Qed.

Lemma set_value_loop_frame
  (step : ucs_config_field_t -> nat -> opts_t -> iteration)
  (fields : list ucs_config_field_t) (a : Z) :
  Forall (fun f => forall count m,
            match step f count m with
            | Next _ m' | Return _ m' => m' !! a = m !! a
            end) fields ->
  forall count m, snd (set_value_loop step fields count m) !! a = m !! a.
Proof.
  induction 1 as [|f fields Hf _ IH]; intros count m; cbn [set_value_loop].
  - unfold loop_end. reflexivity.
  - specialize (Hf count m). destruct (step f count m) as [c m'|s m'].
    + rewrite IH. exact Hf.
    + exact Hf.
Qed.

Lemma not_in_flat_map {A B : Type} (f : A -> list B) (l : list A) (b : B) :
  ~ In b (flat_map f l) -> forall x, In x l -> ~ In b (f x).
Proof. intros H x Hx Hb. apply H. apply in_flat_map. now exists x. Qed.

Lemma set_value_step_frame (fnmatch : fnmatch_t) (name user_value : string)
  (a : Z) (f : ucs_config_field_t) :
  forall (opts : Z) (table_prefix : option string) (recurse : bool)
    (count : nat) (m : opts_t),
    ~ In a (field_slots opts f) ->
    match set_value_step fnmatch opts name user_value table_prefix recurse f
            count m with
    | Next _ m' | Return _ m' => m' !! a = m !! a
    end.
Proof.
  induction f as [fname dfl off p|fname dfl off subs IH]
    using field_nested_ind; intros opts table_prefix recurse count m Ha;
    cbn [set_value_step field_slots] in *.
  - apply set_value_field_frame. intros Hoff Heq. apply Ha.
    apply Z.eqb_neq in Hoff. rewrite Hoff. now left.
  - assert (forall tp rc cnt m',
              snd (set_value_loop
                     (set_value_step fnmatch (opts + off) name user_value tp rc)
                     subs cnt m') !! a = m' !! a) as Hsub.
    { intros tp rc cnt m'. apply set_value_loop_frame.
      apply List.Forall_forall. intros g Hg cnt' m''.
      apply (proj1 (List.Forall_forall _ _) IH g Hg).
      now apply (not_in_flat_map _ _ _ Ha). }
    assert (forall (r : ucs_status_t * opts_t) (cnt : nat) (m' : opts_t),
              snd r !! a = m' !! a ->
              match after_sub r cnt with
              | Next _ m'' | Return _ m'' => m'' !! a = m' !! a
              end) as Hafter.
    { intros [[] m''] cnt m' Hr; exact Hr. }
    destruct recurse.
    + pose proof (Hafter _ count m (Hsub (Some fname) true O m)) as H1.
      destruct (after_sub _ count) as [c1 m1|s1 m1]; [|exact H1].
      destruct table_prefix as [tp|]; [|exact H1].
      pose proof (Hafter _ c1 m1 (Hsub (Some tp) false O m1)) as H2.
      destruct (after_sub _ c1) as [c2 m2|s2 m2]; congruence.
    + destruct table_prefix as [tp|]; [|reflexivity].
      apply Hafter, Hsub.
Qed.

Lemma set_value_internal_frame (fnmatch : fnmatch_t) (opts : Z)
  (fields : list ucs_config_field_t) (name user_value : string)
  (table_prefix : option string) (recurse : bool) (m : opts_t) (a : Z) :
  ~ In a (table_slots opts fields) ->
  snd (ucs_config_parser_set_value_internal fnmatch opts fields name
         user_value table_prefix recurse m) !! a = m !! a.
Proof.
  intros Ha. unfold ucs_config_parser_set_value_internal.
  apply set_value_loop_frame. apply List.Forall_forall. intros g Hg count m'.
  apply set_value_step_frame. now apply (not_in_flat_map _ _ _ Ha).
Qed.

Lemma sscanf_table_frame (fnmatch : fnmatch_t)
  (arg : list ucs_config_field_t) (buf : string) (dest : Z) (m : opts_t)
  (a : Z) :
  ~ In a (table_slots dest arg) ->
  snd (ucs_config_sscanf_table fnmatch arg buf dest m) !! a = m !! a.
Proof.
  intros Ha. unfold ucs_config_sscanf_table.
  generalize (strtok_all ";" buf). intros toks. revert m.
  induction toks as [|token toks IH]; intros m; cbn [sscanf_table_loop];
    [reflexivity|].
  destruct (strtok_all "=" token) as [|name [|user_value rest]];
    [reflexivity|reflexivity|].
  pose proof (set_value_internal_frame fnmatch dest arg name user_value None
                true m a Ha) as H1.
  destruct (ucs_config_parser_set_value_internal _ _ _ _ _ _ _ _)
    as [status m1]. cbn [snd] in H1.
  destruct status; try exact H1. rewrite IH. exact H1.
Qed.

Lemma set_default_loop_frame
  (step : ucs_config_field_t -> Z -> opts_t -> ucs_status_t * opts_t)
  (opts : Z) (fields : list ucs_config_field_t) (a : Z) :
  Forall (fun f =>
            ucs_config_is_alias_field f || ucs_config_is_deprecated_field f =
              false ->
            forall m, snd (step f opts m) !! a = m !! a) fields ->
  forall m, snd (set_default_loop step opts fields m) !! a = m !! a.
Proof.
  induction 1 as [|f fields Hf _ IH]; intros m; cbn [set_default_loop];
    [reflexivity|].
  destruct (ucs_config_is_alias_field f || ucs_config_is_deprecated_field f);
    [apply IH|].
  specialize (Hf eq_refl m). destruct (step f opts m) as [status m1].
  cbn [snd] in Hf. destruct status; try exact Hf. rewrite IH. exact Hf.
Qed.

Lemma set_default_step_frame (fnmatch : fnmatch_t) (a : Z)
  (f : ucs_config_field_t) :
  forall (opts : Z) (m : opts_t),
    ucs_config_is_alias_field f || ucs_config_is_deprecated_field f = false ->
    ~ In a (field_slots opts f) ->
    snd (set_default_step fnmatch f opts m) !! a = m !! a.
Proof.
  induction f as [fname dfl off p|fname dfl off subs IH]
    using field_nested_ind; intros opts m Hflags Ha;
    cbn [set_default_step field_slots field_offset] in *.
  - apply parse_with_frame. intros Heq. apply Ha.
    apply orb_false_iff in Hflags as [_ Hdep].
    unfold ucs_config_is_deprecated_field in Hdep. cbn [field_offset] in Hdep.
    rewrite Hdep. now left.
  - pose proof (set_default_loop_frame (set_default_step fnmatch) (opts + off)
                  subs a) as Hloop.
    assert (forall m', snd (set_default_loop (set_default_step fnmatch)
                              (opts + off) subs m') !! a = m' !! a) as Hsub.
    { apply Hloop. apply List.Forall_forall. intros g Hg Hgflags m'.
      apply (proj1 (List.Forall_forall _ _) IH g Hg); [exact Hgflags|].
      now apply (not_in_flat_map _ _ _ Ha). }
    specialize (Hsub m).
    destruct (set_default_loop _ _ subs m) as [status m1]. cbn [snd] in Hsub.
    destruct status; try exact Hsub.
    cbn [ucs_config_parser_parse_field].
    pose proof (sscanf_table_frame fnmatch subs (default "" dfl) (opts + off)
                  m1 a Ha) as H2.
    destruct (ucs_config_sscanf_table _ _ _ _ _) as [ret m2]. cbn [snd] in *.
    congruence.
Qed.

Lemma set_default_values_frame (fnmatch : fnmatch_t) (opts : Z)
  (fields : list ucs_config_field_t) (m : opts_t) (a : Z) :
  ~ In a (table_slots opts fields) ->
  snd (ucs_config_parser_set_default_values fnmatch opts fields m) !! a =
  m !! a.
Proof.
  intros Ha. unfold ucs_config_parser_set_default_values.
  apply set_default_loop_frame. apply List.Forall_forall.
  intros g Hg Hflags m'. apply set_default_step_frame; [exact Hflags|].
  now apply (not_in_flat_map _ _ _ Ha).
Qed.

(** The default of a field of the table whose slot no later field shares:
    once the defaults are set, the slot holds the value of the default
    text. *)
Lemma set_default_own_slot (fnmatch : fnmatch_t) (opts : Z)
  (pre post : list ucs_config_field_t) (fname d : string) (off : Z)
  (p : ucs_config_parser_t) (vd : value) :
  off <> UCS_CONFIG_DEPRECATED_FIELD_OFFSET ->
  ~ In (opts + off) (table_slots opts post) ->
  accepts p d vd ->
  forall m m0,
    ucs_config_parser_set_default_values fnmatch opts
      (pre ++ Field fname (Some d) off p :: post) m = (UCS_OK, m0) ->
    m0 !! (opts + off) = Some vd.
Proof.
  intros Hoff Hpost Hvd. unfold ucs_config_parser_set_default_values.
  induction pre as [|g pre IH]; intros m m0; cbn [app set_default_loop].
  - unfold ucs_config_is_alias_field, ucs_config_is_deprecated_field.
    cbn [field_dfl_value field_offset orb].
    apply Z.eqb_neq in Hoff. rewrite Hoff.
    cbn [set_default_step field_offset default].
    rewrite (parse_with_accepts p d vd) by exact Hvd.
    pose proof (set_default_values_frame fnmatch opts post
                  (store_slot (opts + off) (Some vd) m) (opts + off) Hpost)
      as Hframe.
    unfold ucs_config_parser_set_default_values in Hframe.
    intros Heq. rewrite Heq in Hframe. cbn [snd] in Hframe.
    rewrite Hframe. apply store_slot_same.
  - destruct (ucs_config_is_alias_field g || ucs_config_is_deprecated_field g);
      [apply IH|].
    destruct (set_default_step fnmatch g opts m) as [status m1].
    destruct status; try (intros Heq; discriminate). apply IH.
Qed.

(** ** The lookups and the slots *)

Lemma field_lookups_slots (f : ucs_config_field_t) :
  forall (opts : Z) (table_prefix : option string) (recurse : bool)
    (l : lookup_t),
    In l (field_lookups opts table_prefix recurse f) ->
    lookup_stores l = true ->
    In (lookup_addr l) (field_slots opts f).
Proof.
  induction f as [fname dfl off p|fname dfl off subs IH]
    using field_nested_ind; intros opts table_prefix recurse l Hin Hst;
    cbn [field_lookups field_slots] in *.
  - destruct Hin as [<-|[]]. unfold lookup_stores, lookup_addr in *.
    cbn [lk_off lk_opts] in *. apply negb_true_iff in Hst. rewrite Hst.
    now left.
  - assert (forall tp rc,
              In l (flat_map (field_lookups (opts + off) tp rc) subs) ->
              In (lookup_addr l) (flat_map (field_slots (opts + off)) subs))
      as Hsub.
    { intros tp rc Hl. apply in_flat_map in Hl as (g & Hg & Hl).
      apply in_flat_map. exists g. split; [exact Hg|].
      now apply (proj1 (List.Forall_forall _ _) IH g Hg _ tp rc). }
    apply in_app_or in Hin as [Hin|Hin].
    + destruct recurse; [|destruct Hin]. now apply (Hsub (Some fname) true).
    + destruct table_prefix as [tp|]; [|destruct Hin].
      now apply (Hsub (Some tp) false).
Qed.

Lemma table_lookups_slots (opts : Z) (fields : list ucs_config_field_t)
  (table_prefix : option string) (recurse : bool) (l : lookup_t) :
  In l (table_lookups opts fields table_prefix recurse) ->
  lookup_stores l = true ->
  In (lookup_addr l) (table_slots opts fields).
Proof.
  unfold table_lookups, table_slots. intros Hin Hst.
  apply in_flat_map in Hin as (g & Hg & Hl). apply in_flat_map.
  exists g. split; [exact Hg|]. now apply field_lookups_slots in Hl.
Qed.

Section FillOpts.

Variable fnmatch : fnmatch_t.
Variables (getenv : string -> option string) (file_vars : gmap string string).
Variables (opts : Z) (entry : ucs_config_global_list_entry_t).
Variable env_prefix : string.

(** No text is found for a slot that the lookups do not store to. *)
Lemma slot_texts_none (a : Z) (prefix : string) (ls : list lookup_t) :
  (forall l, In l ls -> lookup_stores l = true -> lookup_addr l <> a) ->
  omap (slot_text getenv file_vars a) (map (pair prefix) ls) = [].
Proof.
  induction ls as [|l ls IH]; intros H; [reflexivity|].
  cbn [map omap list_omap]. unfold slot_text at 1. cbn [snd].
  destruct (lookup_stores l) eqn:Es.
  - pose proof (H l (or_introl eq_refl) Es) as Hne.
    apply Z.eqb_neq in Hne. rewrite Hne. cbn [andb].
    apply IH. intros l' Hl'. apply H. now right.
  - rewrite andb_false_r. apply IH. intros l' Hl'. apply H. now right.
Qed.

(** The lookup that decides the slot of a field of the table of the entry,
    when no other field shares the slot: the first candidate present. *)
Lemma deciding_text_own_slot (pre post : list ucs_config_field_t)
  (fname : string) (dfl : option string) (off : Z) (p : ucs_config_parser_t) :
  entry_table entry = pre ++ Field fname dfl off p :: post ->
  off <> UCS_CONFIG_DEPRECATED_FIELD_OFFSET ->
  ~ In (opts + off) (table_slots opts (pre ++ post)) ->
  deciding_text getenv file_vars (opts + off)
    (fill_lookups opts entry env_prefix) =
  match first_present (field_candidates getenv file_vars env_prefix
                         (entry_prefix entry) fname) with
  | Some t =>
      Some ({| lk_opts := opts; lk_table_prefix := entry_prefix entry;
               lk_name := fname; lk_dfl := dfl; lk_off := off;
               lk_parser := p |}, t)
  | None => None
  end.
Proof.
  intros Htable Hoff Hown.
  assert (forall prefix,
            omap (slot_text getenv file_vars (opts + off))
              (map (pair prefix)
                 (table_lookups opts (entry_table entry) (entry_prefix entry)
                    true)) =
            match first_present
                    [ getenv (config_var_name prefix (entry_prefix entry) fname);
                      file_vars !! config_var_name prefix (entry_prefix entry)
                                     fname ] with
            | Some t =>
                [ ({| lk_opts := opts; lk_table_prefix := entry_prefix entry;
                      lk_name := fname; lk_dfl := dfl; lk_off := off;
                      lk_parser := p |}, t) ]
            | None => []
            end) as Hpass.
  { intros prefix. unfold table_lookups. rewrite Htable, flat_map_app.
    cbn [flat_map field_lookups]. rewrite !map_app, !omap_app.
    rewrite (slot_texts_none (opts + off) prefix
               (flat_map (field_lookups opts (entry_prefix entry) true) pre)).
    2:{ intros l Hl Hst Heq. apply Hown. unfold table_slots.
        rewrite flat_map_app. apply in_or_app. left. rewrite <- Heq.
        now apply (table_lookups_slots opts pre (entry_prefix entry) true). }
    rewrite (slot_texts_none (opts + off) prefix
               (flat_map (field_lookups opts (entry_prefix entry) true) post)).
    2:{ intros l Hl Hst Heq. apply Hown. unfold table_slots.
        rewrite flat_map_app. apply in_or_app. right. rewrite <- Heq.
        now apply (table_lookups_slots opts post (entry_prefix entry) true). }
    cbn [app map omap list_omap]. unfold slot_text, lookup_addr, lookup_stores.
    cbn [snd fst lk_opts lk_off]. rewrite Z.eqb_refl.
    apply Z.eqb_neq in Hoff. rewrite Hoff. cbn [negb andb].
    unfold lookup_text, lookup_var. cbn [fst snd lk_table_prefix lk_name].
    destruct (first_present _); reflexivity. }
  unfold deciding_text, fill_lookups, field_candidates. cbv zeta.
  rewrite omap_app, (Hpass env_prefix).
  destruct (snd (ucs_config_parser_get_sub_prefix env_prefix)) as [sp|].
  - rewrite (Hpass sp). cbn [first_present app].
    destruct (getenv (config_var_name env_prefix _ fname)) as [t1|];
      [now rewrite last_snoc|].
    destruct (file_vars !! config_var_name env_prefix _ fname) as [t2|];
      [now rewrite last_snoc|].
    rewrite app_nil_r.
    destruct (getenv (config_var_name sp _ fname)) as [t3|]; [reflexivity|].
    destruct (file_vars !! config_var_name sp _ fname) as [t4|]; reflexivity.
  - cbn [omap list_omap map app first_present].
    destruct (getenv (config_var_name env_prefix _ fname)) as [t1|];
      [reflexivity|].
    destruct (file_vars !! config_var_name env_prefix _ fname) as [t2|];
      reflexivity.
Qed.

(** A text that decides a slot was found by a lookup that stores. *)
Lemma deciding_text_found (a : Z) (ls : list (string * lookup_t))
  (l : lookup_t) (t : string) :
  deciding_text getenv file_vars a ls = Some (l, t) ->
  exists prefix,
    In (prefix, l) ls /\ lookup_stores l = true /\
    lookup_text getenv file_vars (prefix, l) = Some t.
Proof.
  unfold deciding_text. intros H. apply last_Some_elem_of in H.
  apply list_elem_of_omap in H as ([prefix l'] & Hin & Hst).
  unfold slot_text in Hst. cbn [snd] in Hst.
  destruct (lookup_addr l' =? a); [|discriminate]. cbn [andb] in Hst.
  destruct (lookup_stores l') eqn:Es; [|discriminate].
  destruct (lookup_text getenv file_vars (prefix, l')) as [t'|] eqn:Et;
    [|discriminate].
  inversion Hst; subst. exists prefix. split; [|split].
  - now apply list_elem_of_In.
  - exact Es.
  - exact Et.
Qed.

Hypothesis Hlen : (2 <= String.length env_prefix)%nat.

(** [ucs_config_parser_fill_opts], once the defaults are set, is the run of
    its lookups. *)
Lemma fill_opts_lookups (ignore_errors : bool) (st : apply_state)
  (m0 : opts_t) :
  ucs_config_parser_set_default_values fnmatch opts (entry_table entry)
    (st_opts st) = (UCS_OK, m0) ->
  let r := apply_lookups getenv file_vars ignore_errors
             (fill_lookups opts entry env_prefix) (with_opts st m0) in
  ucs_config_parser_fill_opts fnmatch getenv file_vars opts entry env_prefix
    ignore_errors st =
  if status_eqb (fst r) UCS_OK then (UCS_OK, snd r, set_loaded entry)
  else (fst r,
        with_opts (snd r)
          (ucs_config_parser_release_opts opts (entry_table entry)
             (st_opts (snd r))),
        entry).
Proof.
  intros Hd. cbv zeta. unfold ucs_config_parser_fill_opts, fill_lookups.
  rewrite Hd.
  pose proof (get_sub_prefix_ok env_prefix Hlen) as Hsp.
  destruct (ucs_config_parser_get_sub_prefix env_prefix) as [s sp].
  cbn [fst snd] in *. subst s.
  rewrite apply_lookups_app.
  destruct sp as [sp|].
  - rewrite !apply_config_vars_lookups.
    destruct (apply_lookups _ _ _ (map (pair sp) _) _) as [s1 st1] eqn:E1.
    cbn [fst snd].
    destruct (status_eqb s1 UCS_OK) eqn:Es1; cbn [negb fst snd];
      [|now rewrite Es1].
    rewrite apply_config_vars_lookups.
    destruct (apply_lookups _ _ _ (map (pair env_prefix) _) _) as [s2 st2].
    cbn [fst snd].
    destruct (status_eqb s2 UCS_OK) eqn:Es2; cbn [negb]; [|reflexivity].
    apply status_eqb_ok in Es2. now subst s2.
  - cbn [apply_lookups fst snd status_eqb negb].
    rewrite !apply_config_vars_lookups.
    destruct (apply_lookups _ _ _ (map (pair env_prefix) _) _) as [s2 st2].
    cbn [fst snd].
    destruct (status_eqb s2 UCS_OK) eqn:Es2; cbn [negb]; [|reflexivity].
    apply status_eqb_ok in Es2. now subst s2.
Qed.

(** C1, as amended. For any table, sub-tables, aliases and deprecated
    fields included, and a prefix of two characters or more: when the
    defaults are set without error and every text found by a lookup is
    accepted by the parser of its field, [fill_opts] returns OK and every
    slot holds the value of the text of the last lookup that found one for
    it, where a lookup reads the environment variable of its name and, only
    when that variable is not set, the entry of the file map; a slot for
    which no lookup finds a text keeps the value that the defaults gave it.
    The lookups are those of the pass of the sub-prefix, when [env_prefix]
    has one, followed by those of the pass of [env_prefix]. For a field of
    the table of the entry whose slot no other field shares, this is the
    value of the first text present among: the environment variable named
    [env_prefix ++ table_prefix ++ name], the file entry of that name, the
    environment variable and the file entry under the sub-prefix, and the
    default text. *)
Theorem fill_opts_precedence (ignore_errors : bool) (st : apply_state)
  (m0 : opts_t) :
  ucs_config_parser_set_default_values fnmatch opts (entry_table entry)
    (st_opts st) = (UCS_OK, m0) ->
  Forall (lookup_accepted getenv file_vars)
    (fill_lookups opts entry env_prefix) ->
  exists st',
    ucs_config_parser_fill_opts fnmatch getenv file_vars opts entry env_prefix
      ignore_errors st = (UCS_OK, st', set_loaded entry) /\
    (forall a,
       match deciding_text getenv file_vars a
               (fill_lookups opts entry env_prefix) with
       | Some (l, t) =>
           exists v, accepts (lk_parser l) t v /\ st_opts st' !! a = Some v
       | None => st_opts st' !! a = m0 !! a
       end) /\
    (forall pre post fname d off p v,
       entry_table entry = pre ++ Field fname (Some d) off p :: post ->
       off <> UCS_CONFIG_DEPRECATED_FIELD_OFFSET ->
       ~ In (opts + off) (table_slots opts (pre ++ post)) ->
       accepts p
         (default d
            (first_present
               (field_candidates getenv file_vars env_prefix
                  (entry_prefix entry) fname))) v ->
       st_opts st' !! (opts + off) = Some v).
Proof.
  intros Hd Hacc.
  pose proof (fill_opts_lookups ignore_errors st m0 Hd) as Hfill.
  cbv zeta in Hfill.
  pose proof (apply_lookups_accepted getenv file_vars ignore_errors
                (fill_lookups opts entry env_prefix) Hacc (with_opts st m0))
    as Hok.
  pose proof (apply_lookups_slot getenv file_vars ignore_errors
                (fill_lookups opts entry env_prefix) (with_opts st m0))
    as Hslot.
  destruct (apply_lookups _ _ _ _ _) as [s st'].
  cbn [fst snd] in *. subst s. cbn [status_eqb] in Hfill.
  assert (forall a,
            match deciding_text getenv file_vars a
                    (fill_lookups opts entry env_prefix) with
            | Some (l, t) =>
                exists v, accepts (lk_parser l) t v /\ st_opts st' !! a = Some v
            | None => st_opts st' !! a = m0 !! a
            end) as Hall.
  { intros a. specialize (Hslot a eq_refl).
    destruct (deciding_text _ _ a _) as [[l t]|] eqn:Hdec; [|exact Hslot].
    apply deciding_text_found in Hdec as (prefix & Hin & Hst & Ht).
    pose proof (proj1 (List.Forall_forall _ _) Hacc (prefix, l) Hin Hst t Ht)
      as [v Hv].
    exists v. split; [exact Hv|]. now apply (proj1 Hslot). }
  exists st'. split; [exact Hfill|]. split; [exact Hall|].
  intros pre post fname d off p v Htable Hoff Hown Hv.
  specialize (Hall (opts + off)).
  rewrite (deciding_text_own_slot pre post fname (Some d) off p Htable Hoff
             Hown) in Hall.
  destruct (first_present _) as [t|]; cbn [default] in Hv.
  - destruct Hall as (v' & Hv' & Hs). cbn [lk_parser] in Hv'.
    rewrite Hs. f_equal. now apply (accepts_functional p t).
  - rewrite Hall.
    apply (set_default_own_slot fnmatch opts pre post fname d off p v Hoff)
      with (m := st_opts st); [|exact Hv|now rewrite <- Htable].
    intros Hin. apply Hown. unfold table_slots. rewrite flat_map_app.
    apply in_or_app. now right.
Qed.


End FillOpts.


(** ** The scenarios of the device entry *)

(** The lookups of the device entry under [APP_UCX_]: those of the table,
    under [UCX_] and then under [APP_UCX_]. *)
Lemma device_lookups :
  fill_lookups 4096 device_entry "APP_UCX_" =
  map (pair "UCX_") (table_lookups 4096 device_fields (Some "") true) ++
  map (pair "APP_UCX_") (table_lookups 4096 device_fields (Some "") true).
Proof. reflexivity. Qed.

(** A lookup of a concrete table: what it stores and finds is computed. *)
Ltac device_lookup :=
  let Hst := fresh "Hst" in
  let Ht := fresh "Ht" in
  intros Hst t Ht; vm_compute in Hst, Ht; try discriminate;
  inversion Ht; subst.

(** The texts found for a slot of a concrete table, lookup by lookup. *)
Ltac slot_texts :=
  unfold deciding_text;
  repeat match goal with
  | |- context [omap (slot_text ?g ?f ?a) (?pl :: ?ls)] =>
      first
        [ rewrite (slot_texts_skip g f a pl ls)
            by (apply slot_text_skip; vm_compute; auto)
        | let r := eval vm_compute in (lookup_text g f pl) in
          match r with
          | Some ?t =>
              rewrite (slot_texts_keep g f a pl ls (snd pl, t))
                by (apply slot_text_keep; vm_compute; reflexivity)
          end ]
  end.

Ltac device_table :=
  rewrite device_lookups;
  cbn [table_lookups device_fields flat_map field_lookups app map].

(** The key of the sub-table has four lookups; the last that finds a text
    is the one of the file map under [APP_UCX_IB_QKEY], although the
    environment sets [UCX_QKEY]. *)
Lemma device_key_decided :
  deciding_text (getenv_of env_device) file_device 4160
    (fill_lookups 4096 device_entry "APP_UCX_") =
  Some ({| lk_opts := 4096 + 64; lk_table_prefix := Some "IB_";
           lk_name := "QKEY"; lk_dfl := Some "0"; lk_off := 0;
           lk_parser := UCS_CONFIG_TYPE_UINT |}, "5").
Proof. device_table. slot_texts. reflexivity. Qed.

(** The level is decided by the lookup of its alias. *)
Lemma device_level_decided :
  deciding_text (getenv_of env_device) file_device 4112
    (fill_lookups 4096 device_entry "APP_UCX_") =
  Some ({| lk_opts := 4096; lk_table_prefix := Some "";
           lk_name := "LVL"; lk_dfl := None; lk_off := 16;
           lk_parser := UCS_CONFIG_TYPE_UINT |}, "3").
Proof. device_table. slot_texts. reflexivity. Qed.

Lemma device_defaults :
  ucs_config_parser_set_default_values fnmatch_glob 4096
    (entry_table device_entry) (st_opts no_state) =
  (UCS_OK,
   <[ 4096 := VStr "abc" ]>
     (<[ 4104 := VInt 1 ]> (<[ 4112 := VInt 2 ]> {[ 4160 := VInt 0 ]}))).
Proof. vm_compute. reflexivity. Qed.

(** Under the prefix [APP_UCX_]: the name is the one of the environment,
    not the one of the file map; the key of the sub-table is the one of the
    file map under the full prefix, found after the one of the environment
    under the sub-prefix; the level is the one set through the alias. *)
Lemma fill_opts_precedence_example :
  exists st',
    ucs_config_parser_fill_opts fnmatch_glob (getenv_of env_device)
      file_device 4096 device_entry "APP_UCX_" false no_state =
      (UCS_OK, st', set_loaded device_entry) /\
    st_opts st' !! 4096 = Some (VStr "env") /\
    st_opts st' !! 4160 = Some (VInt 5) /\
    st_opts st' !! 4112 = Some (VInt 3).
Proof.
  destruct (fill_opts_precedence fnmatch_glob (getenv_of env_device)
              file_device 4096 device_entry "APP_UCX_" ltac:(simpl; lia)
              false no_state _ device_defaults)
    as (st' & Heq & Hall & Hown).
  - device_table.
    repeat (apply Forall_cons; split); try solve [constructor];
      device_lookup.
    + exists (VInt 3). intros old. reflexivity.
    + exists (VInt 9). intros old. reflexivity.
    + exists (VStr "env"). intros old. reflexivity.
    + exists (VInt 5). intros old. reflexivity.
  - exists st'. split; [exact Heq|]. split; [|split].
    + apply (Hown [] (tail device_fields) "NAME" "abc" 0
               UCS_CONFIG_TYPE_STRING (VStr "env")).
      * reflexivity.
      * discriminate.
      * vm_compute. intros [H|[H|[H|[H|[]]]]]; discriminate.
      * intros old. vm_compute. reflexivity.
    + specialize (Hall 4160). rewrite device_key_decided in Hall.
      destruct Hall as (v & Hv & Hslot). cbn [lk_parser] in Hv.
      rewrite Hslot. f_equal.
      apply (accepts_functional UCS_CONFIG_TYPE_UINT "5"); [exact Hv|].
      intros old. reflexivity.
    + specialize (Hall 4112). rewrite device_level_decided in Hall.
      destruct Hall as (v & Hv & Hslot). cbn [lk_parser] in Hv.
      rewrite Hslot. f_equal.
      apply (accepts_functional UCS_CONFIG_TYPE_UINT "3"); [exact Hv|].
      intros old. reflexivity.
Defined.

(** C1, as stated, fails: neither the environment nor the file map has a
    variable named [APP_UCX_MODE], the default [signal] reads as 0, and the
    field holds 3, read from [UCX_MODE=poll] under the sub-prefix. *)
Lemma fill_opts_sub_prefix_value_applies :
  config_var_name "APP_UCX_" (entry_prefix mode_entry) "MODE" = "APP_UCX_MODE" /\
  getenv_of env_sub_only "APP_UCX_MODE" = None /\
  (∅ : gmap string string) !! "APP_UCX_MODE" = None /\
  ucs_config_sscanf_enum ucs_async_mode_names "signal" None =
    (1, Some (VInt 0)) /\
  fst (fst (ucs_config_parser_fill_opts fnmatch_glob (getenv_of env_sub_only)
              ∅ 4096 mode_entry "APP_UCX_" false no_state)) = UCS_OK /\
  st_opts (snd (fst (ucs_config_parser_fill_opts fnmatch_glob
                       (getenv_of env_sub_only) ∅ 4096 mode_entry "APP_UCX_"
                       false no_state))) = {[ 4096 := VInt 3 ]} /\
  (* the same with a signed field: default 1, [UCX_NUM=7] *)
  getenv_of env_num_sub_only "APP_UCX_NUM" = None /\
  fst (fst (ucs_config_parser_fill_opts fnmatch_glob
              (getenv_of env_num_sub_only) ∅ 4096 num_entry "APP_UCX_"
              false no_state)) = UCS_OK /\
  st_opts (snd (fst (ucs_config_parser_fill_opts fnmatch_glob
                       (getenv_of env_num_sub_only) ∅ 4096 num_entry
                       "APP_UCX_" false no_state))) = {[ 4096 := VInt 7 ]}.
Proof. repeat apply conj; vm_compute; reflexivity. Qed.






(* ===================================================================== *)
(** * 17. Reading a value back                                            *)
(* ===================================================================== *)

(** A name that is a prefix of the field name passes the test. *)
Lemma strncmp_prefix (name fname : string) :
  str_prefix name fname = true ->
  strncmp fname name (String.length name) = 0.
Proof.
  revert fname. induction name as [|c name IH]; intros fname H;
    [destruct fname; reflexivity|].
  destruct fname as [|d fname]; [discriminate|].
  simpl in H. apply andb_true_iff in H as [Hc Hp].
  apply Ascii.eqb_eq in Hc. subst d.
  simpl. rewrite Ascii.eqb_refl. now apply IH.
Qed.

Lemma begins_with_prefix (name fname : string) :
  str_prefix name fname = true -> begins_with fname name = true.
Proof. intros H. unfold begins_with. now rewrite strncmp_prefix. Qed.

Lemma get_value_loop_left_behind (opts : Z) (name : string) (has_value : bool)
  (max : nat) (m : opts_t) (pre rest : list ucs_config_field_t) :
  Forall (left_behind name) pre ->
  get_value_loop (get_value_step opts name has_value max m) (pre ++ rest) =
  get_value_loop (get_value_step opts name has_value max m) rest.
Proof.
  induction 1 as [|g pre [Hg Ht] _ IH]; [reflexivity|].
  cbn [app get_value_loop]. unfold begins_with in Hg.
  destruct g as [gname gdfl goff gp|gname gdfl goff gsub].
  - cbn [get_value_step]. unfold get_value_by_prefix.
    cbn [field_name] in *. rewrite Hg. exact IH.
  - cbn [get_value_step]. cbn [field_name] in *.
    rewrite (Ht eq_refl). unfold get_value_by_prefix.
    cbn [field_name]. rewrite Hg. exact IH.
Qed.




(* ===================================================================== *)
(** * 18. The default marker of the printer                               *)
(* ===================================================================== *)

(** What the function computes: no file entry under the bare field name,
    and no environment variable of the qualified name. *)
Lemma is_default_spec (getenv : string -> option string)
  (file_vars : gmap string string) (env_prefix prefix name : string) :
  ucs_config_parser_is_default getenv file_vars env_prefix prefix name = true <->
  file_vars !! name = None /\
  getenv (ucs_snprintf_safe 127 (env_prefix +:+ prefix +:+ name)) = None.
Proof.
  unfold ucs_config_parser_is_default.
  rewrite andb_true_iff, !bool_decide_eq_true. reflexivity.
Qed.

(** C9 fails on the code: the file map has an entry for [UCX_TLS], which
    the apply pipeline finds for the field [TLS], and the line of the field
    is still marked as a default; and an entry under the bare name [TLS],
    which the pipeline never reads, removes the mark. *)
Theorem is_default_looks_up_bare_name :
  (found_text (getenv_of ∅) file_with_ucx_tls "UCX_" (Some "") "TLS" = Some "rc" /\
   ucs_config_parser_is_default (getenv_of ∅) file_with_ucx_tls
     "UCX_" "" "TLS" = true /\
   print_field_line (getenv_of ∅) file_with_ucx_tls 4096 "UCX_" "" "TLS"
     (Field "TLS" (Some "all") 0 UCS_CONFIG_TYPE_STRING)
     UCS_CONFIG_PRINT_COMMENT_DEFAULT None {[ 4096 := VStr "rc" ]} =
     Some "# UCX_TLS=rc") /\
  (found_text (getenv_of ∅) file_with_bare_tls "UCX_" (Some "") "TLS" = None /\
   ucs_config_parser_is_default (getenv_of ∅) file_with_bare_tls
     "UCX_" "" "TLS" = false /\
   print_field_line (getenv_of ∅) file_with_bare_tls 4096 "UCX_" "" "TLS"
     (Field "TLS" (Some "all") 0 UCS_CONFIG_TYPE_STRING)
     UCS_CONFIG_PRINT_COMMENT_DEFAULT None {[ 4096 := VStr "all" ]} =
     Some "UCX_TLS=all").
Proof. repeat apply conj; vm_compute; reflexivity. Qed.


(* ===================================================================== *)
(** * 19. The circular list                                               *)
(* ===================================================================== *)

Set Warnings "-clear-no-such-hyp".

(** ** Reading after an assignment *)

Lemma next_set_next (p v q : Z) (h : link_heap) :
  next (link_at (set_next p v h) q) =
  if decide (q = p) then v else next (link_at h q).
Proof.
  unfold set_next, link_at. case_decide as E.
  - subst q. now rewrite lookup_insert_eq.
  - now rewrite lookup_insert_ne by congruence.
Qed.

Lemma next_set_prev (p v q : Z) (h : link_heap) :
  next (link_at (set_prev p v h) q) = next (link_at h q).
Proof.
  unfold set_prev, link_at. destruct (decide (q = p)) as [->|E].
  - now rewrite lookup_insert_eq.
  - now rewrite lookup_insert_ne by congruence.
Qed.

Lemma prev_set_prev (p v q : Z) (h : link_heap) :
  prev (link_at (set_prev p v h) q) =
  if decide (q = p) then v else prev (link_at h q).
Proof.
  unfold set_prev, link_at. case_decide as E.
  - subst q. now rewrite lookup_insert_eq.
  - now rewrite lookup_insert_ne by congruence.
Qed.

Lemma prev_set_next (p v q : Z) (h : link_heap) :
  prev (link_at (set_next p v h) q) = prev (link_at h q).
Proof.
  unfold set_next, link_at. destruct (decide (q = p)) as [->|E].
  - now rewrite lookup_insert_eq.
  - now rewrite lookup_insert_ne by congruence.
Qed.

Ltac links :=
  repeat first
    [ rewrite next_set_next | rewrite next_set_prev
    | rewrite prev_set_prev | rewrite prev_set_next ].

(** ** Chains *)

(** A chain depends on the [next] of its start and of its links, and on
    the [prev] of its links and of its end. *)
Lemma list_chain_frame (h h' : link_heap) (a : Z) (l : list Z) (z : Z) :
  (forall x, x ∈ a :: l -> next (link_at h' x) = next (link_at h x)) ->
  (forall x, x ∈ l ++ [z] -> prev (link_at h' x) = prev (link_at h x)) ->
  list_chain h a l z -> list_chain h' a l z.
Proof.
  revert a. induction l as [|b l IH]; intros a Hn Hp; cbn [list_chain app].
  - intros [H1 H2]. rewrite Hn, Hp by set_solver. now split.
  - intros (H1 & H2 & H3). rewrite Hn, Hp by set_solver.
    repeat split; [exact H1|exact H2|].
    apply IH; [| |exact H3]; intros x Hx; [apply Hn|apply Hp].
    + apply elem_of_cons. now right.
    + apply elem_of_cons. now right.
Qed.

Lemma list_chain_app (h : link_heap) (a : Z) (l1 : list Z) (b : Z)
  (l2 : list Z) (z : Z) :
  list_chain h a (l1 ++ b :: l2) z <->
  list_chain h a l1 b /\ list_chain h b l2 z.
Proof.
  revert a. induction l1 as [|c l1 IH]; intros a; cbn [list_chain app].
  - tauto.
  - rewrite IH. tauto.
Qed.

(** The element before the end of a chain. *)
Lemma list_chain_prev_end (h : link_heap) (a : Z) (l : list Z) (z : Z) :
  list_chain h a l z -> last (a :: l) = Some (prev (link_at h z)).
Proof.
  revert a. induction l as [|b l IH]; intros a; cbn [list_chain].
  - now intros [_ ->].
  - intros (_ & _ & H). rewrite <- (IH b H). reflexivity.
Qed.

(** A list seen from another of its links. *)
Lemma is_list_rotate (h : link_heap) (x : Z) (l1 : list Z) (y : Z)
  (l2 : list Z) :
  is_list h x (l1 ++ y :: l2) -> is_list h y (l2 ++ x :: l1).
Proof.
  intros [Hnd Hc]. split.
  - revert Hnd. rewrite !NoDup_cons, !NoDup_app, !NoDup_cons.
    set_solver.
  - apply list_chain_app in Hc as [H1 H2]. now apply list_chain_app.
Qed.

(** ** The operations, seen from the link before the place they change *)

Ltac decide_links :=
  links; repeat (case_decide; try congruence); try reflexivity; try congruence.

(** Any link belongs to an empty list once [ucs_list_head_init] has run. *)
Lemma head_init_is_list (head : Z) (h : link_heap) :
  is_list (ucs_list_head_init head h) head [].
Proof.
  split; [apply NoDup_singleton|].
  unfold ucs_list_head_init. cbn [list_chain]. split; decide_links.
Qed.

Lemma insert_after_front (h : link_heap) (a e : Z) (l : list Z) :
  is_list h a l -> e ∉ a :: l ->
  is_list (ucs_list_insert_after a e h) a (e :: l).
Proof.
  intros [Hnd Hc] He. split.
  { apply NoDup_cons in Hnd as [Ha Hl]. rewrite !NoDup_cons. set_solver. }
  unfold ucs_list_insert_after, ucs_list_insert_replace.
  assert (e <> a) as Hea by set_solver.
  destruct l as [|b l]; cbn [list_chain] in *.
  - destruct Hc as [Hn Hp]. rewrite Hn. repeat split; decide_links.
  - destruct Hc as (Hn & Hp & Hc). rewrite Hn.
    assert (e <> b) as Heb by set_solver.
    assert (b <> a) as Hba.
    { apply NoDup_cons in Hnd as [Ha _]. set_solver. }
    repeat split; try (decide_links; fail).
    apply (list_chain_frame h); [| |exact Hc].
    + intros x Hx. links.
      assert (x <> a).
      { apply NoDup_cons in Hnd as [Ha _]. set_solver. }
      assert (x <> e) by set_solver.
      repeat case_decide; congruence.
    + intros x Hx. links.
      assert (x <> e).
      { intros ->. apply He. rewrite !elem_of_cons.
        apply elem_of_app in Hx as [Hx|Hx];
          [now right; right|apply list_elem_of_singleton in Hx; now left]. }
      assert (x <> b).
      { intros ->. apply NoDup_cons in Hnd as [_ Hnd].
        apply NoDup_cons in Hnd as [Hb _].
        apply elem_of_app in Hx as [Hx|Hx];
          [now apply Hb|apply list_elem_of_singleton in Hx; congruence]. }
      repeat case_decide; congruence.
Qed.

(** [ucs_list_del] on the link that follows [a]. *)
Lemma del_front (h : link_heap) (a e : Z) (l : list Z) :
  is_list h a (e :: l) ->
  is_list (ucs_list_del e h) a l.
Proof.
  intros [Hnd Hc]. split.
  { apply NoDup_cons in Hnd as [Ha Hl]. apply NoDup_cons in Hl as [_ Hl].
    apply NoDup_cons. set_solver. }
  assert (e <> a) as Hea.
  { apply NoDup_cons in Hnd as [Ha _]. set_solver. }
  unfold ucs_list_del. cbn [list_chain] in Hc.
  destruct Hc as (Hn & Hp & Hc). links. rewrite Hp.
  destruct (decide (e = a)) as [|_]; [congruence|].
  destruct l as [|b l]; cbn [list_chain] in *.
  - destruct Hc as [Hn' Hp']. rewrite Hn'. split; decide_links.
  - destruct Hc as (Hn' & Hp' & Hc). rewrite Hn'.
    assert (b <> a) as Hba.
    { apply NoDup_cons in Hnd as [Ha _]. set_solver. }
    repeat split; try (decide_links; fail).
    apply (list_chain_frame h); [| |exact Hc].
    + intros x Hx. links.
      assert (x <> a).
      { apply NoDup_cons in Hnd as [Ha _]. set_solver. }
      repeat case_decide; congruence.
    + intros x Hx. links.
      assert (x <> b).
      { intros ->. apply NoDup_cons in Hnd as [_ Hnd].
        apply NoDup_cons in Hnd as [_ Hnd].
        apply NoDup_cons in Hnd as [Hb _].
        apply elem_of_app in Hx as [Hx|Hx];
          [now apply Hb|apply list_elem_of_singleton in Hx; congruence]. }
      repeat case_decide; congruence.
Qed.

(** The last link of a chain points to its end. *)
Lemma list_chain_next_last (h : link_heap) (a : Z) (l : list Z) (z t : Z) :
  list_chain h a l z -> last (a :: l) = Some t -> next (link_at h t) = z.
Proof.
  revert a. induction l as [|b l IH]; intros a; cbn [list_chain].
  - intros [Hn _] [= <-]. exact Hn.
  - intros (_ & _ & Hc) Hl. rewrite last_cons_cons in Hl. now apply (IH b).
Qed.

(** In a list, the link before [pos] is the one that points to it. *)
Lemma is_list_prev_next (h : link_heap) (head : Z) (l1 : list Z) (pos : Z)
  (l2 : list Z) :
  is_list h head (l1 ++ pos :: l2) ->
  last (head :: l1) = Some (prev (link_at h pos)) /\
  next (link_at h (prev (link_at h pos))) = pos.
Proof.
  intros [_ Hc]. apply list_chain_app in Hc as [Hc _].
  pose proof (list_chain_prev_end _ _ _ _ Hc) as Hl.
  split; [exact Hl|]. exact (list_chain_next_last _ _ _ _ _ Hc Hl).
Qed.

Lemma is_list_prev_head (h : link_heap) (head : Z) (l : list Z) :
  is_list h head l ->
  last (head :: l) = Some (prev (link_at h head)) /\
  next (link_at h (prev (link_at h head))) = head.
Proof.
  intros [_ Hc]. pose proof (list_chain_prev_end _ _ _ _ Hc) as Hl.
  split; [exact Hl|]. exact (list_chain_next_last _ _ _ _ _ Hc Hl).
Qed.

Lemma insert_before_as_after (h : link_heap) (pos e : Z) :
  next (link_at h (prev (link_at h pos))) = pos ->
  ucs_list_insert_before pos e h =
  ucs_list_insert_after (prev (link_at h pos)) e h.
Proof.
  intros H. unfold ucs_list_insert_before, ucs_list_insert_after.
  now rewrite H.
Qed.

(** ** The list after each operation *)

(** X4: [ucs_list_insert_after] puts the new link right after [pos], and
    the other links keep their order. *)
Theorem list_insert_after_element (h : link_heap) (head : Z)
  (l1 : list Z) (pos : Z) (l2 : list Z) (e : Z) :
  is_list h head (l1 ++ pos :: l2) ->
  e ∉ head :: l1 ++ pos :: l2 ->
  is_list (ucs_list_insert_after pos e h) head (l1 ++ pos :: e :: l2).
Proof.
  intros Hl He. apply is_list_rotate in Hl.
  apply (insert_after_front _ _ e) in Hl.
  - now apply (is_list_rotate _ pos (e :: l2) head l1) in Hl.
  - revert He. rewrite !elem_of_cons, !elem_of_app, !elem_of_cons. tauto.
Qed.

(** X2: [ucs_list_add_head] makes the item the first of the list. *)
Theorem list_add_head (h : link_heap) (head : Z) (l : list Z) (e : Z) :
  is_list h head l ->
  e ∉ head :: l ->
  is_list (ucs_list_add_head head e h) head (e :: l) /\
  ucs_list_head (ucs_list_add_head head e h) head = e.
Proof.
  intros Hl He. pose proof (insert_after_front h head e l Hl He) as H.
  split; [exact H|]. destruct H as [_ Hc]. cbn [list_chain] in Hc.
  exact (proj1 Hc).
Qed.

(** X5: [ucs_list_insert_before] puts the new link right before [pos]. *)
Theorem list_insert_before_element (h : link_heap) (head : Z)
  (l1 : list Z) (pos : Z) (l2 : list Z) (e : Z) :
  is_list h head (l1 ++ pos :: l2) ->
  e ∉ head :: l1 ++ pos :: l2 ->
  is_list (ucs_list_insert_before pos e h) head (l1 ++ e :: pos :: l2).
Proof.
  intros Hl He. destruct (is_list_prev_next _ _ _ _ _ Hl) as [Hlast Hnext].
  rewrite (insert_before_as_after _ _ _ Hnext).
  destruct l1 as [|c l1 _] using rev_ind.
  - cbn [app] in *. injection Hlast as <-.
    now apply insert_after_front.
  - rewrite app_comm_cons, last_snoc in Hlast. injection Hlast as <-.
    rewrite <- !app_assoc in *. cbn [app] in *.
    apply (list_insert_after_element h head l1 c (pos :: l2) e Hl).
    revert He. rewrite !elem_of_cons, !elem_of_app, !elem_of_cons. tauto.
Qed.

(** X3: [ucs_list_add_tail] makes the item the last of the list. *)
Theorem list_add_tail (h : link_heap) (head : Z) (l : list Z) (e : Z) :
  is_list h head l ->
  e ∉ head :: l ->
  is_list (ucs_list_add_tail head e h) head (l ++ [e]) /\
  ucs_list_tail (ucs_list_add_tail head e h) head = e.
Proof.
  intros Hl He.
  assert (is_list (ucs_list_add_tail head e h) head (l ++ [e])) as H.
  { unfold ucs_list_add_tail.
    destruct (is_list_prev_head _ _ _ Hl) as [Hlast Hnext].
    rewrite (insert_before_as_after _ _ _ Hnext).
    destruct l as [|c l _] using rev_ind.
    - injection Hlast as <-. now apply insert_after_front.
    - rewrite app_comm_cons, last_snoc in Hlast. injection Hlast as <-.
      rewrite <- app_assoc. cbn [app].
      apply (list_insert_after_element h head l c [] e Hl).
      revert He. rewrite !elem_of_cons, !elem_of_app, !elem_of_cons. tauto. }
  split; [exact H|].
  destruct (is_list_prev_head _ _ _ H) as [Hlast _].
  rewrite app_comm_cons, last_snoc in Hlast. now injection Hlast.
Qed.

Lemma del_front_stale (h : link_heap) (a e : Z) (l : list Z) :
  is_list h a (e :: l) ->
  prev (link_at (ucs_list_del e h) e) = prev (link_at h e) /\
  next (link_at (ucs_list_del e h) e) = next (link_at h e).
Proof.
  intros [Hnd Hc].
  assert (e <> a) as Hea.
  { apply NoDup_cons in Hnd as [Ha _]. set_solver. }
  unfold ucs_list_del. cbn [list_chain] in Hc.
  destruct Hc as (Hn & Hp & Hc). links. rewrite Hp.
  destruct (decide (e = a)) as [|_]; [congruence|].
  assert (next (link_at h e) <> e) as Hne.
  { apply NoDup_cons in Hnd as [_ Hnd]. apply NoDup_cons in Hnd as [He _].
    destruct l as [|b l]; cbn [list_chain] in Hc.
    - destruct Hc as [-> _]. congruence.
    - destruct Hc as (-> & _). set_solver. }
  split; links; repeat case_decide; congruence.
Qed.

(** X6: [ucs_list_del] takes the link out and keeps the order of the
    others; the link taken out keeps its two pointers. *)
Theorem list_del_element (h : link_heap) (head : Z) (l1 : list Z) (e : Z)
  (l2 : list Z) :
  is_list h head (l1 ++ e :: l2) ->
  is_list (ucs_list_del e h) head (l1 ++ l2) /\
  prev (link_at (ucs_list_del e h) e) = prev (link_at h e) /\
  next (link_at (ucs_list_del e h) e) = next (link_at h e).
Proof.
  intros Hl. destruct l1 as [|p l1 _] using rev_ind.
  - cbn [app] in *. split; [now apply del_front|].
    now apply (del_front_stale h head e l2).
  - rewrite <- app_assoc in Hl. cbn [app] in Hl.
    apply (is_list_rotate h head l1 p (e :: l2)) in Hl. cbn [app] in Hl.
    split.
    + apply del_front in Hl.
      apply (is_list_rotate _ p l2 head l1) in Hl.
      now rewrite <- app_assoc.
    + now apply (del_front_stale h p e (l2 ++ head :: l1)).
Qed.

(** ** Tests and traversals *)

(** X1: a list is empty exactly when [ucs_list_is_empty] says so, and a
    head that [ucs_list_head_init] has set is an empty list. *)
Theorem list_is_empty_iff (h : link_heap) (head : Z) (l : list Z) :
  is_list h head l ->
  (ucs_list_is_empty h head = true <-> l = []).
Proof.
  intros [Hnd Hc]. unfold ucs_list_is_empty. rewrite Z.eqb_eq.
  destruct l as [|b l]; cbn [list_chain] in Hc.
  - tauto.
  - destruct Hc as (-> & _). split; [|discriminate].
    intros ->. apply NoDup_cons in Hnd as [Hb _]. set_solver.
Qed.

Lemma list_length_loop_chain (h : link_heap) (head : Z) (l : list Z) :
  forall (a c : Z) (fuel : nat),
    list_chain h a l head -> head ∉ l ->
    (length l < fuel)%nat -> 0 <= c < 2 ^ 64 ->
    list_length_loop fuel h head (next (link_at h a)) c =
      Some ((c + Z.of_nat (length l)) mod 2 ^ 64).
Proof.
  induction l as [|b l IH]; intros a c fuel Hc Hh Hfuel Hrange;
    (destruct fuel as [|fuel]; [simpl in Hfuel; lia|]);
    cbn [list_chain list_length_loop length] in *.
  - destruct Hc as [-> _]. rewrite Z.eqb_refl.
    rewrite Z.add_0_r, Z.mod_small by lia. reflexivity.
  - destruct Hc as (-> & _ & Hc).
    assert (b <> head) as Hb by set_solver.
    apply Z.eqb_neq in Hb. rewrite Hb.
    rewrite (IH b ((c + 1) mod 2 ^ 64) fuel Hc); try lia.
    + rewrite Zplus_mod_idemp_l. f_equal. f_equal. lia.
    + set_solver.
    + apply Z.mod_pos_bound. lia.
Qed.

(** X7: [ucs_list_length] ends and returns the number of links of the
    list, as an [unsigned long]. *)
Theorem list_length_counts (h : link_heap) (head : Z) (l : list Z)
  (fuel : nat) :
  is_list h head l ->
  (length l < fuel)%nat ->
  ucs_list_length fuel h head = Some (Z.of_nat (length l) mod 2 ^ 64).
Proof.
  intros [Hnd Hc] Hfuel. unfold ucs_list_length.
  rewrite (list_length_loop_chain h head l head 0 fuel Hc); try lia.
  - reflexivity.
  - now apply NoDup_cons in Hnd as [Hh _].
Qed.

Lemma list_for_each_loop_chain (h : link_heap) (head : Z) (l : list Z) :
  forall (a : Z) (fuel : nat),
    list_chain h a l head -> head ∉ l ->
    (length l < fuel)%nat ->
    list_for_each_loop fuel h head (next (link_at h a)) = Some l.
Proof.
  induction l as [|b l IH]; intros a fuel Hc Hh Hfuel;
    (destruct fuel as [|fuel]; [simpl in Hfuel; lia|]);
    cbn [list_chain list_for_each_loop length] in *.
  - destruct Hc as [-> _]. now rewrite Z.eqb_refl.
  - destruct Hc as (-> & _ & Hc).
    assert (b <> head) as Hb by set_solver.
    apply Z.eqb_neq in Hb. rewrite Hb.
    rewrite (IH b fuel Hc); [reflexivity|set_solver|lia].
Qed.

(** X8: [ucs_list_for_each] visits the links of the list, each once, from
    the first to the last, and ends. *)
Theorem list_for_each_visits (h : link_heap) (head : Z) (l : list Z)
  (fuel : nat) :
  is_list h head l ->
  (length l < fuel)%nat ->
  ucs_list_for_each fuel h head = Some l.
Proof.
  intros [Hnd Hc] Hfuel. unfold ucs_list_for_each.
  apply (list_for_each_loop_chain h head l head fuel Hc); [|exact Hfuel].
  now apply NoDup_cons in Hnd as [Hh _].
Qed.

(** X9: [ucs_list_extract_head] returns the first link and leaves the
    others; on an empty list it returns the head itself and the list stays
    empty. *)
Theorem list_extract_head (h : link_heap) (head : Z) (l : list Z) :
  is_list h head l ->
  match l with
  | e :: l' =>
      fst (ucs_list_extract_head head h) = e /\
      is_list (snd (ucs_list_extract_head head h)) head l'
  | [] =>
      fst (ucs_list_extract_head head h) = head /\
      is_list (snd (ucs_list_extract_head head h)) head []
  end.
Proof.
  intros Hl. unfold ucs_list_extract_head. cbn [fst snd].
  destruct l as [|e l].
  - destruct Hl as [Hnd [Hn Hp]]. rewrite Hn. split; [reflexivity|].
    split; [exact Hnd|]. unfold ucs_list_del. rewrite Hp, Hn.
    cbn [list_chain].
    split; links; rewrite ?Hp, ?Hn; repeat case_decide; congruence.
  - pose proof Hl as [_ (Hn & _)]. rewrite Hn. split; [reflexivity|].
    now apply del_front.
Qed.

(** ** Replacing and splicing *)

Lemma replace_front (h : link_heap) (a e r : Z) (l : list Z) :
  is_list h a (e :: l) -> r ∉ a :: e :: l ->
  is_list (ucs_list_replace e r h) a (r :: l).
Proof.
  intros [Hnd Hc] Hr.
  pose proof Hnd as Hnd0.
  apply NoDup_cons in Hnd as [Ha Hnd]. apply NoDup_cons in Hnd as [He Hnd].
  split.
  { rewrite !NoDup_cons. set_solver. }
  assert (r <> a) as Hra by set_solver.
  unfold ucs_list_replace, ucs_list_insert_replace.
  cbn [list_chain] in Hc. destruct Hc as (Hn & Hp & Hc). rewrite Hp.
  destruct l as [|b l]; cbn [list_chain] in *.
  - destruct Hc as [Hn' Hp']. rewrite Hn'. repeat split; decide_links.
  - destruct Hc as (Hn' & Hp' & Hc). rewrite Hn'.
    assert (r <> b) as Hrb by set_solver.
    assert (b <> a) as Hba by set_solver.
    repeat split; try (decide_links; fail).
    apply (list_chain_frame h); [| |exact Hc].
    + intros x Hx. links.
      assert (x <> a) by set_solver. assert (x <> r) by set_solver.
      repeat case_decide; congruence.
    + intros x Hx. links.
      assert (x <> r).
      { intros ->. apply Hr. rewrite !elem_of_cons.
        apply elem_of_app in Hx as [Hx|Hx];
          [now right; right; right|
           apply list_elem_of_singleton in Hx; now left]. }
      assert (x <> b).
      { intros ->. apply NoDup_cons in Hnd as [Hb _].
        apply elem_of_app in Hx as [Hx|Hx];
          [now apply Hb|apply list_elem_of_singleton in Hx; congruence]. }
      repeat case_decide; congruence.
Qed.

(** X10: [ucs_list_replace] puts the replacement at the place of the
    element, and the other links keep their order. *)
Theorem list_replace_element (h : link_heap) (head : Z) (l1 : list Z)
  (e : Z) (l2 : list Z) (r : Z) :
  is_list h head (l1 ++ e :: l2) ->
  r ∉ head :: l1 ++ e :: l2 ->
  is_list (ucs_list_replace e r h) head (l1 ++ r :: l2).
Proof.
  intros Hl Hr. destruct l1 as [|p l1 _] using rev_ind.
  - cbn [app] in *. now apply replace_front.
  - rewrite <- app_assoc in *. cbn [app] in *.
    apply (is_list_rotate h head l1 p (e :: l2)) in Hl. cbn [app] in Hl.
    apply (replace_front _ _ _ r) in Hl.
    + now apply (is_list_rotate _ p (r :: l2) head l1) in Hl.
    + revert Hr. rewrite !elem_of_cons, !elem_of_app, !elem_of_cons. tauto.
Qed.

(** A chain whose last link is made to point to another end. *)
Lemma list_chain_retarget (h h' : link_heap) (a : Z) (l : list Z)
  (z z' t : Z) :
  list_chain h a l z ->
  NoDup (a :: l) ->
  last (a :: l) = Some t ->
  (forall x, x ∈ a :: l -> x <> t ->
     next (link_at h' x) = next (link_at h x)) ->
  (forall x, x ∈ l -> prev (link_at h' x) = prev (link_at h x)) ->
  next (link_at h' t) = z' ->
  prev (link_at h' z') = t ->
  list_chain h' a l z'.
Proof.
  revert a. induction l as [|b l IH]; intros a Hc Hnd Hl Hn Hp Ht Hz;
    cbn [list_chain] in *.
  - injection Hl as <-. now split.
  - destruct Hc as (Hn1 & Hp1 & Hc). rewrite last_cons_cons in Hl.
    apply NoDup_cons in Hnd as [Ha Hnd].
    assert (a <> t) as Hat.
    { intros ->. apply Ha. now apply last_Some_elem_of. }
    rewrite Hn by (set_solver || exact Hat).
    rewrite Hp by set_solver.
    repeat split; [exact Hn1|exact Hp1|].
    apply IH; try assumption.
    + intros x Hx Hxt. apply Hn; [set_solver|exact Hxt].
    + intros x Hx. apply Hp. set_solver.
Qed.

(** X11: [ucs_list_splice_tail] appends the links of [newlist], in their
    order, after those of [head]; the link [newlist] itself is left as it
    was, and an empty [newlist] changes nothing. *)
Theorem list_splice_tail (h : link_heap) (head newlist : Z)
  (l1 l2 : list Z) :
  is_list h head l1 ->
  is_list h newlist l2 ->
  NoDup ((head :: l1) ++ newlist :: l2) ->
  is_list (ucs_list_splice_tail head newlist h) head (l1 ++ l2) /\
  prev (link_at (ucs_list_splice_tail head newlist h) newlist) =
    prev (link_at h newlist) /\
  next (link_at (ucs_list_splice_tail head newlist h) newlist) =
    next (link_at h newlist) /\
  (l2 = [] -> ucs_list_splice_tail head newlist h = h).
Proof.
  intros H1 H2 Hnd. unfold ucs_list_splice_tail.
  pose proof (list_is_empty_iff h newlist l2 H2) as Hempty.
  destruct (ucs_list_is_empty h newlist) eqn:E.
  - assert (l2 = []) as -> by now apply Hempty.
    rewrite app_nil_r. destruct H1. repeat split; auto.
  - assert (l2 <> []) as Hne.
    { intros Hl2. apply Hempty in Hl2. congruence. }
    destruct l2 as [|f m]; [congruence|]. clear Hempty Hne E.
    destruct (is_list_prev_head _ _ _ H1) as [Ht1 _].
    destruct (is_list_prev_head _ _ _ H2) as [Ht2 _].
    rewrite last_cons_cons in Ht2.
    destruct H1 as [Hnd1 Hc1]. destruct H2 as [Hnd2 Hc2].
    cbn [list_chain] in Hc2. destruct Hc2 as (Hnf & Hpf & Hc2).
    rewrite Hnf.
    remember (prev (link_at h head)) as t1 eqn:Et1.
    remember (prev (link_at h newlist)) as t2 eqn:Et2.
    apply last_Some_elem_of in Ht1 as Hin1.
    apply last_Some_elem_of in Ht2 as Hin2.
    apply NoDup_app in Hnd as (_ & Hdisj & _).
    apply NoDup_cons in Hnd2 as [Hnl Hnd2].
    assert (newlist <> f) as Hnlf by set_solver.
    assert (t1 <> newlist) as Ht1nl by (intros ->; set_solver).
    assert (t2 <> newlist) as Ht2nl by (intros ->; set_solver).
    assert (head <> newlist) as Hhnl by (intros ->; set_solver).
    assert (t1 <> t2) as Ht12 by (intros ->; set_solver).
    assert (head <> f) as Hhf by (intros ->; set_solver).
    repeat split.
    + change (NoDup ((head :: l1) ++ f :: m)).
      apply NoDup_app. repeat split; [exact Hnd1| |exact Hnd2].
      intros x Hx Hx'. apply (Hdisj x Hx). set_solver.
    + apply list_chain_app. split.
      * apply (list_chain_retarget h _ head l1 head f t1 Hc1 Hnd1 Ht1).
        -- intros x Hx Hxt. links.
           assert (x <> t2) by (intros ->; set_solver).
           repeat case_decide; congruence.
        -- intros x Hx. links.
           assert (x <> f) by (intros ->; set_solver).
           assert (x <> head).
           { intros ->. apply NoDup_cons in Hnd1 as [Hh _]. set_solver. }
           repeat case_decide; congruence.
        -- decide_links.
        -- decide_links.
      * apply (list_chain_retarget h _ f m newlist head t2 Hc2 Hnd2 Ht2).
        -- intros x Hx Hxt. links.
           assert (x <> t1) by (intros ->; set_solver).
           repeat case_decide; congruence.
        -- intros x Hx. links.
           assert (x <> f).
           { intros ->. apply NoDup_cons in Hnd2 as [Hf _]. set_solver. }
           assert (x <> head) by (intros ->; set_solver).
           repeat case_decide; congruence.
        -- decide_links.
        -- decide_links.
    + decide_links.
    + decide_links.
    + discriminate.
Qed.

(** ** The place of a link *)

(** X12: for a link of the list, [ucs_list_is_first] holds exactly of the
    first, [ucs_list_is_last] exactly of the last, and [ucs_list_is_only]
    exactly when the list has no other link. *)
Theorem list_is_first_last_only (h : link_heap) (head : Z) (l : list Z)
  (e : Z) :
  is_list h head l ->
  e ∈ l ->
  (ucs_list_is_first h head e = true <-> exists l', l = e :: l') /\
  (ucs_list_is_last h head e = true <-> exists l', l = l' ++ [e]) /\
  (ucs_list_is_only h head e = true <-> l = [e]).
Proof.
  intros Hl He. apply list_elem_of_split in He as (l1 & l2 & ->).
  destruct (is_list_prev_next _ _ _ _ _ Hl) as [Hlast _].
  destruct Hl as [Hnd Hc]. apply list_chain_app in Hc as [_ Hc].
  apply NoDup_cons in Hnd as [Hh Hnd].
  apply NoDup_app in Hnd as (Hnd1 & Hdisj & Hnd2).
  apply NoDup_cons in Hnd2 as [He2 Hnd2].
  assert (ucs_list_is_first h head e = true <-> l1 = []) as Hfirst.
  { unfold ucs_list_is_first. rewrite Z.eqb_eq. split.
    - intros Hp. rewrite Hp in Hlast. destruct l1 as [|c l1]; [reflexivity|].
      rewrite last_cons_cons in Hlast. apply last_Some_elem_of in Hlast.
      exfalso. apply Hh. apply elem_of_app. now left.
    - intros ->. cbn in Hlast. now injection Hlast. }
  assert (ucs_list_is_last h head e = true <-> l2 = []) as Hlst.
  { unfold ucs_list_is_last. rewrite Z.eqb_eq.
    destruct l2 as [|b l2]; cbn [list_chain] in Hc.
    - destruct Hc as [-> _]. tauto.
    - destruct Hc as (-> & _). split; [|discriminate].
      intros ->. exfalso. apply Hh. set_solver. }
  assert (forall l', l1 ++ e :: l2 = e :: l' -> l1 = []) as Hfront.
  { intros l' Heq. destruct l1 as [|c l1]; [reflexivity|].
    injection Heq as -> _. exfalso. apply (Hdisj e); set_solver. }
  assert (forall l', l1 ++ e :: l2 = l' ++ [e] -> l2 = []) as Hback.
  { intros l' Heq. destruct l2 as [|b l2] using rev_ind; [reflexivity|].
    exfalso. clear IHl2.
    change (l1 ++ e :: l2 ++ [b]) with (l1 ++ (e :: l2) ++ [b]) in Heq.
    rewrite app_assoc in Heq. apply app_inj_tail in Heq as [_ ->].
    apply He2. set_solver. }
  repeat split.
  - intros H. apply Hfirst in H. subst l1. now exists l2.
  - intros [l' Heq]. apply Hfirst. now apply (Hfront l').
  - intros H. apply Hlst in H. subst l2. now exists l1.
  - intros [l' Heq]. apply Hlst. now apply (Hback l').
  - unfold ucs_list_is_only. intros H. apply andb_true_iff in H as [Hf Hb].
    apply Hfirst in Hf. apply Hlst in Hb. now subst.
  - intros Heq. unfold ucs_list_is_only. apply andb_true_iff. split.
    + apply Hfirst. now apply (Hfront []).
    + apply Hlst. now apply (Hback []).
Qed.

(** X13: adding a link at the tail and deleting it again restores the two
    pointers of every other link, so the list is as before. *)
Theorem list_add_tail_del_restores (h : link_heap) (head : Z) (l : list Z)
  (e : Z) :
  is_list h head l ->
  e ∉ head :: l ->
  (forall x, x <> e ->
     prev (link_at (ucs_list_del e (ucs_list_add_tail head e h)) x) =
       prev (link_at h x) /\
     next (link_at (ucs_list_del e (ucs_list_add_tail head e h)) x) =
       next (link_at h x)) /\
  is_list (ucs_list_del e (ucs_list_add_tail head e h)) head l.
Proof.
  intros Hl He.
  destruct (is_list_prev_head _ _ _ Hl) as [Hlast Hnext].
  apply last_Some_elem_of in Hlast.
  assert (e <> head) as Heh by set_solver.
  assert (e <> prev (link_at h head)) as Het by (intros Heq; now rewrite <- Heq in Hlast).
  assert (forall x, x <> e ->
     prev (link_at (ucs_list_del e (ucs_list_add_tail head e h)) x) =
       prev (link_at h x) /\
     next (link_at (ucs_list_del e (ucs_list_add_tail head e h)) x) =
       next (link_at h x)) as Hframe.
  { intros x Hx.
    unfold ucs_list_del, ucs_list_add_tail, ucs_list_insert_before,
      ucs_list_insert_replace.
    split; links; repeat (case_decide; subst; try congruence). }
  split; [exact Hframe|].
  destruct Hl as [Hnd Hc]. split; [exact Hnd|].
  apply (list_chain_frame h); [| |exact Hc].
  - intros x Hx. apply Hframe. intros ->. now apply He.
  - intros x Hx. apply Hframe. intros ->. apply He.
    apply elem_of_app in Hx as [Hx|Hx]; [set_solver|].
    apply list_elem_of_singleton in Hx. congruence.
Qed.

(** ** The operations on a small memory *)

Ltac distinct_links :=
  repeat (apply NoDup_cons; split; [set_solver|]); apply NoDup_nil_2.

Lemma three_links_is_list : is_list three_links 16 [32; 48].
Proof. split; [distinct_links|]. cbn [list_chain]. repeat split. Qed.

Lemma two_lists_first : is_list two_lists 16 [32; 48].
Proof. split; [distinct_links|]. cbn [list_chain]. repeat split. Qed.

Lemma two_lists_second : is_list two_lists 64 [80].
Proof. split; [distinct_links|]. cbn [list_chain]. repeat split. Qed.

Lemma list_is_empty_iff_example :
  ucs_list_is_empty three_links 16 = true <-> [32; 48] = ([] : list Z).
Proof. apply (list_is_empty_iff three_links 16 [32; 48] three_links_is_list). Defined.

Lemma list_add_head_example :
  is_list (ucs_list_add_head 16 64 three_links) 16 [64; 32; 48] /\
  ucs_list_head (ucs_list_add_head 16 64 three_links) 16 = 64.
Proof.
  apply (list_add_head three_links 16 [32; 48] 64 three_links_is_list).
  set_solver.
Defined.

Lemma list_add_tail_example :
  is_list (ucs_list_add_tail 16 64 three_links) 16 [32; 48; 64] /\
  ucs_list_tail (ucs_list_add_tail 16 64 three_links) 16 = 64.
Proof.
  apply (list_add_tail three_links 16 [32; 48] 64 three_links_is_list).
  set_solver.
Defined.

Lemma list_insert_after_element_example :
  is_list (ucs_list_insert_after 32 64 three_links) 16 [32; 64; 48].
Proof.
  apply (list_insert_after_element three_links 16 [] 32 [48] 64
           three_links_is_list).
  set_solver.
Defined.

Lemma list_insert_before_element_example :
  is_list (ucs_list_insert_before 48 64 three_links) 16 [32; 64; 48].
Proof.
  apply (list_insert_before_element three_links 16 [32] 48 [] 64
           three_links_is_list).
  set_solver.
Defined.

Lemma list_del_element_example :
  is_list (ucs_list_del 32 three_links) 16 [48] /\
  prev (link_at (ucs_list_del 32 three_links) 32) =
    prev (link_at three_links 32) /\
  next (link_at (ucs_list_del 32 three_links) 32) =
    next (link_at three_links 32).
Proof.
  apply (list_del_element three_links 16 [] 32 [48] three_links_is_list).
Defined.

Lemma list_length_counts_example :
  ucs_list_length 3 three_links 16 = Some (2 mod 2 ^ 64).
Proof.
  apply (list_length_counts three_links 16 [32; 48] 3 three_links_is_list).
  simpl. lia.
Defined.

Lemma list_for_each_visits_example :
  ucs_list_for_each 3 three_links 16 = Some [32; 48].
Proof.
  apply (list_for_each_visits three_links 16 [32; 48] 3 three_links_is_list).
  simpl. lia.
Defined.

Lemma list_extract_head_example :
  fst (ucs_list_extract_head 16 three_links) = 32 /\
  is_list (snd (ucs_list_extract_head 16 three_links)) 16 [48].
Proof.
  apply (list_extract_head three_links 16 [32; 48] three_links_is_list).
Defined.

Lemma list_replace_element_example :
  is_list (ucs_list_replace 48 64 three_links) 16 [32; 64].
Proof.
  apply (list_replace_element three_links 16 [32] 48 [] 64
           three_links_is_list).
  set_solver.
Defined.

Lemma list_splice_tail_example :
  is_list (ucs_list_splice_tail 16 64 two_lists) 16 ([32; 48] ++ [80]) /\
  prev (link_at (ucs_list_splice_tail 16 64 two_lists) 64) =
    prev (link_at two_lists 64) /\
  next (link_at (ucs_list_splice_tail 16 64 two_lists) 64) =
    next (link_at two_lists 64) /\
  ([80] = [] -> ucs_list_splice_tail 16 64 two_lists = two_lists).
Proof.
  apply (list_splice_tail two_lists 16 64 [32; 48] [80] two_lists_first
           two_lists_second).
  distinct_links.
Defined.

Lemma list_is_first_last_only_example :
  (ucs_list_is_first three_links 16 32 = true <->
     exists l', [32; 48] = 32 :: l') /\
  (ucs_list_is_last three_links 16 32 = true <->
     exists l', [32; 48] = l' ++ [32]) /\
  (ucs_list_is_only three_links 16 32 = true <-> [32; 48] = [32]).
Proof.
  apply (list_is_first_last_only three_links 16 [32; 48] 32
           three_links_is_list).
  set_solver.
Defined.

Lemma list_add_tail_del_restores_example :
  (forall x, x <> 64 ->
     prev (link_at (ucs_list_del 64 (ucs_list_add_tail 16 64 three_links)) x) =
       prev (link_at three_links x) /\
     next (link_at (ucs_list_del 64 (ucs_list_add_tail 16 64 three_links)) x) =
       next (link_at three_links x)) /\
  is_list (ucs_list_del 64 (ucs_list_add_tail 16 64 three_links)) 16 [32; 48].
Proof.
  apply (list_add_tail_del_restores three_links 16 [32; 48] 64
           three_links_is_list).
  set_solver.
Defined.


(* ===================================================================== *)
(** * 20. The lines of a configuration file                               *)
(* ===================================================================== *)

Lemma strcmp_refl (s : string) : strcmp s s = 0.
Proof.
  induction s as [|c s IH]; [reflexivity|].
  simpl. now rewrite Ascii.eqb_refl.
Qed.

Section ConfigFileLine.

Variable fnmatch_casefold : fnmatch_t.
Variable filters : list (string * string).

(** X14: a line that is not skipped is recorded when its name is new to the
    file map or the load may override: the map then answers the name with
    the value of the line and every other name as before. When the name is
    in the map and the load may not override, the line is refused with 0
    and the map is left as it was. *)
Theorem config_file_line_not_skipped (arg : ucs_config_parse_arg_t)
  (section name value : string) (file_vars : gmap string string) :
  section_skip
    (ucs_config_parse_set_section_info fnmatch_casefold filters
       (section_info arg) section name value) = false ->
  let result :=
    ucs_config_parse_config_file_line fnmatch_casefold filters arg section
      name value file_vars in
  (file_vars !! name = None \/ override arg = true ->
   fst (fst result) = 1 /\
   ucs_config_get_value_from_config_file (snd result) name = Some value /\
   forall other, other <> name -> snd result !! other = file_vars !! other) /\
  (is_Some (file_vars !! name) -> override arg = false ->
   fst (fst result) = 0 /\ snd result = file_vars).
Proof.
  intros Hskip result. subst result.
  unfold ucs_config_parse_config_file_line.
  rewrite Hskip. unfold ucs_config_get_value_from_config_file. split.
  - intros Hnew. destruct (file_vars !! name) as [old|] eqn:E.
    + destruct Hnew as [|Hov]; [discriminate|]. rewrite Hov. cbn [fst snd].
      repeat split; [apply lookup_insert_eq|].
      intros other Hne. now apply lookup_insert_ne.
    + cbn [fst snd]. repeat split; [apply lookup_insert_eq|].
      intros other Hne. now apply lookup_insert_ne.
  - intros [old Hold] Hov. rewrite Hold, Hov. now split.
Qed.

(** X15: once a line of a section has failed a host filter, that line and
    every later line of the same section are accepted without being
    recorded: the file map stays as it was. *)
Theorem config_file_failed_filter_skips_section
  (arg : ucs_config_parse_arg_t) (section name value : string)
  (file_vars : gmap string string) :
  (String.length section < 64)%nat ->
  ucs_config_parse_check_filter fnmatch_casefold filters name value = true ->
  strcmp section (section_name (section_info arg)) <> 0 \/
    section_skip (section_info arg) = false ->
  let first :=
    ucs_config_parse_config_file_line fnmatch_casefold filters arg section
      name value file_vars in
  first = (1, snd (fst first), file_vars) /\
  forall name' value',
    ucs_config_parse_config_file_line fnmatch_casefold filters
      (snd (fst first)) section name' value' file_vars =
    (1, snd (fst first), file_vars).
Proof.
  intros Hlen Hfilter Hstate first.
  assert (exists sname,
            strcmp section sname = 0 /\
            first =
              (1,
               {| override := override arg;
                  section_info :=
                    {| section_name := sname; section_skip := true |} |},
               file_vars)) as (sname & Hsame & Hfirst).
  { subst first.
    unfold ucs_config_parse_config_file_line,
      ucs_config_parse_set_section_info.
    rewrite Hfilter.
    destruct (strcmp section (section_name (section_info arg)) =? 0) eqn:E;
      cbn [negb].
    - apply Z.eqb_eq in E. destruct Hstate as [Hne|Hns]; [congruence|].
      rewrite Hns. exists (section_name (section_info arg)).
      split; [exact E|reflexivity].
    - exists (ucs_strncpy_zero 64 section). split; [|reflexivity].
      unfold ucs_strncpy_zero.
      rewrite str_take_all by (simpl; lia). apply strcmp_refl. }
  rewrite Hfirst. cbn [fst snd]. split; [reflexivity|].
  intros name' value'.
  unfold ucs_config_parse_config_file_line, ucs_config_parse_set_section_info.
  cbn [section_info section_name section_skip override].
  rewrite Hsame. reflexivity.
Qed.

(** X16: inside a section that is already skipped, a line changes nothing,
    whatever its name and value: not the file map, and not the state of
    the section, even when the line is a host filter that matches. *)
Theorem config_file_skipped_section_stays (arg : ucs_config_parse_arg_t)
  (section name value : string) (file_vars : gmap string string) :
  strcmp section (section_name (section_info arg)) = 0 ->
  section_skip (section_info arg) = true ->
  ucs_config_parse_config_file_line fnmatch_casefold filters arg section
    name value file_vars = (1, arg, file_vars).
Proof.
  intros Hsame Hskip. destruct arg as [ov [sname sskip]].
  cbn [section_info section_name section_skip] in *. subst sskip.
  unfold ucs_config_parse_config_file_line, ucs_config_parse_set_section_info.
  cbn [section_info section_name section_skip override].
  rewrite Hsame. reflexivity.
Qed.

End ConfigFileLine.

(** The line [UCX_TLS=ud] outside any section, when the map already
    holds [UCX_TLS=rc]: an overriding load records it, another refuses
    it. *)
Lemma config_file_line_not_skipped_example :
  (fst (fst (ucs_config_parse_config_file_line fnmatch_glob []
               (parse_arg_init true) "" "UCX_TLS" "ud"
               {[ "UCX_TLS" := "rc" ]})) = 1 /\
   ucs_config_get_value_from_config_file
     (snd (ucs_config_parse_config_file_line fnmatch_glob []
             (parse_arg_init true) "" "UCX_TLS" "ud"
             {[ "UCX_TLS" := "rc" ]})) "UCX_TLS" = Some "ud") /\
  (fst (fst (ucs_config_parse_config_file_line fnmatch_glob []
               (parse_arg_init false) "" "UCX_TLS" "ud"
               {[ "UCX_TLS" := "rc" ]})) = 0 /\
   snd (ucs_config_parse_config_file_line fnmatch_glob []
          (parse_arg_init false) "" "UCX_TLS" "ud" {[ "UCX_TLS" := "rc" ]}) =
     {[ "UCX_TLS" := "rc" ]}).
Proof.
  split.
  - destruct (config_file_line_not_skipped fnmatch_glob []
                (parse_arg_init true) "" "UCX_TLS" "ud"
                {[ "UCX_TLS" := "rc" ]} eq_refl) as [Hrec _].
    destruct (Hrec (or_intror eq_refl)) as (H1 & H2 & _). now split.
  - destruct (config_file_line_not_skipped fnmatch_glob []
                (parse_arg_init false) "" "UCX_TLS" "ud"
                {[ "UCX_TLS" := "rc" ]} eq_refl) as [_ Hdup].
    apply Hdup; [now eexists|reflexivity].
Defined.

(** The section [cpu] with the line [CPU model = v1.*] on a host whose
    model is [v2.0]: no later line of the section is recorded. *)
Lemma config_file_failed_filter_skips_section_example :
  ucs_config_parse_config_file_line fnmatch_glob [("CPU model", "v2.0")]
    (parse_arg_init false) "cpu" "CPU model" "v1.*" ∅ =
    (1,
     snd (fst (ucs_config_parse_config_file_line fnmatch_glob
                 [("CPU model", "v2.0")] (parse_arg_init false)
                 "cpu" "CPU model" "v1.*" ∅)),
     ∅) /\
  forall name' value',
    ucs_config_parse_config_file_line fnmatch_glob [("CPU model", "v2.0")]
      (snd (fst (ucs_config_parse_config_file_line fnmatch_glob
                   [("CPU model", "v2.0")] (parse_arg_init false)
                   "cpu" "CPU model" "v1.*" ∅)))
      "cpu" name' value' ∅ =
    (1,
     snd (fst (ucs_config_parse_config_file_line fnmatch_glob
                 [("CPU model", "v2.0")] (parse_arg_init false)
                 "cpu" "CPU model" "v1.*" ∅)),
     ∅).
Proof.
  apply (config_file_failed_filter_skips_section fnmatch_glob
           [("CPU model", "v2.0")] (parse_arg_init false)
           "cpu" "CPU model" "v1.*" ∅).
  - simpl. lia.
  - reflexivity.
  - left. vm_compute. discriminate.
Defined.

Lemma config_file_skipped_section_stays_example :
  ucs_config_parse_config_file_line fnmatch_glob [("CPU model", "v2.0")]
    {| override := false;
       section_info := {| section_name := "cpu"; section_skip := true |} |}
    "cpu" "CPU model" "v2.*" ∅ =
  (1,
   {| override := false;
      section_info := {| section_name := "cpu"; section_skip := true |} |},
   ∅).
Proof.
  apply (config_file_skipped_section_stays fnmatch_glob
           [("CPU model", "v2.0")]
           {| override := false;
              section_info :=
                {| section_name := "cpu"; section_skip := true |} |}
           "cpu" "CPU model" "v2.*" ∅); reflexivity.
Defined.


(* ===================================================================== *)
(** * 21. More round trips: ranges, arrays, allow lists                   *)
(* ===================================================================== *)

(** ** Ranges *)

Lemma utoa_aux_all_digits (fuel : nat) (n : Z) (acc : string) :
  str_all is_digit acc = true ->
  str_all is_digit (utoa_aux fuel n acc) = true.
Proof.
  revert n acc. induction fuel as [|fuel IH]; intros n acc Hacc;
    cbn [utoa_aux]; [exact Hacc|].
  assert (str_all is_digit (String (digit_char (n mod 10)) acc) = true) as H.
  { cbn [str_all]. rewrite Hacc.
    destruct (digit_char_is_digit (n mod 10)) as [-> _]; [|reflexivity].
    apply Z.mod_pos_bound. lia. }
  destruct (n / 10 =? 0); [exact H|now apply IH].
Qed.

Lemma utoa_all_digits (n : Z) : str_all is_digit (utoa n) = true.
Proof. unfold utoa. now apply utoa_aux_all_digits. Qed.

Lemma digit_is_not_dash (c : ascii) :
  is_digit c = true -> Ascii.eqb c "-" = false.
Proof.
  revert c.
  assert (forall c, (negb (is_digit c) || negb (Ascii.eqb c "-")) = true) as H
    by (apply all_chars_spec; vm_compute; reflexivity).
  intros c Hc. specialize (H c). rewrite Hc in H. simpl in H.
  now apply negb_true_iff in H.
Qed.

Lemma strchr_digits_dash (s t : string) :
  str_all is_digit s = true ->
  strchr (s +:+ String "-" t) "-" = Some (String.length s).
Proof.
  induction s as [|c s IH]; intros H; [reflexivity|].
  cbn [str_all] in H. apply andb_true_iff in H as [Hc Hs].
  change (String c s +:+ String "-" t) with (String c (s +:+ String "-" t)).
  cbn [strchr String.length]. rewrite (digit_is_not_dash c Hc).
  now rewrite (IH Hs).
Qed.

Lemma strchr_digits_none (s : string) :
  str_all is_digit s = true -> strchr s "-" = None.
Proof.
  induction s as [|c s IH]; intros H; [reflexivity|].
  cbn [str_all] in H. apply andb_true_iff in H as [Hc Hs].
  cbn [strchr]. rewrite (digit_is_not_dash c Hc). now rewrite (IH Hs).
Qed.

Lemma str_take_app (s1 s2 : string) :
  str_take (String.length s1) (s1 +:+ s2) = s1.
Proof.
  induction s1 as [|c s1 IH]; [now destruct s2|].
  change (String c s1 +:+ s2) with (String c (s1 +:+ s2)).
  cbn [String.length str_take]. now rewrite IH.
Qed.

Lemma str_drop_past_dash (s1 s2 : string) :
  str_drop (S (String.length s1)) (s1 +:+ String "-" s2) = s2.
Proof.
  induction s1 as [|c s1 IH]; [reflexivity|].
  change (String c s1 +:+ String "-" s2)
    with (String c (s1 +:+ String "-" s2)).
  cbn [String.length]. exact IH.
Qed.

Lemma utoa_length_31 (n : Z) :
  0 <= n < 2 ^ 31 -> (String.length (utoa n) <= 31)%nat.
Proof.
  intros Hn. unfold utoa.
  pose proof (utoa_aux_length (S (Z.to_nat (Z.log2 n))) n "") as H.
  change (String.length "") with O in H.
  assert (Z.log2 n < 31).
  { destruct (Z.eq_dec n 0) as [->|Hz]; [reflexivity|].
    apply Z.log2_lt_pow2; lia. }
  pose proof (Z.log2_nonneg n). lia.
Qed.

(** X17: a range whose bounds are below 2^31 is written as a text that the
    range parser reads back as the same range, in any buffer of 64 bytes
    or more. *)
Theorem range_spec_round_trip (first last : Z) (max : nat)
  (old : option value) :
  0 <= first < 2 ^ 31 ->
  0 <= last < 2 ^ 31 ->
  (64 <= max)%nat ->
  ucs_config_sscanf_range_spec
    (snd (ucs_config_sprintf_range_spec max (Some (VRange first last))))
    old = (1, Some (VRange first last)).
Proof.
  intros Hf Hl Hmax. unfold ucs_config_sprintf_range_spec.
  rewrite !to_int32_small by lia. unfold itoa.
  destruct (first <? 0) eqn:E1; [lia|]. destruct (last <? 0) eqn:E2; [lia|].
  pose proof (utoa_length_31 first Hf) as Hlf.
  pose proof (utoa_length_31 last Hl) as Hll.
  destruct (first =? last) eqn:E; cbn [snd].
  - apply Z.eqb_eq in E. subst last.
    rewrite snprintf_fits by lia. cbn [snd].
    unfold ucs_config_sscanf_range_spec.
    rewrite (strchr_digits_none _ (utoa_all_digits first)).
    now rewrite (sscanf_unsigned_utoa 32 first) by lia.
  - rewrite snprintf_fits.
    2:{ rewrite !length_app. simpl String.length. lia. }
    cbn [snd]. unfold ucs_config_sscanf_range_spec.
    change ("-" +:+ utoa last) with (String "-" (utoa last)).
    rewrite (strchr_digits_dash _ _ (utoa_all_digits first)).
    rewrite str_take_app, str_drop_past_dash.
    now rewrite !sscanf_unsigned_utoa by lia.
Qed.

Lemma range_spec_round_trip_example :
  ucs_config_sscanf_range_spec
    (snd (ucs_config_sprintf_range_spec 256 (Some (VRange 3 17))))
    None = (1, Some (VRange 3 17)).
Proof. apply (range_spec_round_trip 3 17 256 None); lia. Defined.

(** ** Arrays *)

Lemma append_nil_r_str (s : string) : s +:+ "" = s.
Proof.
  induction s as [|c s IH]; [reflexivity|].
  change (String c s +:+ "") with (String c (s +:+ "")). now rewrite IH.
Qed.

Lemma append_snoc_str (cur : string) (c : ascii) (t : string) :
  (cur +:+ String c "") +:+ t = cur +:+ String c t.
Proof. now rewrite <- append_assoc_str. Qed.

(** A text without delimiter is read into the current token. *)
Lemma tokens_from_app (d : ascii) (t rest cur : string) :
  strchr t d = None ->
  tokens_from d (t +:+ rest) cur = tokens_from d rest (cur +:+ t).
Proof.
  revert cur. induction t as [|c t IH]; intros cur H.
  - now rewrite append_nil_r_str.
  - cbn [strchr] in H. destruct (Ascii.eqb c d) eqn:E; [discriminate|].
    destruct (strchr t d) eqn:Et; [discriminate|].
    change (String c t +:+ rest) with (String c (t +:+ rest)).
    cbn [tokens_from]. rewrite E. rewrite (IH _ eq_refl).
    now rewrite append_snoc_str.
Qed.

(** The texts that follow their delimiter, after the first text. *)
Lemma tokens_from_joined (d : ascii) (texts : list string) (cur : string) :
  cur <> "" ->
  Forall (fun t => t <> "" /\ strchr t d = None) texts ->
  tokens_from d
    (fold_right (fun u acc => String d "" +:+ u +:+ acc) "" texts) cur =
  cur :: texts.
Proof.
  intros Hcur H. revert cur Hcur.
  induction H as [|t texts [Ht Hd] _ IH]; intros cur Hcur; cbn [fold_right].
  - cbn [tokens_from]. apply String.eqb_neq in Hcur. now rewrite Hcur.
  - change (String d "" +:+ t +:+ fold_right
              (fun u acc => String d "" +:+ u +:+ acc) "" texts)
      with (String d (t +:+ fold_right
              (fun u acc => String d "" +:+ u +:+ acc) "" texts)).
    cbn [tokens_from]. rewrite Ascii.eqb_refl.
    apply String.eqb_neq in Hcur. rewrite Hcur.
    rewrite (tokens_from_app d t _ "" Hd).
    change ("" +:+ t) with t. now rewrite (IH t Ht).
Qed.

Lemma strtok_all_joined (texts : list string) :
  Forall (fun t => t <> "" /\ strchr t "," = None) texts ->
  strtok_all "," (join_with "," texts) = texts.
Proof.
  intros H. unfold strtok_all, join_with.
  destruct H as [|t texts [Ht Hd] H]; [reflexivity|].
  rewrite (tokens_from_app "," t _ "" Hd). change ("" +:+ t) with t.
  now apply (tokens_from_joined "," texts t Ht).
Qed.

Lemma element_texts_tokens (p : ucs_config_parser_t) (elems : list value)
  (texts : list string) :
  Forall2 (element_text p) elems texts ->
  Forall (fun t => t <> "" /\ strchr t "," = None) texts.
Proof.
  induction 1 as [|e t elems texts (Ht & Hd & _) _ IH]; constructor; auto.
Qed.

Lemma sscanf_array_loop_texts (array_max : nat) (array : ucs_config_array_t)
  (elems : list value) (texts : list string) :
  Forall2 (element_text (elem_parser array)) elems texts ->
  forall (i : nat) (temp_field : list value),
    (i + length elems <= array_max)%nat ->
    sscanf_array_loop array_max array texts i temp_field =
      Some (temp_field ++ elems).
Proof.
  induction 1 as [|e t elems texts (_ & _ & _ & Hr) Hrest IH];
    intros i temp_field Hlen; cbn [sscanf_array_loop].
  - now rewrite app_nil_r.
  - destruct (Hr (Some VZero)) as [Hret Hslot].
    destruct (read (elem_parser array) t (Some VZero)) as [ret slot].
    cbn [fst snd] in *. subst slot.
    apply Z.eqb_neq in Hret. rewrite Hret. cbn [default].
    cbn [length] in Hlen.
    destruct (array_max <=? S i)%nat eqn:E.
    + apply Nat.leb_le in E.
      assert (elems = []) as -> by (destruct elems; [reflexivity|simpl in Hlen; lia]).
      reflexivity.
    + apply Nat.leb_gt in E. rewrite IH by lia.
      now rewrite <- app_assoc.
Qed.

Lemma sprintf_array_loop_texts (array : ucs_config_array_t) (max : nat)
  (elems : list value) (texts : list string) :
  Forall2 (element_text (elem_parser array)) elems texts ->
  forall (i : nat) (buf : string),
    (0 < i)%nat ->
    (String.length
       (buf +:+ fold_right (fun u acc => "," +:+ u +:+ acc) "" texts) < max)%nat ->
    sprintf_array_loop array max elems i buf =
      (1, buf +:+ fold_right (fun u acc => "," +:+ u +:+ acc) "" texts).
Proof.
  induction 1 as [|e t elems texts (_ & _ & Hw & _) Hrest IH];
    intros i buf Hi Hlen; cbn [sprintf_array_loop fold_right] in *.
  - now rewrite append_nil_r_str.
  - rewrite !length_app in Hlen.
    change (String.length ",") with 1%nat in Hlen.
    assert ((0 <? i)%nat = true) as -> by now apply Nat.ltb_lt.
    assert ((String.length buf <? max)%nat = true) as ->
      by (apply Nat.ltb_lt; lia).
    cbn [andb].
    destruct (Hw (max - String.length (buf +:+ ","))%nat) as [Hret Htext].
    { rewrite length_app. change (String.length ",") with 1%nat. lia. }
    destruct (write (elem_parser array)
                (max - String.length (buf +:+ ",")) (Some e)) as [ret text].
    cbn [fst snd] in *. subst text.
    apply Z.eqb_neq in Hret. rewrite Hret.
    rewrite IH.
    + f_equal. now rewrite <- !append_assoc_str.
    + lia.
    + rewrite !length_app. change (String.length ",") with 1%nat. lia.
Qed.

Lemma array_texts_round_trip (array_max max : nat)
  (array : ucs_config_array_t)
  (elems : list value) (texts : list string) (old : string)
  (dest : option value) :
  Forall2 (element_text (elem_parser array)) elems texts ->
  (length elems <= array_max)%nat ->
  (String.length (join_with "," texts) < max)%nat ->
  ucs_config_sprintf_array array old max (Some (VArray elems)) =
    (1, match elems with [] => old | _ :: _ => join_with "," texts end) /\
  ucs_config_sscanf_array array_max array (join_with "," texts) dest =
    (1, Some (VArray elems)).
Proof.
  intros H Hcount Hfit. split.
  - unfold ucs_config_sprintf_array. cbn [array_elems].
    destruct H as [|e t elems texts (_ & _ & Hw & _) Hrest];
      [reflexivity|].
    cbn [sprintf_array_loop join_with] in *.
    change (0 <? 0)%nat with false. cbn [andb].
    change (String.length "") with O. rewrite Nat.sub_0_r.
    rewrite length_app in Hfit.
    destruct (Hw max) as [Hret Htext]; [lia|].
    destruct (write (elem_parser array) max (Some e)) as [ret text].
    cbn [fst snd] in *. subst text.
    apply Z.eqb_neq in Hret. rewrite Hret.
    change ("" +:+ t) with t.
    apply (sprintf_array_loop_texts array max elems texts Hrest 1 t); [lia|].
    now rewrite length_app.
  - unfold ucs_config_sscanf_array.
    rewrite (strtok_all_joined texts (element_texts_tokens _ _ _ H)).
    now rewrite (sscanf_array_loop_texts array_max array elems texts H 0 [])
      by lia.
Qed.

(** X19: an array with at least one element, whose elements each have a
    text (not empty, without comma, written and read back by the element
    parser), is written as these texts separated by commas, and that text
    is read back as the same array, when it fits the buffer and the array
    is within the bound on the number of elements. An array without
    elements is written as nothing at all: the buffer holds on return the
    text [old] that it held on entry; the empty text is read as the array
    without elements. *)
Theorem array_round_trip (array_max max : nat) (array : ucs_config_array_t)
  (elems : list value) (texts : list string) (old : string)
  (dest : option value) :
  Forall2 (element_text (elem_parser array)) elems texts ->
  (length elems <= array_max)%nat ->
  (String.length (join_with "," texts) < max)%nat ->
  ucs_config_sprintf_array array old max (Some (VArray elems)) =
    (1, match elems with [] => old | _ :: _ => join_with "," texts end) /\
  ucs_config_sscanf_array array_max array (join_with "," texts) dest =
    (1, Some (VArray elems)).
Proof. apply array_texts_round_trip. Qed.

(** The text of a string element is the string. *)
Lemma string_element_text (t : string) :
  t <> "" -> strchr t "," = None ->
  element_text UCS_CONFIG_TYPE_STRING (VStr t) t.
Proof.
  intros Ht Hd. repeat split; try assumption; try discriminate.
  cbn [UCS_CONFIG_TYPE_STRING write snd].
  unfold ucs_config_sprintf_string, strncpy. cbn [slot_str].
  apply str_take_all. lia.
Qed.

(** Two names written over a buffer that held [zz], and no name written
    over it. *)
Lemma array_round_trip_example :
  (ucs_config_sprintf_array ucs_config_array_string "zz" 256
     (Some (VArray [VStr "rc"; VStr "ud"])) = (1, join_with "," ["rc"; "ud"]) /\
   ucs_config_sscanf_array 8 ucs_config_array_string
     (join_with "," ["rc"; "ud"]) None =
     (1, Some (VArray [VStr "rc"; VStr "ud"]))) /\
  (ucs_config_sprintf_array ucs_config_array_string "zz" 256
     (Some (VArray [])) = (1, "zz") /\
   ucs_config_sscanf_array 8 ucs_config_array_string (join_with "," []) None =
     (1, Some (VArray []))).
Proof.
  split.
  - apply (array_round_trip 8 256 ucs_config_array_string
             [VStr "rc"; VStr "ud"] ["rc"; "ud"] "zz" None).
    + constructor; [|constructor; [|constructor]];
        apply string_element_text; (discriminate || reflexivity).
    + simpl. lia.
    + vm_compute. lia.
  - apply (array_round_trip 8 256 ucs_config_array_string [] [] "zz" None).
    + constructor.
    + simpl. lia.
    + vm_compute. lia.
Defined.

(** ** Allow lists *)

(** The array of strings takes every token, up to the bound. *)
Lemma sscanf_string_array_loop (array_max : nat) (toks : list string) :
  forall (i : nat) (temp_field : list value),
    (i < array_max)%nat ->
    sscanf_array_loop array_max ucs_config_array_string toks i temp_field =
      Some (temp_field ++ map VStr (take (array_max - i) toks)).
Proof.
  induction toks as [|t toks IH]; intros i temp_field Hi;
    cbn [sscanf_array_loop].
  - rewrite take_nil. cbn [map]. now rewrite app_nil_r.
  - cbn [ucs_config_array_string elem_parser UCS_CONFIG_TYPE_STRING read].
    unfold ucs_config_sscanf_string. cbn [default]. change (1 =? 0) with false.
    cbv iota.
    destruct (array_max <=? S i)%nat eqn:E.
    + apply Nat.leb_le in E.
      replace (array_max - i)%nat with 1%nat by lia.
      cbn [take map]. now rewrite take_0.
    + apply Nat.leb_gt in E.
      rewrite (IH (S i)) by lia.
      replace (array_max - i)%nat with (S (array_max - S i)) by lia.
      cbn [take map]. now rewrite <- app_assoc.
Qed.

(** X20: when the first name is the literal [all], the allow list is read
    as [ALLOW_ALL] whether or not a [^] stands before it, the array is
    released, and the text is accepted only when [all] is the only name;
    an [ALLOW_ALL] list is written as [all]. *)
Theorem allow_list_all (array_max max : nat) (buf : string)
  (rest : list string) (old : nat -> string)
  (dest : ucs_config_allow_list_t) :
  (2 <= array_max)%nat ->
  (3 < max)%nat ->
  strtok_all ","
    (str_drop
       (match buf with
        | String c _ => if Ascii.eqb c "^" then 1%nat else 0%nat
        | EmptyString => 0%nat
        end) buf) = "all" :: rest ->
  ucs_config_sscanf_allow_list array_max ucs_config_array_string buf dest =
    (match rest with [] => 1 | _ :: _ => 0 end,
     {| allow_list_mode := UCS_CONFIG_ALLOW_LIST_ALLOW_ALL;
        allow_list_array := None |}) /\
  ucs_config_sprintf_allow_list ucs_config_array_string old max
    {| allow_list_mode := UCS_CONFIG_ALLOW_LIST_ALLOW_ALL;
       allow_list_array := None |} = (1, "all").
Proof.
  intros Hmax Hroom Htoks. split.
  - unfold ucs_config_sscanf_allow_list, ucs_config_sscanf_array,
      ucs_config_parser_negate.
    assert ((if match buf with
                | String c _ => Ascii.eqb c "^"
                | EmptyString => false
                end then 1%nat else 0%nat) =
            match buf with
            | String c _ => if Ascii.eqb c "^" then 1%nat else 0%nat
            | EmptyString => 0%nat
            end) as -> by (destruct buf; reflexivity).
    rewrite Htoks.
    rewrite (sscanf_string_array_loop array_max _ 0 []) by lia.
    rewrite Nat.sub_0_r.
    replace array_max with (S (S (array_max - 2))) by lia.
    cbn [take map app]. change (1 =? 0) with false. cbv iota.
    cbn [array_elems array_count length]. unfold UCS_CONFIG_PARSER_ALL.
    change (strcmp "all" "all" =? 0) with true.
    change (1 <=? S _)%nat with true. cbn [andb].
    unfold ucs_config_release_array.
    destruct rest as [|t rest]; reflexivity.
  - unfold ucs_config_sprintf_allow_list. cbn [allow_list_mode].
    unfold UCS_CONFIG_PARSER_ALL. rewrite snprintf_fits by (simpl; lia).
    reflexivity.
Qed.

(** The texts [all], [^all] and [all,rc]. *)
Lemma allow_list_all_example :
  (ucs_config_sscanf_allow_list 8 ucs_config_array_string "^all"
     {| allow_list_mode := UCS_CONFIG_ALLOW_LIST_ALLOW;
        allow_list_array := None |} =
     (1, {| allow_list_mode := UCS_CONFIG_ALLOW_LIST_ALLOW_ALL;
            allow_list_array := None |}) /\
   ucs_config_sprintf_allow_list ucs_config_array_string (fun _ => "zz") 256
     {| allow_list_mode := UCS_CONFIG_ALLOW_LIST_ALLOW_ALL;
        allow_list_array := None |} = (1, "all")) /\
  (ucs_config_sscanf_allow_list 8 ucs_config_array_string "all,rc"
     {| allow_list_mode := UCS_CONFIG_ALLOW_LIST_ALLOW;
        allow_list_array := None |} =
     (0, {| allow_list_mode := UCS_CONFIG_ALLOW_LIST_ALLOW_ALL;
            allow_list_array := None |}) /\
   ucs_config_sprintf_allow_list ucs_config_array_string (fun _ => "zz") 256
     {| allow_list_mode := UCS_CONFIG_ALLOW_LIST_ALLOW_ALL;
        allow_list_array := None |} = (1, "all")).
Proof.
  split.
  - apply (allow_list_all 8 256 "^all" []); [lia|lia|reflexivity].
  - apply (allow_list_all 8 256 "all,rc" ["rc"] (fun _ => "zz"));
      [lia|lia|reflexivity].
Defined.

Lemma string_element_texts (names : list string) :
  Forall (fun t => t <> "" /\ strchr t "," = None) names ->
  Forall2 (element_text UCS_CONFIG_TYPE_STRING) (map VStr names) names.
Proof.
  induction 1 as [|t names [Ht Hd] _ IH]; cbn [map]; constructor;
    [now apply string_element_text|exact IH].
Qed.

(** X21: an allow list that allows or negates at least one name (each not
    empty and without comma, the first not [all] and, when the list
    allows, not beginning with [^]) is written as the names separated by
    commas, after a [^] when it negates, and that text is read back as the
    same list. A list without names stores nothing but the [^] of a
    negation: the buffer holds on return what it held on entry, from the
    byte after the [^] if there is one; the texts of no name, the empty
    text and [^], are read as the lists without names. *)
Theorem allow_list_round_trip (array_max max : nat) (negate : bool)
  (names : list string) (old : nat -> string)
  (dest : ucs_config_allow_list_t) :
  Forall (fun t => t <> "" /\ strchr t "," = None) names ->
  match names with
  | String c r :: _ =>
      strcmp (String c r) "all" <> 0 /\ (negate = false -> c <> "^"%char)
  | _ => True
  end ->
  (length names <= array_max)%nat ->
  (String.length (join_with "," names) + 1 < max)%nat ->
  let mode :=
    if negate then UCS_CONFIG_ALLOW_LIST_NEGATE
    else UCS_CONFIG_ALLOW_LIST_ALLOW in
  let list :=
    {| allow_list_mode := mode;
       allow_list_array := Some (VArray (map VStr names)) |} in
  let text :=
    if negate then String "^" (join_with "," names)
    else join_with "," names in
  ucs_config_sprintf_allow_list ucs_config_array_string old max list =
    (1, match names with
        | [] => if negate then String "^" (old 1%nat) else old 0%nat
        | _ :: _ => text
        end) /\
  ucs_config_sscanf_allow_list array_max ucs_config_array_string text dest =
    (1, list).
Proof.
  intros Hnames Hfirst Hcount Hfit mode list text.
  pose proof (string_element_texts names Hnames) as Htexts.
  assert (length (map VStr names) <= array_max)%nat as Hcount'
    by now rewrite length_map.
  split.
  - unfold ucs_config_sprintf_allow_list, list, mode, text.
    destruct negate; cbn [allow_list_mode allow_list_array].
    + destruct (max =? 0)%nat eqn:E; [apply Nat.eqb_eq in E; lia|].
      destruct (array_texts_round_trip array_max (max - 1)
                  ucs_config_array_string (map VStr names) names
                  (old 1%nat) None Htexts Hcount' ltac:(lia)) as [-> _].
      now destruct names.
    + destruct (array_texts_round_trip array_max max
                  ucs_config_array_string (map VStr names) names
                  (old 0%nat) None Htexts Hcount' ltac:(lia)) as [-> _].
      now destruct names.
  - assert (ucs_config_sscanf_array array_max ucs_config_array_string
              (join_with "," names) (allow_list_array dest) =
            (1, Some (VArray (map VStr names)))) as Hread.
    { now destruct (array_texts_round_trip array_max max
                  ucs_config_array_string (map VStr names) names ""
                  (allow_list_array dest) Htexts Hcount' ltac:(lia))
        as [_ ->]. }
    assert (((1 <=? array_count (Some (VArray (map VStr names))))%nat &&
             match array_elems (Some (VArray (map VStr names))) with
             | VStr s :: _ => strcmp s UCS_CONFIG_PARSER_ALL =? 0
             | _ => false
             end) = false) as Hall.
    { destruct names as [|t rest]; [reflexivity|].
      cbn [map array_elems]. destruct t as [|c r].
      - inversion Hnames as [|? ? [Hne _]]. congruence.
      - destruct Hfirst as [Hall _]. apply Z.eqb_neq in Hall.
        unfold UCS_CONFIG_PARSER_ALL. rewrite Hall. apply andb_false_r. }
    unfold ucs_config_sscanf_allow_list, text, list, mode,
      ucs_config_parser_negate.
    destruct negate.
    + rewrite Ascii.eqb_refl. cbn [str_drop]. rewrite Hread.
      change (1 =? 0) with false. cbv iota. now rewrite Hall.
    + assert (match join_with "," names with
              | String c _ => Ascii.eqb c "^"
              | EmptyString => false
              end = false) as ->.
      { destruct names as [|t rest]; [reflexivity|].
        destruct t as [|c r].
        - inversion Hnames as [|? ? [Hne _]]. congruence.
        - destruct Hfirst as [_ Hc]. cbn [join_with].
          change (String c r +:+ ?x) with (String c (r +:+ x)).
          apply Ascii.eqb_neq. now apply Hc. }
      cbn [str_drop]. rewrite Hread.
      change (1 =? 0) with false. cbv iota. now rewrite Hall.
Qed.

(** The negation of two names, and the negation of no name, written over
    a buffer that held [zzz]. *)
Lemma allow_list_round_trip_example :
  (ucs_config_sprintf_allow_list ucs_config_array_string
     (fun k => str_drop k "zzz") 256
     {| allow_list_mode := UCS_CONFIG_ALLOW_LIST_NEGATE;
        allow_list_array := Some (VArray (map VStr ["rc"; "ud"])) |} =
     (1, String "^" (join_with "," ["rc"; "ud"])) /\
   ucs_config_sscanf_allow_list 8 ucs_config_array_string
     (String "^" (join_with "," ["rc"; "ud"]))
     {| allow_list_mode := UCS_CONFIG_ALLOW_LIST_ALLOW;
        allow_list_array := None |} =
     (1, {| allow_list_mode := UCS_CONFIG_ALLOW_LIST_NEGATE;
            allow_list_array := Some (VArray (map VStr ["rc"; "ud"])) |})) /\
  (ucs_config_sprintf_allow_list ucs_config_array_string
     (fun k => str_drop k "zzz") 256
     {| allow_list_mode := UCS_CONFIG_ALLOW_LIST_NEGATE;
        allow_list_array := Some (VArray (map VStr [])) |} =
     (1, String "^" (str_drop 1 "zzz")) /\
   ucs_config_sscanf_allow_list 8 ucs_config_array_string
     (String "^" (join_with "," []))
     {| allow_list_mode := UCS_CONFIG_ALLOW_LIST_ALLOW;
        allow_list_array := None |} =
     (1, {| allow_list_mode := UCS_CONFIG_ALLOW_LIST_NEGATE;
            allow_list_array := Some (VArray (map VStr [])) |})).
Proof.
  split.
  - apply (allow_list_round_trip 8 256 true ["rc"; "ud"]
             (fun k => str_drop k "zzz")).
    + constructor; [|constructor; [|constructor]]; split;
        (discriminate || reflexivity).
    + split; [vm_compute; discriminate|discriminate].
    + simpl. lia.
    + vm_compute. lia.
  - apply (allow_list_round_trip 8 256 true [] (fun k => str_drop k "zzz")).
    + constructor.
    + exact I.
    + simpl. lia.
    + vm_compute. lia.
Defined.

(** ** Ranges with a high bound *)

Lemma to_int32_high (n : Z) :
  2 ^ 31 <= n < 2 ^ 32 -> to_int32 n = n - 2 ^ 32.
Proof.
  intros Hn. unfold to_int32.
  replace (n + 2 ^ 31) with (n - 2 ^ 31 + 1 * 2 ^ 32) by lia.
  rewrite Z.mod_add by lia. rewrite Z.mod_small by lia. lia.
Qed.

Lemma range_spec_dash_first (text : string) (old : option value) :
  ucs_config_sscanf_range_spec (String "-" text) old = (0, old).
Proof. reflexivity. Qed.

(** X18: a range whose first bound is 2^31 or more is written with a minus
    sign, because the unsigned bounds are printed as signed, and the range
    parser refuses that text and leaves the slot as it is. *)
Theorem range_spec_high_bound_not_read_back (first last : Z) (max : nat)
  (old : option value) :
  2 ^ 31 <= first < 2 ^ 32 ->
  (2 <= max)%nat ->
  ucs_config_sscanf_range_spec
    (snd (ucs_config_sprintf_range_spec max (Some (VRange first last))))
    old = (0, old).
Proof.
  intros Hf Hmax. unfold ucs_config_sprintf_range_spec.
  rewrite (to_int32_high first Hf). unfold itoa at 1 2.
  assert ((first - 2 ^ 32 <? 0) = true) as -> by (apply Z.ltb_lt; lia).
  destruct max as [|[|max]]; [lia|lia|].
  destruct (first =? last); cbn [snd snprintf Nat.pred].
  - cbn [str_take]. apply range_spec_dash_first.
  - change (String "-" (utoa (- (first - 2 ^ 32))) +:+ "-" +:+
            itoa (to_int32 last))
      with (String "-" (utoa (- (first - 2 ^ 32)) +:+ "-" +:+
            itoa (to_int32 last))).
    cbn [str_take]. apply range_spec_dash_first.
Qed.

Lemma range_spec_high_bound_not_read_back_example :
  ucs_config_sscanf_range_spec
    (snd (ucs_config_sprintf_range_spec 256
            (Some (VRange 4000000000 4000000000))))
    None = (0, None).
Proof.
  apply (range_spec_high_bound_not_read_back 4000000000 4000000000 256 None);
    lia.
Defined.

(** ** The help text of an enumeration *)

Lemma print_table_values_loop_fits (table : list string) (max : nat) :
  forall acc,
    (String.length
       (acc +:+ fold_right (fun u rest => "|" +:+ u +:+ rest) "" table) < max)%nat ->
    print_table_values_loop table max acc =
      acc +:+ fold_right (fun u rest => "|" +:+ u +:+ rest) "" table.
Proof.
  induction table as [|name table IH]; intros acc Hfit;
    cbn [print_table_values_loop fold_right] in *.
  - now rewrite append_nil_r_str.
  - rewrite !length_app in Hfit.
    rewrite snprintf_fits by (rewrite length_app; lia). cbn [snd].
    rewrite IH.
    + now rewrite <- !append_assoc_str.
    + rewrite !length_app. lia.
Qed.

(** X22: the help text of an enumeration is the list of its names between
    brackets, separated by bars, when it fits the buffer; for a table
    without names it is the opening bracket alone, which overwrites the
    closing one. *)
Theorem help_enum_text (max : nat) (name : string) (names : list string) :
  (String.length (join_with "|" (name :: names)) + 2 < max)%nat ->
  ucs_config_help_enum max (name :: names) =
    "[" +:+ join_with "|" (name :: names) +:+ "]" /\
  ucs_config_help_enum max [] = "[".
Proof.
  intros Hfit. split.
  - unfold ucs_config_help_enum, print_table_values.
    cbn [join_with] in *. rewrite length_app in Hfit.
    rewrite print_table_values_loop_fits.
    2:{ cbn [fold_right]. change ("" +:+ ?x) with x.
        rewrite !length_app. change (String.length "|") with 1%nat. lia. }
    cbn [fold_right]. change ("" +:+ ?x) with x.
    rewrite snprintf_fits.
    2:{ rewrite !length_app. change (String.length "|") with 1%nat.
        change (String.length "]") with 1%nat. lia. }
    cbn [snd].
    change (("|" +:+ ?x) +:+ "]") with (String "|" (x +:+ "]")).
    cbv iota.
    change ("[" +:+ ?x) with (String "[" x).
    first [reflexivity | f_equal; now rewrite <- append_assoc_str].
  - unfold ucs_config_help_enum, print_table_values.
    cbn [print_table_values_loop]. change (String.length "") with O.
    rewrite Nat.sub_0_r. rewrite snprintf_fits by (simpl; lia). reflexivity.
Qed.

Lemma help_enum_text_example :
  ucs_config_help_enum 256 ("signal" :: ["thread_spinlock"; "thread_mutex"; "poll"]) =
    "[" +:+ join_with "|"
              ("signal" :: ["thread_spinlock"; "thread_mutex"; "poll"]) +:+ "]" /\
  ucs_config_help_enum 256 [] = "[".
Proof.
  apply (help_enum_text 256 "signal"
           ["thread_spinlock"; "thread_mutex"; "poll"]).
  vm_compute. lia.
Defined.

(** ** Bitmaps *)

(** The index of a name of a table of 64 names or fewer is below 64. *)
Lemma find_in_list_below (arg : list string) (t : string) :
  (length arg <= 64)%nat -> ucs_string_find_in_list t arg 0 < 64.
Proof.
  intros Hlen. destruct (find_in_list_range t arg 0) as [->|H]; lia.
Qed.

Lemma sscanf_bitmap_loop_bits (arg : list string) (toks : list string) :
  (length arg <= 64)%nat ->
  forall bits,
    exists ret bits',
      sscanf_bitmap_loop arg toks bits = Some (ret, bits') /\
      (ret = 1 <->
       Forall (fun t => 0 <= ucs_string_find_in_list t arg 0) toks) /\
      (ret = 1 ->
       forall k, 0 <= k ->
         Z.testbit bits' k =
         Z.testbit bits k ||
         existsb (fun t => ucs_string_find_in_list t arg 0 =? k) toks).
Proof.
  intros Hlen.
  induction toks as [|t toks IH]; intros bits; cbn [sscanf_bitmap_loop].
  - exists 1, bits. split; [reflexivity|]. split; [split; [constructor|reflexivity]|].
    intros _ k Hk. cbn [existsb]. now rewrite orb_false_r.
  - destruct (ucs_string_find_in_list t arg 0 <? 0) eqn:E.
    + apply Z.ltb_lt in E. exists 0, bits. split; [reflexivity|].
      split; [split|]; try discriminate.
      intros H. apply Forall_cons in H as [H _]. lia.
    + apply Z.ltb_ge in E.
      pose proof (find_in_list_below arg t Hlen) as Hlt.
      apply Z.ltb_lt in Hlt. rewrite Hlt. apply Z.ltb_lt in Hlt.
      destruct (IH (Z.lor bits (UCS_BIT (ucs_string_find_in_list t arg 0))))
        as (ret & bits' & -> & IHok & IHbits).
      exists ret, bits'. split; [reflexivity|]. split.
      * rewrite IHok. split; [intros H; now constructor|].
        intros H. now apply Forall_cons in H as [_ H].
      * intros Hok k Hk. rewrite (IHbits Hok k Hk). cbn [existsb].
        rewrite Z.lor_spec. unfold UCS_BIT.
        rewrite Z.mod_small by lia.
        rewrite Z.pow2_bits_eqb by lia.
        now rewrite orb_assoc.
Qed.

(** X23: for a table of 64 names or fewer, a bitmap text whose names are all
    in the table is accepted, and bit [k] of the value is set exactly when
    one of the names stands at index [k] of the table: the order of the
    names and their repetition make no difference. *)
Theorem sscanf_bitmap_bits (arg : list string) (buf : string)
  (dest : option value) :
  (length arg <= 64)%nat ->
  Forall (fun t => 0 <= ucs_string_find_in_list t arg 0)
    (strtok_all "," buf) ->
  exists bits,
    ucs_config_sscanf_bitmap arg buf dest = Some (1, Some (VInt bits)) /\
    forall k, 0 <= k ->
      Z.testbit bits k =
      existsb (fun t => ucs_string_find_in_list t arg 0 =? k)
        (strtok_all "," buf).
Proof.
  intros Hlen Hknown. unfold ucs_config_sscanf_bitmap.
  destruct (sscanf_bitmap_loop_bits arg (strtok_all "," buf) Hlen 0)
    as (ret & bits & -> & Hok & Hbits).
  apply Hok in Hknown. specialize (Hbits Hknown). subst ret.
  exists bits. split; [reflexivity|].
  intros k Hk. rewrite (Hbits k Hk). now rewrite Z.bits_0.
Qed.

(** X24: for a table of 64 names or fewer, a bitmap text with a name that is
    not in the table is refused, and the slot does not keep its old value:
    it holds the bits of the names before the unknown one. *)
Theorem sscanf_bitmap_unknown_name (arg : list string) (buf : string)
  (dest : option value) (known : list string) (unknown : string)
  (rest : list string) :
  (length arg <= 64)%nat ->
  strtok_all "," buf = known ++ unknown :: rest ->
  Forall (fun t => 0 <= ucs_string_find_in_list t arg 0) known ->
  ucs_string_find_in_list unknown arg 0 < 0 ->
  exists bits,
    ucs_config_sscanf_bitmap arg buf dest = Some (0, Some (VInt bits)) /\
    forall k, 0 <= k ->
      Z.testbit bits k =
      existsb (fun t => ucs_string_find_in_list t arg 0 =? k) known.
Proof.
  intros Hlen Htoks Hknown Hunknown. unfold ucs_config_sscanf_bitmap.
  rewrite Htoks.
  assert (forall bits bits',
            sscanf_bitmap_loop arg known bits = Some (1, bits') ->
            sscanf_bitmap_loop arg (known ++ unknown :: rest) bits =
            Some (0, bits')) as Hloop.
  { clear Htoks. induction Hknown as [|t known Ht _ IH]; intros bits bits';
      cbn [app sscanf_bitmap_loop].
    - intros [= <-]. apply Z.ltb_lt in Hunknown. now rewrite Hunknown.
    - assert ((ucs_string_find_in_list t arg 0 <? 0) = false) as ->
        by (apply Z.ltb_ge; lia).
      destruct (ucs_string_find_in_list t arg 0 <? 64); [apply IH|discriminate]. }
  destruct (sscanf_bitmap_loop_bits arg known Hlen 0)
    as (ret & bits & Hrun & Hok & Hbits).
  assert (ret = 1) as -> by now apply Hok.
  rewrite (Hloop 0 bits Hrun). exists bits. split; [reflexivity|].
  intros k Hk. rewrite (Hbits eq_refl k Hk). now rewrite Z.bits_0.
Qed.

Lemma sscanf_bitmap_bits_example :
  exists bits,
    ucs_config_sscanf_bitmap ucs_async_mode_names "poll,signal,poll" None =
      Some (1, Some (VInt bits)) /\
    forall k, 0 <= k ->
      Z.testbit bits k =
      existsb
        (fun t => ucs_string_find_in_list t ucs_async_mode_names 0 =? k)
        (strtok_all "," "poll,signal,poll").
Proof.
  apply (sscanf_bitmap_bits ucs_async_mode_names "poll,signal,poll" None).
  - simpl. lia.
  - change (strtok_all "," "poll,signal,poll") with ["poll"; "signal"; "poll"].
    constructor; [|constructor; [|constructor; [|constructor]]];
      apply Z.leb_le; reflexivity.
Defined.

Lemma sscanf_bitmap_unknown_name_example :
  exists bits,
    ucs_config_sscanf_bitmap ucs_async_mode_names "poll,banana,signal"
      (Some (VInt 1)) = Some (0, Some (VInt bits)) /\
    forall k, 0 <= k ->
      Z.testbit bits k =
      existsb
        (fun t => ucs_string_find_in_list t ucs_async_mode_names 0 =? k)
        ["poll"].
Proof.
  apply (sscanf_bitmap_unknown_name ucs_async_mode_names "poll,banana,signal"
           (Some (VInt 1)) ["poll"] "banana" ["signal"]).
  - simpl. lia.
  - reflexivity.
  - constructor; [|constructor]. apply Z.leb_le. reflexivity.
  - reflexivity.
Defined.


(* ===================================================================== *)
(** * 22. The apply pipeline on nested tables                             *)
(* ===================================================================== *)

(** ** The set of used variables *)

Lemma mark_env_var_used_grows (name : string) (used : gset string) :
  used ⊆ fst (ucs_config_parser_mark_env_var_used name used) /\
  name ∈ fst (ucs_config_parser_mark_env_var_used name used).
Proof.
  unfold ucs_config_parser_mark_env_var_used.
  destruct (decide (name ∈ used)); cbn [fst]; set_solver.
Qed.

Lemma apply_field_used (getenv : string -> option string)
  (file_vars : gmap string string) (opts : Z) (fname : string)
  (dfl : option string) (off : Z) (p : ucs_config_parser_t)
  (prefix : string) (table_prefix : option string) (ignore_errors : bool)
  (st : apply_state) :
  st_used st ⊆
    st_used (snd (apply_field getenv file_vars opts fname dfl off p prefix
                    table_prefix ignore_errors st)) /\
  (is_Some (found_text getenv file_vars prefix table_prefix fname) ->
   config_var_name prefix table_prefix fname ∈
     st_used (snd (apply_field getenv file_vars opts fname dfl off p prefix
                     table_prefix ignore_errors st))).
Proof.
  unfold found_text, apply_field.
  destruct (config_var_value _ _ _) as [t|].
  2:{ split; [reflexivity|]. intros [? [=]]. }
  pose proof (mark_env_var_used_grows
                (config_var_name prefix table_prefix fname) (st_used st))
    as [Hsub Hin].
  destruct (ucs_config_parser_mark_env_var_used _ _) as [used added].
  cbn [fst] in *.
  destruct (off =? _); [now split|]. cbn [st_opts].
  destruct (parse_with p t _ _) as [status m2].
  destruct (status_eqb status UCS_OK); [now split|].
  destruct (parse_default p dfl _ _) as [tmp m3].
  destruct (status_eqb _ _); now split.
Qed.

Lemma apply_loop_used
  (step : ucs_config_field_t -> apply_state ->
          option ucs_status_t * apply_state)
  (fields : list ucs_config_field_t) :
  Forall (fun f => forall st, st_used st ⊆ st_used (snd (step f st))) fields ->
  forall st, st_used st ⊆ st_used (snd (apply_loop step fields st)).
Proof.
  induction 1 as [|f fields Hf _ IH]; intros st; cbn [apply_loop];
    [reflexivity|].
  specialize (Hf st). destruct (step f st) as [[status|] st1]; cbn [snd] in *.
  - exact Hf.
  - etransitivity; [exact Hf|apply IH].
Qed.

Lemma after_apply_state (r : ucs_status_t * apply_state) :
  snd (after_apply r) = snd r.
Proof. destruct r as [[] st]; reflexivity. Qed.

Lemma apply_step_used (getenv : string -> option string)
  (file_vars : gmap string string) (prefix : string)
  (ignore_errors : bool) (f : ucs_config_field_t) :
  forall (opts : Z) (table_prefix : option string) (recurse : bool)
    (st : apply_state),
    st_used st ⊆
      st_used (snd (apply_step getenv file_vars opts prefix table_prefix
                      recurse ignore_errors f st)).
Proof.
  induction f as [name dfl off p|name dfl off subs IH]
    using field_nested_ind; intros opts table_prefix recurse st;
    cbn [apply_step].
  - apply apply_field_used.
  - assert (forall tp rc st',
              st_used st' ⊆
                st_used (snd (after_apply
                  (apply_loop
                     (apply_step getenv file_vars (opts + off) prefix tp rc
                        ignore_errors) subs st')))) as Hsub.
    { intros tp rc st'. rewrite after_apply_state.
      apply apply_loop_used. eapply Forall_impl; [exact IH|].
      intros g Hg st''. apply Hg. }
    destruct recurse.
    + specialize (Hsub (Some name) true st) as H1.
      destruct (after_apply _) as [[status|] st1]; cbn [snd] in *;
        [exact H1|].
      destruct table_prefix as [tp|]; [|exact H1].
      etransitivity; [exact H1|]. apply Hsub.
    + destruct table_prefix as [tp|]; [|reflexivity]. apply Hsub.
Qed.

Lemma apply_config_vars_used_grows (getenv : string -> option string)
  (file_vars : gmap string string) (opts : Z)
  (fields : list ucs_config_field_t) (prefix : string)
  (table_prefix : option string) (recurse ignore_errors : bool)
  (st : apply_state) :
  st_used st ⊆
    st_used (snd (ucs_config_apply_config_vars getenv file_vars opts fields
                    prefix table_prefix recurse ignore_errors st)).
Proof.
  unfold ucs_config_apply_config_vars. apply apply_loop_used.
  apply Forall_forall. intros f _ st'. apply apply_step_used.
Qed.

(** X25: [ucs_config_apply_config_vars] never takes a variable out of the
    set of used variables, whatever the table, nested or not, the sources
    and the status it returns. *)
Theorem apply_config_vars_keeps_used (getenv : string -> option string)
  (file_vars : gmap string string) (opts : Z)
  (fields : list ucs_config_field_t) (prefix : string)
  (table_prefix : option string) (recurse ignore_errors : bool)
  (st : apply_state) :
  st_used st ⊆
    st_used (snd (ucs_config_apply_config_vars getenv file_vars opts fields
                    prefix table_prefix recurse ignore_errors st)).
Proof.
  apply apply_config_vars_used_grows.
Qed.

(** ** A sub-table under the prefix of its parent *)

(** On a flat table, a pass that returns OK has marked every variable it
    found. *)
Lemma apply_flat_used (getenv : string -> option string)
  (file_vars : gmap string string) (opts : Z) (prefix : string)
  (table_prefix : option string) (recurse ignore_errors : bool)
  (fields : list ucs_config_field_t) :
  Forall real_field fields ->
  forall st,
    fst (ucs_config_apply_config_vars getenv file_vars opts fields prefix
           table_prefix recurse ignore_errors st) = UCS_OK ->
    forall fname dfl off p,
      In (Field fname dfl off p) fields ->
      is_Some (found_text getenv file_vars prefix table_prefix fname) ->
      config_var_name prefix table_prefix fname ∈
        st_used (snd (ucs_config_apply_config_vars getenv file_vars opts
                        fields prefix table_prefix recurse ignore_errors st)).
Proof.
  induction 1 as [|f rest Hf _ IH]; intros st Hok fname dfl off p Hin Hfound;
    [destruct Hin|].
  apply real_field_inv in Hf as (gname & gd & goff & gp & vd & -> & Hoff & Hvd).
  revert Hok. unfold ucs_config_apply_config_vars.
  cbn [apply_loop apply_step].
  pose proof (apply_field_status getenv file_vars opts prefix table_prefix
                gname (Some gd) goff gp ignore_errors st) as Hst.
  pose proof (apply_field_used getenv file_vars opts gname (Some gd) goff gp
                prefix table_prefix ignore_errors st) as [_ Hmark].
  destruct (apply_field _ _ _ _ _ _ _ _ _ _ _) as [[s|] st1];
    cbn [fst snd] in *.
  { destruct Hst as [Hst|Hst]; [discriminate|]. inversion Hst. subst.
    discriminate. }
  intros Hok. destruct Hin as [Heq|Hin].
  - inversion Heq; subst.
    apply (apply_config_vars_used_grows getenv file_vars opts rest prefix
             table_prefix recurse ignore_errors st1).
    now apply Hmark.
  - now apply (IH st1 Hok fname dfl off p).
Qed.

Lemma apply_sub_table_passes (getenv : string -> option string)
  (file_vars : gmap string string) (opts : Z) (prefix parent_prefix : string)
  (ignore_errors : bool) (tname : string) (tdfl : option string) (toff : Z)
  (sub_fields : list ucs_config_field_t) (st : apply_state) :
  fst (ucs_config_apply_config_vars getenv file_vars (opts + toff) sub_fields
         prefix (Some tname) true ignore_errors st) = UCS_OK ->
  fst (ucs_config_apply_config_vars getenv file_vars (opts + toff) sub_fields
         prefix (Some parent_prefix) false ignore_errors
         (snd (ucs_config_apply_config_vars getenv file_vars (opts + toff)
                 sub_fields prefix (Some tname) true ignore_errors st))) =
    UCS_OK ->
  ucs_config_apply_config_vars getenv file_vars opts
    [Table tname tdfl toff sub_fields] prefix (Some parent_prefix) true
    ignore_errors st =
  (UCS_OK,
   snd (ucs_config_apply_config_vars getenv file_vars (opts + toff) sub_fields
          prefix (Some parent_prefix) false ignore_errors
          (snd (ucs_config_apply_config_vars getenv file_vars (opts + toff)
                  sub_fields prefix (Some tname) true ignore_errors st)))).
Proof.
  unfold ucs_config_apply_config_vars. cbn [apply_loop apply_step].
  destruct (apply_loop _ sub_fields st) as [s1 st1]. cbn [fst snd].
  intros ->. cbn [after_apply].
  destruct (apply_loop _ sub_fields st1) as [s2 st2]. cbn [fst snd].
  intros ->. reflexivity.
Qed.

(** X26: a field of a sub-table is looked up under two names, the one made
    with the name of the sub-table and the one made with the prefix of
    the parent. When the texts found are accepted, the pass returns OK, the
    field holds the value of the text found under the prefix of the
    parent, else of the text found under the name of the sub-table, else
    what it held; and every variable found is marked as used. *)
Theorem apply_sub_table_precedence (getenv : string -> option string)
  (file_vars : gmap string string) (opts : Z) (prefix parent_prefix : string)
  (ignore_errors : bool) (tname : string) (tdfl : option string) (toff : Z)
  (sub_fields : list ucs_config_field_t) (st : apply_state) :
  flat_table sub_fields ->
  Forall (found_accepted getenv file_vars prefix (Some tname)) sub_fields ->
  Forall (found_accepted getenv file_vars prefix (Some parent_prefix))
    sub_fields ->
  fst (ucs_config_apply_config_vars getenv file_vars opts
         [Table tname tdfl toff sub_fields] prefix (Some parent_prefix) true
         ignore_errors st) = UCS_OK /\
  forall fname d off p,
    In (Field fname (Some d) off p) sub_fields ->
    let after :=
      snd (ucs_config_apply_config_vars getenv file_vars opts
             [Table tname tdfl toff sub_fields] prefix (Some parent_prefix)
             true ignore_errors st) in
    let slot := st_opts after !! (opts + toff + off) in
    match found_text getenv file_vars prefix (Some parent_prefix) fname,
          found_text getenv file_vars prefix (Some tname) fname with
    | Some t, own =>
        (forall v, accepts p t v -> slot = Some v) /\
        config_var_name prefix (Some parent_prefix) fname ∈ st_used after /\
        (is_Some own ->
         config_var_name prefix (Some tname) fname ∈ st_used after)
    | None, Some t =>
        (forall v, accepts p t v -> slot = Some v) /\
        config_var_name prefix (Some tname) fname ∈ st_used after
    | None, None => slot = st_opts st !! (opts + toff + off)
    end.
Proof.
  intros [Hreal Hnd] Hown Hparent.
  pose proof (apply_flat_accepted getenv file_vars (opts + toff) prefix
                (Some tname) true ignore_errors sub_fields st Hreal Hown)
    as Hok1.
  pose proof (apply_flat_accepted getenv file_vars (opts + toff) prefix
                (Some parent_prefix) false ignore_errors sub_fields
                (snd (ucs_config_apply_config_vars getenv file_vars
                        (opts + toff) sub_fields prefix (Some tname) true
                        ignore_errors st)) Hreal Hparent) as Hok2.
  rewrite (apply_sub_table_passes getenv file_vars opts prefix parent_prefix
             ignore_errors tname tdfl toff sub_fields st Hok1 Hok2).
  split; [reflexivity|]. intros fname d off p Hin. cbn [snd].
  pose proof (apply_flat_slot getenv file_vars (opts + toff) prefix
                (Some tname) true ignore_errors sub_fields st fname d off p
                Hreal Hnd Hin Hok1) as Hslot1.
  pose proof (apply_flat_slot getenv file_vars (opts + toff) prefix
                (Some parent_prefix) false ignore_errors sub_fields _
                fname d off p Hreal Hnd Hin Hok2) as Hslot2.
  pose proof (apply_flat_used getenv file_vars (opts + toff) prefix
                (Some tname) true ignore_errors sub_fields Hreal st Hok1
                fname (Some d) off p Hin) as Hused1.
  pose proof (apply_flat_used getenv file_vars (opts + toff) prefix
                (Some parent_prefix) false ignore_errors sub_fields Hreal _
                Hok2 fname (Some d) off p Hin) as Hused2.
  pose proof (apply_config_vars_used_grows getenv file_vars (opts + toff)
                sub_fields prefix (Some parent_prefix) false ignore_errors
                (snd (ucs_config_apply_config_vars getenv file_vars
                        (opts + toff) sub_fields prefix (Some tname) true
                        ignore_errors st))) as Hgrow.
  cbv zeta in Hslot1, Hslot2.
  destruct (found_text getenv file_vars prefix (Some parent_prefix) fname)
    as [t|].
  - destruct Hslot2 as [Hv _]. repeat split.
    + exact Hv.
    + apply Hused2. now eexists.
    + intros Hsome. apply Hgrow. now apply Hused1.
  - destruct (found_text getenv file_vars prefix (Some tname) fname) as [t|].
    + destruct Hslot1 as [Hv _]. split.
      * intros v Hacc. rewrite Hslot2. now apply Hv.
      * apply Hgrow. apply Hused1. now eexists.
    + now rewrite Hslot2.
Qed.

Lemma qkey_fields_flat : flat_table qkey_fields.
Proof.
  split.
  - constructor; [|constructor]. split; [discriminate|].
    exists (VInt 0). intros old. reflexivity.
  - simpl. constructor; [|constructor]. apply not_elem_of_nil.
Qed.

(** The sub-table [IB_] of a parent without prefix, under [UCX_], with
    [UCX_IB_QKEY=7] and [UCX_QKEY=9]: the field ends at 9 and both
    variables are marked. *)
Lemma apply_sub_table_precedence_example :
  fst (ucs_config_apply_config_vars (getenv_of env_qkey) ∅ 4096
         [Table "IB_" (Some "") 64 qkey_fields] "UCX_" (Some "") true false
         no_state) = UCS_OK /\
  st_opts (snd (ucs_config_apply_config_vars (getenv_of env_qkey) ∅ 4096
                  [Table "IB_" (Some "") 64 qkey_fields] "UCX_" (Some "")
                  true false no_state)) !! (4096 + 64 + 0) = Some (VInt 9) /\
  "UCX_QKEY" ∈
    st_used (snd (ucs_config_apply_config_vars (getenv_of env_qkey) ∅ 4096
                    [Table "IB_" (Some "") 64 qkey_fields] "UCX_" (Some "")
                    true false no_state)) /\
  "UCX_IB_QKEY" ∈
    st_used (snd (ucs_config_apply_config_vars (getenv_of env_qkey) ∅ 4096
                    [Table "IB_" (Some "") 64 qkey_fields] "UCX_" (Some "")
                    true false no_state)).
Proof.
  destruct (apply_sub_table_precedence (getenv_of env_qkey) ∅ 4096 "UCX_" ""
              false "IB_" (Some "") 64 qkey_fields no_state qkey_fields_flat)
    as [Hok Hslot].
  - constructor; [|constructor]. exists (VInt 7). intros old. reflexivity.
  - constructor; [|constructor]. exists (VInt 9). intros old. reflexivity.
  - split; [exact Hok|].
    specialize (Hslot "QKEY" "0" 0 UCS_CONFIG_TYPE_UINT (or_introl eq_refl)).
    destruct Hslot as (Hv & Hparent & Hown).
    split; [|split].
    + apply Hv. intros old. reflexivity.
    + exact Hparent.
    + apply Hown. now eexists.
Defined.

(* ===================================================================== *)
(** * 23. Setting a value and reading it back                             *)
(* ===================================================================== *)

Lemma str_prefix_refl (s : string) : str_prefix s s = true.
Proof.
  induction s as [|c s IH]; [reflexivity|].
  cbn [str_prefix]. now rewrite Ascii.eqb_refl.
Qed.

(** A match on a field whose parser accepts the value: the slot is
    released, the value is stored and the match is counted. *)
Lemma set_value_field_accepted (fnmatch : fnmatch_t) (opts : Z)
  (fname : string) (off : Z) (p : ucs_config_parser_t)
  (name user_value : string) (table_prefix : option string) (count : nat)
  (m : opts_t) (v : value) :
  ucs_config_prefix_name_match fnmatch table_prefix
    (prefix_length table_prefix) fname name = true ->
  off <> UCS_CONFIG_DEPRECATED_FIELD_OFFSET ->
  accepts p user_value v ->
  set_value_field fnmatch opts fname off p name user_value table_prefix
    count m = Next (S count) (<[ opts + off := v ]> m).
Proof.
  intros Hmatch Hoff Hacc. unfold set_value_field.
  rewrite Hmatch. apply Z.eqb_neq in Hoff. rewrite Hoff.
  destruct (write p 255 (m !! (opts + off))) as [ret value_buf].
  rewrite (parse_with_accepts p user_value v) by exact Hacc.
  cbn [status_eqb]. f_equal. unfold release_with.
  now rewrite store_slot_twice.
Qed.

(** X27: when one field of the table matches the name, is not deprecated
    and accepts the value, [set_value] returns OK and stores the value
    read in the slot of the field; a later [get_value] of the name of the
    field then returns the text of that value, when no field before it
    begins with that name. *)
Theorem set_value_then_get_value (fnmatch : fnmatch_t) (opts : Z)
  (pre post : list ucs_config_field_t) (fname : string) (dfl : option string)
  (off : Z) (p : ucs_config_parser_t) (prefix : option string)
  (name user_value : string) (m : opts_t) (v : value) (max : nat) :
  opts <> 0 ->
  Forall (passed_over fnmatch prefix name) pre ->
  Forall (passed_over fnmatch prefix name) post ->
  Forall (left_behind fname) pre ->
  ucs_config_prefix_name_match fnmatch prefix (prefix_length prefix)
    fname name = true ->
  off <> UCS_CONFIG_DEPRECATED_FIELD_OFFSET ->
  accepts p user_value v ->
  ucs_config_parser_set_value fnmatch opts
    (pre ++ Field fname dfl off p :: post) prefix name user_value m =
    (UCS_OK, <[ opts + off := v ]> m) /\
  ucs_config_parser_get_value opts
    (Some (pre ++ Field fname dfl off p :: post)) (Some fname) true max
    (<[ opts + off := v ]> m) =
    (UCS_OK, Some (snd (write p max (Some v)))).
Proof.
  intros Hopts Hpre Hpost Hbehind Hmatch Hoff Hacc. split.
  - unfold ucs_config_parser_set_value, ucs_config_parser_set_value_internal.
    rewrite set_value_loop_passed_over by exact Hpre.
    cbn [set_value_loop set_value_step].
    rewrite (set_value_field_accepted _ _ _ _ _ _ _ _ _ _ v)
      by assumption.
    rewrite <- (app_nil_r post).
    rewrite set_value_loop_passed_over by exact Hpost.
    reflexivity.
  - unfold ucs_config_parser_get_value.
    apply Z.eqb_neq in Hopts. rewrite Hopts. cbn [negb andb orb].
    rewrite get_value_loop_left_behind by exact Hbehind.
    cbn [get_value_loop get_value_step]. unfold get_value_by_prefix.
    cbn [field_name].
    rewrite (strncmp_prefix fname fname (str_prefix_refl fname)).
    change (0 =? 0) with true. cbv iota.
    now rewrite lookup_insert_eq.
Qed.

(** The mode is set to [poll] and read back. *)
Lemma set_value_then_get_value_example :
  ucs_config_parser_set_value fnmatch_glob 4096 mode_fields None "MODE"
    "poll" {[ 4096 := VInt 0 ]} =
    (UCS_OK, <[ 4096 + 0 := VInt 3 ]> {[ 4096 := VInt 0 ]}) /\
  ucs_config_parser_get_value 4096 (Some mode_fields) (Some "MODE") true 64
    (<[ 4096 + 0 := VInt 3 ]> {[ 4096 := VInt 0 ]}) =
    (UCS_OK,
     Some (snd (write (UCS_CONFIG_TYPE_ENUM ucs_async_mode_names) 64
                  (Some (VInt 3))))).
Proof.
  apply (set_value_then_get_value fnmatch_glob 4096 [] [] "MODE"
           (Some "signal") 0 (UCS_CONFIG_TYPE_ENUM ucs_async_mode_names)
           None "MODE" "poll" {[ 4096 := VInt 0 ]} (VInt 3) 64).
  - discriminate.
  - constructor.
  - constructor.
  - constructor.
  - reflexivity.
  - discriminate.
  - intros old. reflexivity.
Defined.

(* ===================================================================== *)
(** * 24. The default text of a sub-table                                 *)
(* ===================================================================== *)

Lemma set_value_one_match (fnmatch : fnmatch_t) (opts : Z)
  (pre post : list ucs_config_field_t) (fname : string) (dfl : option string)
  (off : Z) (p : ucs_config_parser_t) (prefix : option string)
  (recurse : bool) (name user_value : string) (m : opts_t) (v : value) :
  Forall (passed_over fnmatch prefix name) pre ->
  Forall (passed_over fnmatch prefix name) post ->
  ucs_config_prefix_name_match fnmatch prefix (prefix_length prefix)
    fname name = true ->
  off <> UCS_CONFIG_DEPRECATED_FIELD_OFFSET ->
  accepts p user_value v ->
  ucs_config_parser_set_value_internal fnmatch opts
    (pre ++ Field fname dfl off p :: post) name user_value prefix recurse m =
    (UCS_OK, <[ opts + off := v ]> m).
Proof.
  intros Hpre Hpost Hmatch Hoff Hacc.
  unfold ucs_config_parser_set_value_internal.
  rewrite set_value_loop_passed_over by exact Hpre.
  cbn [set_value_loop set_value_step].
  rewrite (set_value_field_accepted _ _ _ _ _ _ _ _ _ _ v) by assumption.
  rewrite <- (app_nil_r post).
  rewrite set_value_loop_passed_over by exact Hpost.
  reflexivity.
Qed.

(** X28: a sub-table first receives the defaults of its fields, and then
    its own default text is read: a default text [name=value] that names
    one field of the sub-table leaves that field at the value read from
    [value], not at the default of the field, and the other fields at
    their defaults. *)
Theorem table_default_text_overrides (fnmatch : fnmatch_t) (opts : Z)
  (tname dfl : string) (toff : Z) (pre post : list ucs_config_field_t)
  (fname d : string) (off : Z) (p : ucs_config_parser_t)
  (token name user_value : string) (more : list string) (v : value)
  (m : opts_t) :
  flat_table (pre ++ Field fname (Some d) off p :: post) ->
  toff <> UCS_CONFIG_DEPRECATED_FIELD_OFFSET ->
  strtok_all ";" dfl = [token] ->
  strtok_all "=" token = name :: user_value :: more ->
  Forall (passed_over fnmatch None name) pre ->
  Forall (passed_over fnmatch None name) post ->
  ucs_config_prefix_name_match fnmatch None 0 fname name = true ->
  accepts p user_value v ->
  let table :=
    Table tname (Some dfl) toff (pre ++ Field fname (Some d) off p :: post) in
  fst (ucs_config_parser_set_default_values fnmatch opts [table] m) =
    UCS_OK /\
  snd (ucs_config_parser_set_default_values fnmatch opts [table] m)
    !! (opts + toff + off) = Some v /\
  forall gname gd goff gp gv,
    In (Field gname (Some gd) goff gp) (pre ++ post) ->
    accepts gp gd gv ->
    snd (ucs_config_parser_set_default_values fnmatch opts [table] m)
      !! (opts + toff + goff) = Some gv.
Proof.
  intros [Hreal Hnd] Htoff Htoks Htok Hpre Hpost Hmatch Hacc table.
  subst table.
  assert (off <> UCS_CONFIG_DEPRECATED_FIELD_OFFSET) as Hoff.
  { apply Forall_app in Hreal as [_ Hfield].
    apply Forall_cons in Hfield as [Hfield _]. exact (proj1 Hfield). }
  destruct (set_default_flat fnmatch (opts + toff)
              (pre ++ Field fname (Some d) off p :: post) m Hreal Hnd)
    as [Hok Hslots].
  unfold ucs_config_parser_set_default_values in *.
  cbn [set_default_loop].
  unfold ucs_config_is_alias_field, ucs_config_is_deprecated_field.
  cbn [field_dfl_value field_offset]. apply Z.eqb_neq in Htoff.
  rewrite Htoff. cbn [orb set_default_step field_offset].
  destruct (set_default_loop (set_default_step fnmatch) (opts + toff)
              (pre ++ Field fname (Some d) off p :: post) m) as [s1 m1].
  cbn [fst snd] in *. subst s1.
  cbn [ucs_config_parser_parse_field default].
  change (id dfl) with dfl.
  unfold ucs_config_sscanf_table. rewrite Htoks.
  cbn [sscanf_table_loop]. rewrite Htok.
  rewrite (set_value_one_match fnmatch (opts + toff) pre post fname (Some d)
             off p None true name user_value m1 v Hpre Hpost Hmatch Hoff Hacc).
  cbn [fst snd]. change (1 =? 1) with true. cbv iota. cbn [fst snd].
  split; [reflexivity|]. split; [apply lookup_insert_eq|].
  intros gname gd goff gp gv Hin Hgacc.
  assert (goff <> off) as Hne.
  { rewrite map_app in Hnd. cbn [map field_offset] in Hnd.
    apply NoDup_app in Hnd as (Hnd1 & Hdisj & Hnd2).
    apply NoDup_cons in Hnd2 as [Hnotin _].
    apply in_app_or in Hin as [Hin|Hin]; intros ->.
    - apply (Hdisj off).
      + apply list_elem_of_In.
        now apply (in_map field_offset pre (Field gname (Some gd) off gp)).
      + now left.
    - apply Hnotin. apply list_elem_of_In.
      now apply (in_map field_offset post (Field gname (Some gd) off gp)). }
  rewrite lookup_insert_ne by lia.
  apply (Hslots gname gd goff gp gv); [|exact Hgacc].
  apply in_app_or in Hin as [Hin|Hin]; apply in_or_app;
    [now left|right; now right].
Qed.

(** The sub-table [IB_] with the default text [QKEY=5]: the field ends at
    5, not at its default 0. *)
Lemma table_default_text_overrides_example :
  fst (ucs_config_parser_set_default_values fnmatch_glob 4096
         [Table "IB_" (Some "QKEY=5") 64
            ([] ++ Field "QKEY" (Some "0") 0 UCS_CONFIG_TYPE_UINT :: [])] ∅) =
    UCS_OK /\
  snd (ucs_config_parser_set_default_values fnmatch_glob 4096
         [Table "IB_" (Some "QKEY=5") 64
            ([] ++ Field "QKEY" (Some "0") 0 UCS_CONFIG_TYPE_UINT :: [])] ∅)
    !! (4096 + 64 + 0) = Some (VInt 5) /\
  forall gname gd goff gp gv,
    In (Field gname (Some gd) goff gp) ([] ++ []) ->
    accepts gp gd gv ->
    snd (ucs_config_parser_set_default_values fnmatch_glob 4096
           [Table "IB_" (Some "QKEY=5") 64
              ([] ++ Field "QKEY" (Some "0") 0 UCS_CONFIG_TYPE_UINT :: [])] ∅)
      !! (4096 + 64 + goff) = Some gv.
Proof.
  apply (table_default_text_overrides fnmatch_glob 4096 "IB_" "QKEY=5" 64
           [] [] "QKEY" "0" 0 UCS_CONFIG_TYPE_UINT "QKEY=5" "QKEY" "5" []
           (VInt 5) ∅).
  - exact qkey_fields_flat.
  - discriminate.
  - reflexivity.
  - reflexivity.
  - constructor.
  - constructor.
  - reflexivity.
  - intros old. reflexivity.
Defined.
